(** * max_dump: the chunk-based storage parser

    A shallow embedding of [max_dump/utils.py] (fixed-width integer reads,
    [unset_sign_bit]) and of [max_dump/storage_parser.py] ([StorageHeader],
    [StorageValue], [StorageContainer], [StorageParser._read_header],
    [_read_value], [_read_nodes], [parse]), followed by the properties of
    the decoder.

    Modelling choices.
    - A Python [int] is a [Z]; [bytes] is a [list byte].
    - [io.BytesIO] is a buffer with a cursor; [read] is the short read of
      CPython (a negative size reads to the end of the buffer, a size larger
      than what remains returns what remains).
    - [struct.unpack] with a native format is read little-endian with the
      native sizes 2, 4 and 8 that [calcsize] gives for ['h'], ['i'], ['q'].
    - Exceptions are the [Raise] outcome; the mutable attributes [_stream]
      and [_nest] of the parser object are threaded as explicit state.
    - The [while] loop of [_read_nodes] and its recursive call are a mutual
      fixpoint on a fuel argument; [_read_nodes] supplies enough fuel for the
      bytes that remain, and [OutOfFuel] is shown never to be its outcome. *)

From Stdlib Require Import ZArith List Lia Bool.
From Stdlib.Strings Require Import Byte.
Import ListNotations.
Local Open Scope Z_scope.

Set Warnings "-register-all".

(** ** Outcomes of a computation that may raise *)

Inductive exception : Type :=
| StructError                 (* struct.error: unpack requires a buffer of n bytes *)
| AssertionError              (* "Extended length cannot be zero" *)
| StorageException.           (* "Unknown header type" *)

Inductive outcome (A : Type) : Type :=
| Return (a : A)
| Raise (e : exception)
| OutOfFuel.

Arguments Return {A} a.
Arguments Raise {A} e.
Arguments OutOfFuel {A}.

Definition bind {A B : Type} (m : outcome A) (k : A -> outcome B) : outcome B :=
  match m with
  | Return a => k a
  | Raise e => Raise e
  | OutOfFuel => OutOfFuel
  end.

Notation "' pat <- m ;; k" := (bind m (fun x => match x with pat => k end))
  (at level 61, pat pattern, m at next level, right associativity).
Notation "x <- m ;; k" := (bind m (fun x => k))
  (at level 61, m at next level, right associativity).

(** ** io.BytesIO *)

Record BytesIO : Type := mkBytesIO { buf : list byte; pos : nat }.

Definition tell (s : BytesIO) : Z := Z.of_nat (pos s).

Definition remaining (s : BytesIO) : list byte := skipn (pos s) (buf s).

(** [stream.read(size)]: at most [size] bytes, all that remain when [size]
    is negative; the cursor advances by the number of bytes returned. *)
Definition read (s : BytesIO) (size : Z) : list byte * BytesIO :=
  let rest := remaining s in
  let n := if size <? 0 then List.length rest
           else Nat.min (Z.to_nat size) (List.length rest) in
  (firstn n rest, mkBytesIO (buf s) (pos s + n)).

(** [stream.seek(0, 2)] returns the new position, the size of the buffer. *)
Definition seek_end (s : BytesIO) : Z * BytesIO :=
  (Z.of_nat (List.length (buf s)), mkBytesIO (buf s) (List.length (buf s))).

Definition seek_start (s : BytesIO) : BytesIO := mkBytesIO (buf s) 0.

(** ** utils.py *)

Module utils.

Definition SHORT_S : Z := 2.
Definition INT_S : Z := 4.
Definition LONG_LONG_S : Z := 8.

Fixpoint from_bytes_le (bs : list byte) : Z :=
  match bs with
  | [] => 0
  | b :: tl => Z.of_N (Byte.to_N b) + 256 * from_bytes_le tl
  end.

Definition to_signed (bits : Z) (u : Z) : Z :=
  if u <? 2 ^ (bits - 1) then u else u - 2 ^ bits.

(** [unpack(fmt, data)[0]] for one signed integer of [size] bytes. *)
Definition unpack (size : Z) (data : list byte) : outcome Z :=
  if Z.of_nat (List.length data) =? size
  then Return (to_signed (8 * size) (from_bytes_le data))
  else Raise StructError.

Definition read_sized (size : Z) (stream : BytesIO) : outcome (Z * BytesIO) :=
  let '(data, stream') := read stream size in
  v <- unpack size data ;;
  Return (v, stream').

Definition read_short : BytesIO -> outcome (Z * BytesIO) := read_sized SHORT_S.
Definition read_int : BytesIO -> outcome (Z * BytesIO) := read_sized INT_S.
Definition read_long_long : BytesIO -> outcome (Z * BytesIO) :=
  read_sized LONG_LONG_S.

Definition unset_sign_bit (number length : Z) : Z :=
  let number_of_bits := length * 8 in
  let sign_bit := Z.shiftl 1 (number_of_bits - 1) in
  let byte_mask := Z.shiftl 1 number_of_bits - 1 in
  Z.land number (Z.land (Z.lnot sign_bit) byte_mask).

End utils.

(** ** storage_parser.py *)

Module storage_parser.

(** *** The data model *)

Inductive StorageType : Type := CONTAINER | VALUE.

Record StorageHeader : Type := mkStorageHeader {
  idn : Z;
  length : Z;
  storage_type : StorageType;
  extended : bool
}.

(** [StorageValue] and [StorageContainer], with the [_nest] attribute of
    [StorageBase]. *)
Inductive Storage : Type :=
| StorageValue (header : StorageHeader) (_nest : Z) (value : list byte)
| StorageContainer (header : StorageHeader) (_nest : Z) (childs : list Storage).

Definition ListOfStorages : Type := list Storage.

(** *** StorageParser *)

Record StorageParser : Type := mkStorageParser {
  _stream : BytesIO;
  _nest : Z
}.

Definition M (A : Type) : Type := StorageParser -> outcome (A * StorageParser).

Definition with_stream {A : Type} (f : BytesIO -> outcome (A * BytesIO)) : M A :=
  fun self =>
    '(a, s) <- f (_stream self) ;;
    Return (a, mkStorageParser s (_nest self)).

Definition add_nest (d : Z) (self : StorageParser) : StorageParser :=
  mkStorageParser (_stream self) (_nest self + d).

Definition _read_header : M StorageHeader :=
  fun self =>
    let size_of_length := utils.INT_S in
    '(idn, self) <- with_stream utils.read_short self ;;
    '(chunk_length, self) <- with_stream utils.read_int self ;;
    '(extended, size_of_length, chunk_length, self) <-
        (if chunk_length =? 0 then
           '(chunk_length, self) <- with_stream utils.read_long_long self ;;
           if chunk_length =? 0 then Raise AssertionError
           else Return (true, utils.LONG_LONG_S, chunk_length, self)
         else Return (false, size_of_length, chunk_length, self)) ;;
    let '(storage_type, chunk_length) :=
        if chunk_length <? 0
        then (CONTAINER, utils.unset_sign_bit chunk_length size_of_length)
        else (VALUE, chunk_length) in
    let header_length := utils.SHORT_S + utils.INT_S in
    let header_length :=
        if extended : bool then header_length + utils.LONG_LONG_S
        else header_length in
    let chunk_length := chunk_length - header_length in
    Return (mkStorageHeader idn chunk_length storage_type extended, self).

Definition _read_value (length : Z) : M (list byte) :=
  fun self =>
    let '(data, s) := read (_stream self) length in
    Return (data, mkStorageParser s (_nest self)).

(** [_read_nodes] with its [while] loop.  The loop state is [items] and
    [consumed]; [start] and [length] are fixed for the call.  The last
    branch of the source ([raise StorageException]) is taken for no member of
    the two-valued [StorageType]. *)
Fixpoint _read_nodes_fuel (fuel : nat) (length : Z) (self : StorageParser)
  : outcome (ListOfStorages * StorageParser) :=
  match fuel with
  | O => OutOfFuel
  | S fuel' =>
      let self := add_nest 1 self in
      let start := tell (_stream self) in
      '(items, self) <- while_fuel fuel' length start [] 0 self ;;
      let self := add_nest (-1) self in
      Return (items, self)
  end
with while_fuel (fuel : nat) (length start : Z) (items : ListOfStorages)
                (consumed : Z) (self : StorageParser)
  : outcome (ListOfStorages * StorageParser) :=
  if consumed <? length then
    match fuel with
    | O => OutOfFuel
    | S fuel' =>
        '(header, self) <- _read_header self ;;
        '(item, self) <-
            match storage_type header with
            | CONTAINER =>
                '(childs, self) <- _read_nodes_fuel fuel' (storage_parser.length header) self ;;
                Return (StorageContainer header (_nest self) childs, self)
            | VALUE =>
                '(value, self) <- _read_value (storage_parser.length header) self ;;
                Return (StorageValue header (_nest self) value, self)
            end ;;
        let items := items ++ [item] in
        let consumed := tell (_stream self) - start in
        while_fuel fuel' length start items consumed self
    end
  else Return (items, self).

(** Every header read consumes at least six bytes, so one unit of fuel per
    remaining byte, and two more for the entry, is always enough. *)
Definition enough_fuel (self : StorageParser) : nat :=
  List.length (remaining (_stream self)) + 2.

Definition _read_nodes (length : Z) : M ListOfStorages :=
  fun self => _read_nodes_fuel (enough_fuel self) length self.

(** [parse], from the bytes [ba] that [_read_stream] obtains from the OLE
    container for the stream name. *)
Definition _read_stream (ba : list byte) (self : StorageParser) : StorageParser :=
  mkStorageParser (mkBytesIO ba 0) (_nest self).

Definition parse (ba : list byte) : M ListOfStorages :=
  fun self =>
    let self := _read_stream ba self in
    let '(length, s) := seek_end (_stream self) in
    let self := mkStorageParser (seek_start s) (_nest self) in
    _read_nodes length self.

(** A parser object as its constructor leaves it. *)
Definition new_parser : StorageParser :=
  mkStorageParser (mkBytesIO [] 0) 0.

End storage_parser.

Import storage_parser.

(** * Auxiliary definitions used in the statements *)

(** The parser with its cursor moved [n] bytes forward. *)
Definition advance (n : nat) (self : StorageParser) : StorageParser :=
  mkStorageParser
    (mkBytesIO (buf (_stream self)) (pos (_stream self) + n))
    (_nest self).

(** The header built from the identifier and the length field, for a field of
    [size_of_length] bytes in a header of [header_length] bytes. *)
Definition header_of (idn raw size_of_length header_length : Z)
                     (extended : bool) : StorageHeader :=
  mkStorageHeader idn
    ((if raw <? 0 then utils.unset_sign_bit raw size_of_length else raw)
     - header_length)
    (if raw <? 0 then CONTAINER else VALUE)
    extended.

(** The number of bytes a header occupies. *)
Definition header_size (h : StorageHeader) : nat := if extended h then 14%nat else 6%nat.

(** [self'] is [self] with the cursor moved over [n] of the remaining
    bytes; nothing else has changed. *)
Definition advanced_by (n : nat) (self self' : StorageParser) : Prop :=
  (n <= List.length (remaining (_stream self)))%nat /\ self' = advance n self.

(** The same parser over a buffer with [pre] put in front. *)
Definition shift_stream (pre : list byte) (s : BytesIO) : BytesIO :=
  mkBytesIO (pre ++ buf s) (List.length pre + pos s).

Definition shift (pre : list byte) (self : StorageParser) : StorageParser :=
  mkStorageParser (shift_stream pre (_stream self)) (_nest self).

Definition map_state {A S : Type} (f : S -> S) (r : outcome (A * S))
  : outcome (A * S) :=
  match r with
  | Return (a, s) => Return (a, f s)
  | Raise e => Raise e
  | OutOfFuel => OutOfFuel
  end.

(** The loop of [_read_nodes] and [_read_nodes] itself, with the fuel that
    is always enough. *)
Definition read_nodes_loop (length start : Z) (items : ListOfStorages)
    (consumed : Z) (self : StorageParser)
  : outcome (ListOfStorages * StorageParser) :=
  while_fuel (List.length (remaining (_stream self)) + 1)
             length start items consumed self.

(** The inputs of the examples. *)
Definition scenario_A : list byte :=
  [x01; x00; x08; x00; x00; x00; x41; x42].

(** Length field [-(6+8)] as a 32-bit integer. *)
Definition scenario_B_negated : list byte :=
  [x02; x00; xf2; xff; xff; xff] ++ scenario_A.

(** Length field [6+8] with the sign bit set. *)
Definition scenario_B_tagged : list byte :=
  [x02; x00; x0e; x00; x00; x80] ++ scenario_A.

(** A container whose header leaves a budget of one byte for its children,
    followed by the eight bytes of scenario A. *)
Definition overrun_input : list byte :=
  [x02; x00; x07; x00; x00; x80] ++ scenario_A.

(** A value header that declares 100 bytes of payload, followed by two. *)
Definition truncated_input : list byte :=
  [x01; x00; x6a; x00; x00; x00; x41; x42].

(** ** Measures and predicates on decoded forests *)

(** The bytes of the buffer that a node stands for: those of its header
    and those of the payload that was read, or of the children. *)
Fixpoint span (node : Storage) : nat :=
  match node with
  | StorageValue h _ value => header_size h + List.length value
  | StorageContainer h _ childs => header_size h + list_sum (map span childs)
  end.

Definition spans (items : ListOfStorages) : nat := list_sum (map span items).

(** Every node carries its depth as [_nest], the roots carrying [depth]. *)
Fixpoint nest_ok (depth : Z) (node : Storage) : bool :=
  match node with
  | StorageValue _ n _ => n =? depth
  | StorageContainer _ n childs =>
      (n =? depth) && forallb (nest_ok (depth + 1)) childs
  end.

(** The node agrees with its header: a value has a [VALUE] header and no
    more bytes than the header's length, unless that is negative; a
    container has a [CONTAINER] header, no children for a length that is not
    positive, and otherwise children that span at least the length. *)
Fixpoint header_ok (node : Storage) : bool :=
  match node with
  | StorageValue h _ value =>
      match storage_type h with
      | VALUE =>
          (storage_parser.length h <? 0)
          || (Z.of_nat (List.length value) <=? storage_parser.length h)
      | CONTAINER => false
      end
  | StorageContainer h _ childs =>
      match storage_type h with
      | CONTAINER =>
          forallb header_ok childs
          && (if 0 <? storage_parser.length h
              then storage_parser.length h <=? Z.of_nat (list_sum (map span childs))
              else match childs with [] => true | _ :: _ => false end)
      | VALUE => false
      end
  end.

(** Every value of the forest holds as many bytes as its header says. *)
Fixpoint exact (node : Storage) : bool :=
  match node with
  | StorageValue h _ value =>
      Z.of_nat (List.length value) =? storage_parser.length h
  | StorageContainer _ _ childs => forallb exact childs
  end.

(** The parser over the same buffer with [suf] put behind it. *)
Definition extend (suf : list byte) (self : StorageParser) : StorageParser :=
  mkStorageParser
    (mkBytesIO (buf (_stream self) ++ suf) (pos (_stream self)))
    (_nest self).

Definition map_result {A B S : Type} (f : A -> B) (r : outcome (A * S))
  : outcome (B * S) :=
  match r with
  | Return (a, s) => Return (f a, s)
  | Raise e => Raise e
  | OutOfFuel => OutOfFuel
  end.

(** ** utils.py: [bin2ascii] *)

Module utils_text.

(** A Python [str] is the list of its code points. *)
Definition str : Type := list N.

(** [string.printable] of the Python library: digits, letters, punctuation
    and whitespace, in that order. *)
Definition printable : str :=
  map Byte.to_N
    [x30; x31; x32; x33; x34; x35; x36; x37; x38; x39;
     x61; x62; x63; x64; x65; x66; x67; x68; x69; x6a; x6b; x6c; x6d;
     x6e; x6f; x70; x71; x72; x73; x74; x75; x76; x77; x78; x79; x7a;
     x41; x42; x43; x44; x45; x46; x47; x48; x49; x4a; x4b; x4c; x4d;
     x4e; x4f; x50; x51; x52; x53; x54; x55; x56; x57; x58; x59; x5a;
     x21; x22; x23; x24; x25; x26; x27; x28; x29; x2a; x2b; x2c; x2d;
     x2e; x2f; x3a; x3b; x3c; x3d; x3e; x3f; x40; x5b; x5c; x5d; x5e;
     x5f; x60; x7b; x7c; x7d; x7e;
     x20; x09; x0a; x0d; x0b; x0c].

(** [value_bytes.decode('ascii', 'replace')]: a byte below 128 is its own
    code point, any other byte becomes U+FFFD. *)
Definition decode_ascii_replace (value_bytes : list byte) : str :=
  map (fun b => if (Byte.to_N b <? 128)%N then Byte.to_N b else 65533%N)
      value_bytes.

(** [x in string.printable] for a string [x] of one character. *)
Definition in_printable (x : N) : bool := existsb (N.eqb x) printable.

Definition bin2ascii (value_bytes : list byte) : str :=
  let s := decode_ascii_replace value_bytes in
  map (fun x => if in_printable x then x else 46%N) s.

End utils_text.

(** ** utils.py: [_new_key], [index_by], [group_by] *)

From Stdlib Require String Ascii.

Module utils_keys.

Import String Ascii.

Inductive key_exception : Type :=
| KeyError (sub_key : string)      (* entry[sub_key] with no such key *)
| AssertionFailed                  (* an [assert isinstance(...)] that fails *)
| TypeError.                       (* unhashable type: the key of [d[k]] *)

Inductive result (A : Type) : Type :=
| Ok (a : A)
| Err (e : key_exception).

Arguments Ok {A} a.
Arguments Err {A} e.

(** [key.split('__')]: the pieces between the occurrences of the
    separator, found from the left; [cur] is the piece being read. *)
Fixpoint split_from (s cur : string) : list string :=
  match s with
  | EmptyString => [cur]
  | String c s' =>
      if Ascii.eqb c "_" then
        match s' with
        | String c' rest =>
            if Ascii.eqb c' "_" then cur :: split_from rest EmptyString
            else split_from s' (cur ++ String c EmptyString)
        | EmptyString => split_from s' (cur ++ String c EmptyString)
        end
      else split_from s' (cur ++ String c EmptyString)
  end.

Definition split_dunder (key : string) : list string :=
  split_from key EmptyString.

(** The separator occurs in [s]. *)
Fixpoint has_dunder (s : string) : bool :=
  match s with
  | EmptyString => false
  | String c s' =>
      (Ascii.eqb c "_"
       && match s' with
          | String c' _ => Ascii.eqb c' "_"
          | EmptyString => false
          end)
      || has_dunder s'
  end.

Section Hashables.

(** The hashable values, with their equality, the string keys among them
    and [None]. *)
Variable Hashable : Type.
Variable hashable_eqb : Hashable -> Hashable -> bool.
Variable of_str : string -> Hashable.
Variable py_none : Hashable.

(** [hash(k)] returns.  A value can pass [isinstance(k, Hashable)] and
    still not hash: a tuple that holds a list has a [__hash__] that raises
    [TypeError]. *)
Variable can_hash : Hashable -> bool.

(** [DictOrValue]: a hashable value, a dict, or an object that is neither
    (a list, say).  A dict is the list of its items in insertion order. *)
Inductive DictOrValue : Type :=
| Value (v : Hashable)
| Dict (items : list (Hashable * DictOrValue))
| Unhashable.

Definition dict (V : Type) : Type := list (Hashable * V).

(** [d[k]], [None] standing for [KeyError]. *)
Fixpoint dict_get {V : Type} (d : dict V) (k : Hashable) : option V :=
  match d with
  | [] => None
  | (k', v) :: d' => if hashable_eqb k' k then Some v else dict_get d' k
  end.

(** The update that [d[k] = v] makes once [k] has been hashed: the value
    of a key that is there is replaced where it stands, a new key goes to
    the end. *)
Fixpoint dict_set {V : Type} (d : dict V) (k : Hashable) (v : V) : dict V :=
  match d with
  | [] => [(k, v)]
  | (k', v') :: d' =>
      if hashable_eqb k' k then (k', v) :: d'
      else (k', v') :: dict_set d' k v
  end.

(** [d[k] = v]: [TypeError] for a key that does not hash. *)
Definition setitem {V : Type} (d : dict V) (k : Hashable) (v : V)
  : result (dict V) :=
  if can_hash k then Ok (dict_set d k v) else Err TypeError.

(** The loop of [_new_key] over the sub-keys. *)
Fixpoint _new_key_loop (entry new_key : DictOrValue) (sub_keys : list string)
  : result DictOrValue :=
  match sub_keys with
  | [] => Ok new_key
  | sub_key :: sub_keys' =>
      match entry with
      | Dict items =>
          match dict_get items (of_str sub_key) with
          | Some found => _new_key_loop found found sub_keys'
          | None => Err (KeyError sub_key)
          end
      | _ => Err AssertionFailed
      end
  end.

Definition _new_key (entry : DictOrValue) (key : string) : result Hashable :=
  match _new_key_loop entry (Value py_none) (split_dunder key) with
  | Ok (Value new_key) => Ok new_key
  | Ok _ => Err AssertionFailed
  | Err e => Err e
  end.

Fixpoint index_by_loop (iterable : list DictOrValue) (key : string)
                       (indexed : dict DictOrValue)
  : result (dict DictOrValue) :=
  match iterable with
  | [] => Ok indexed
  | entry :: iterable' =>
      match _new_key entry key with
      | Ok new_key =>
          match setitem indexed new_key entry with
          | Ok indexed => index_by_loop iterable' key indexed
          | Err e => Err e
          end
      | Err e => Err e
      end
  end.

Definition index_by (iterable : list DictOrValue) (key : string)
  : result (dict DictOrValue) :=
  index_by_loop iterable key [].

(** What [grouped[new_key].append(entry)] does to a [defaultdict(list)]
    once [new_key] has been hashed: a key that is not there gets the empty
    list first. *)
Definition append_hashed (grouped : dict (list DictOrValue))
                         (new_key : Hashable) (entry : DictOrValue)
  : dict (list DictOrValue) :=
  match dict_get grouped new_key with
  | Some group => dict_set grouped new_key (group ++ [entry])
  | None => dict_set grouped new_key ([] ++ [entry])
  end.

(** [grouped[new_key].append(entry)]: [TypeError] for a key that does not
    hash. *)
Definition append_to (grouped : dict (list DictOrValue)) (new_key : Hashable)
                     (entry : DictOrValue) : result (dict (list DictOrValue)) :=
  if can_hash new_key then Ok (append_hashed grouped new_key entry)
  else Err TypeError.

Fixpoint group_by_loop (iterable : list DictOrValue) (key : string)
                       (grouped : dict (list DictOrValue))
  : result (dict (list DictOrValue)) :=
  match iterable with
  | [] => Ok grouped
  | entry :: iterable' =>
      match _new_key entry key with
      | Ok new_key =>
          match append_to grouped new_key entry with
          | Ok grouped => group_by_loop iterable' key grouped
          | Err e => Err e
          end
      | Err e => Err e
      end
  end.

Definition group_by (iterable : list DictOrValue) (key : string)
  : result (dict (list DictOrValue)) :=
  group_by_loop iterable key [].

(** [entry] has the key [k] under the path [key]. *)
Definition has_key (key : string) (k : Hashable) (entry : DictOrValue) : bool :=
  match _new_key entry key with
  | Ok k' => hashable_eqb k' k
  | Err _ => false
  end.

End Hashables.

Arguments Value {Hashable} v.
Arguments Dict {Hashable} items.
Arguments Unhashable {Hashable}.

(** Entries for the examples, over strings as the hashable values. *)
Definition entry_a : DictOrValue string :=
  Dict [("header"%string,
         Dict [("idn"%string, Value "x"%string);
               ("n"%string, Value "1"%string)]);
        ("kind"%string, Value "v"%string)].

Definition entry_b : DictOrValue string :=
  Dict [("header"%string, Dict [("idn"%string, Value "y"%string)]);
        ("kind"%string, Value "v"%string)].

Definition entry_c : DictOrValue string :=
  Dict [("header"%string, Dict [("idn"%string, Value "x"%string)]);
        ("kind"%string, Value "w"%string)].

End utils_keys.

(** The header that [_read_header] returns at [offset] of [data]. *)
Definition header_at (data : list byte) (offset : nat) : outcome StorageHeader :=
  '(h, _) <- _read_header (mkStorageParser (mkBytesIO data offset) 0) ;;
  Return h.

(** The node is what [data] holds at [offset]: its header is the one read
    there; the bytes of a value are those that follow the header; the
    children of a container follow the header one after the other. *)
Fixpoint located (data : list byte) (offset : nat) (node : Storage) : Prop :=
  match node with
  | StorageValue h _ value =>
      header_at data offset = Return h /\
      value = firstn (List.length value) (skipn (offset + header_size h) data)
  | StorageContainer h _ childs =>
      header_at data offset = Return h /\
      (fix located_from (o : nat) (l : list Storage) : Prop :=
         match l with
         | [] => True
         | child :: l' => located data o child /\ located_from (o + span child)%nat l'
         end) (offset + header_size h)%nat childs
  end.

Fixpoint located_list (data : list byte) (offset : nat) (items : ListOfStorages)
  : Prop :=
  match items with
  | [] => True
  | node :: items' =>
      located data offset node /\
      located_list data (offset + span node) items'
  end.

(** ** The parser object after a call, also when the call raises

    The same functions once more, returning next to the outcome the state
    in which the call leaves the stream and the parser: an exception of
    Python leaves the attributes as they are when it is raised. *)

Module tracked.

Definition T (S A : Type) : Type := S -> outcome A * S.

Definition ret {S A : Type} (a : A) : T S A := fun s => (Return a, s).

Definition raise {S A : Type} (e : exception) : T S A := fun s => (Raise e, s).

Definition bind {S A B : Type} (m : T S A) (k : A -> T S B) : T S B :=
  fun s =>
    match m s with
    | (Return a, s') => k a s'
    | (Raise e, s') => (Raise e, s')
    | (OutOfFuel, s') => (OutOfFuel, s')
    end.

Notation "x <~ m ;; k" := (bind m (fun x => k))
  (at level 61, m at next level, right associativity).

(** [unpack(fmt, stream.read(size))[0]]: the bytes are read before
    [unpack] looks at them. *)
Definition read_sized (size : Z) : T BytesIO Z :=
  fun stream =>
    let '(data, stream') := read stream size in
    (utils.unpack size data, stream').

Definition read_short : T BytesIO Z := read_sized utils.SHORT_S.
Definition read_int : T BytesIO Z := read_sized utils.INT_S.
Definition read_long_long : T BytesIO Z := read_sized utils.LONG_LONG_S.

Definition with_stream {A : Type} (f : T BytesIO A) : T StorageParser A :=
  fun self =>
    let '(r, s) := f (_stream self) in
    (r, mkStorageParser s (_nest self)).

Definition _read_header : T StorageParser StorageHeader :=
  idn <~ with_stream read_short ;;
  chunk_length <~ with_stream read_int ;;
  ext <~ (if chunk_length =? 0 then
            chunk_length <~ with_stream read_long_long ;;
            if chunk_length =? 0 then raise AssertionError
            else ret (true, utils.LONG_LONG_S, chunk_length)
          else ret (false, utils.INT_S, chunk_length)) ;;
  let '(extended, size_of_length, chunk_length) := ext in
  let '(storage_type, chunk_length) :=
      if chunk_length <? 0
      then (CONTAINER, utils.unset_sign_bit chunk_length size_of_length)
      else (VALUE, chunk_length) in
  let header_length := utils.SHORT_S + utils.INT_S in
  let header_length :=
      if extended : bool then header_length + utils.LONG_LONG_S
      else header_length in
  let chunk_length := chunk_length - header_length in
  ret (mkStorageHeader idn chunk_length storage_type extended).

Definition _read_value (length : Z) : T StorageParser (list byte) :=
  fun self =>
    let '(data, s) := read (_stream self) length in
    (Return data, mkStorageParser s (_nest self)).

Fixpoint _read_nodes_fuel (fuel : nat) (length : Z)
  : T StorageParser ListOfStorages :=
  match fuel with
  | O => fun self => (OutOfFuel, self)
  | S fuel' =>
      fun self =>
        let self := add_nest 1 self in
        let start := tell (_stream self) in
        (items <~ while_fuel fuel' length start [] 0 ;;
         fun self => (Return items, add_nest (-1) self)) self
  end
with while_fuel (fuel : nat) (length start : Z) (items : ListOfStorages)
                (consumed : Z) : T StorageParser ListOfStorages :=
  fun self =>
    if consumed <? length then
      match fuel with
      | O => (OutOfFuel, self)
      | S fuel' =>
          (header <~ _read_header ;;
           item <~ match storage_type header with
                   | CONTAINER =>
                       childs <~ _read_nodes_fuel fuel'
                                   (storage_parser.length header) ;;
                       fun self =>
                         (Return (StorageContainer header (_nest self) childs),
                          self)
                   | VALUE =>
                       value <~ _read_value (storage_parser.length header) ;;
                       fun self =>
                         (Return (StorageValue header (_nest self) value), self)
                   end ;;
           fun self =>
             while_fuel fuel' length start (items ++ [item])
                        (tell (_stream self) - start) self) self
      end
    else (Return items, self).

Definition _read_nodes (length : Z) : T StorageParser ListOfStorages :=
  fun self => _read_nodes_fuel (enough_fuel self) length self.

Definition parse (ba : list byte) : T StorageParser ListOfStorages :=
  fun self =>
    let self := _read_stream ba self in
    let '(length, s) := seek_end (_stream self) in
    let self := mkStorageParser (seek_start s) (_nest self) in
    _read_nodes length self.

(** The outcome without the state that an exception leaves. *)
Definition forget {S A : Type} (r : outcome A * S) : outcome (A * S) :=
  match r with
  | (Return a, s) => Return (a, s)
  | (Raise e, _) => Raise e
  | (OutOfFuel, _) => OutOfFuel
  end.

(** The computation leaves [_nest] as it finds it, whatever its outcome. *)
Definition keeps_nest {A : Type} (m : T StorageParser A) : Prop :=
  forall self, _nest (snd (m self)) = _nest self.

End tracked.

(** A stream that ends inside its first header. *)
Definition cut_short_input : list byte := [x01; x00; x08].

(** * Properties *)

(** ** The cursor *)

Section Cursor.

Implicit Types (s : BytesIO) (data tl : list byte).

Lemma remaining_length s :
  List.length (remaining s) = (List.length (buf s) - pos s)%nat.
Proof. unfold remaining. apply length_skipn. Qed.

Lemma read_buf s size : buf (snd (read s size)) = buf s.
Proof. reflexivity. Qed.

Lemma read_data s size :
  fst (read s size) =
  firstn (if size <? 0 then List.length (remaining s)
          else Nat.min (Z.to_nat size) (List.length (remaining s)))
         (remaining s).
Proof. reflexivity. Qed.

Lemma read_pos s size :
  pos (snd (read s size)) = (pos s + List.length (fst (read s size)))%nat.
Proof.
  unfold read; cbn [fst snd pos]. rewrite length_firstn.
  destruct (size <? 0); lia.
Qed.

Lemma read_remaining s size :
  remaining s = fst (read s size) ++ remaining (snd (read s size)).
Proof.
  unfold read, remaining; cbn [fst snd pos buf].
  set (rest := skipn (pos s) (buf s)).
  set (n := if size <? 0 then _ else _).
  assert (Hn : (n <= List.length rest)%nat)
    by (subst n; destruct (size <? 0); lia).
  assert (E : skipn (pos s + n) (buf s) = skipn n rest)
    by (subst rest; rewrite skipn_skipn; f_equal; lia).
  rewrite E. symmetry. apply firstn_skipn.
Qed.

(** A read of exactly the bytes that are there. *)
Lemma read_exact s data tl :
  remaining s = data ++ tl ->
  read s (Z.of_nat (List.length data)) =
  (data, mkBytesIO (buf s) (pos s + List.length data)).
Proof.
  intros E. unfold read. rewrite E.
  destruct (Z.ltb_spec (Z.of_nat (List.length data)) 0) as [?|_]; [lia|].
  rewrite Nat2Z.id, length_app.
  rewrite Nat.min_l by lia.
  rewrite firstn_app, firstn_all, Nat.sub_diag. cbn [firstn].
  now rewrite app_nil_r.
Qed.

Lemma remaining_advance s data tl :
  remaining s = data ++ tl ->
  remaining (mkBytesIO (buf s) (pos s + List.length data)) = tl.
Proof.
  unfold remaining; cbn [buf pos]. intros E.
  rewrite Nat.add_comm, <- skipn_skipn, E, skipn_app, skipn_all, Nat.sub_diag.
  reflexivity.
Qed.

Lemma remaining_in_bounds s x tl :
  remaining s = x :: tl -> (pos s < List.length (buf s))%nat.
Proof.
  intros E. apply (f_equal (@List.length byte)) in E.
  rewrite remaining_length in E. cbn in E. lia.
Qed.

End Cursor.

(** ** utils.py *)

Section Utils.

Import utils.

Lemma byte_range (b : byte) : 0 <= Z.of_N (Byte.to_N b) < 256.
Proof. pose proof (Byte.to_N_bounded b). lia. Qed.

Lemma from_bytes_le_range (bs : list byte) :
  0 <= from_bytes_le bs < 2 ^ (8 * Z.of_nat (List.length bs)).
Proof.
  induction bs as [|b bs IH]; cbn [from_bytes_le List.length].
  - change (2 ^ (8 * Z.of_nat 0)) with 1. lia.
  - replace (8 * Z.of_nat (S (List.length bs)))
      with (8 + 8 * Z.of_nat (List.length bs)) by lia.
    rewrite Z.pow_add_r by lia. change (2 ^ 8) with 256.
    pose proof (byte_range b). nia.
Qed.

Lemma to_signed_range (bits u : Z) :
  0 < bits -> 0 <= u < 2 ^ bits ->
  - 2 ^ (bits - 1) <= to_signed bits u < 2 ^ (bits - 1).
Proof.
  intros Hb Hu. unfold to_signed.
  assert (E : 2 ^ bits = 2 * 2 ^ (bits - 1)).
  { replace bits with (1 + (bits - 1)) at 1 by lia.
    rewrite Z.pow_add_r by lia. reflexivity. }
  destruct (Z.ltb_spec u (2 ^ (bits - 1))); lia.
Qed.

(** The mask that [unset_sign_bit] builds is the one with the low
    [8 * length - 1] bits set. *)
Lemma unset_sign_bit_mask (length : Z) :
  0 < length ->
  Z.land (Z.lnot (Z.shiftl 1 (length * 8 - 1))) (Z.shiftl 1 (length * 8) - 1)
  = Z.ones (length * 8 - 1).
Proof.
  intros Hl.
  replace (Z.shiftl 1 (length * 8) - 1) with (Z.ones (length * 8))
    by (unfold Z.ones; lia).
  rewrite Z.shiftl_1_l.
  apply Z.bits_inj'. intros i Hi.
  rewrite Z.land_spec, Z.lnot_spec, Z.pow2_bits_eqb by lia.
  rewrite !Z.testbit_ones_nonneg by lia.
  destruct (Z.eqb_spec (length * 8 - 1) i),
           (Z.ltb_spec i (length * 8)),
           (Z.ltb_spec i (length * 8 - 1)); cbn; lia || reflexivity.
Qed.

Lemma unset_sign_bit_land (number length : Z) :
  0 < length ->
  unset_sign_bit number length = Z.land number (Z.ones (length * 8 - 1)).
Proof.
  intros Hl. unfold unset_sign_bit. cbv zeta.
  now rewrite unset_sign_bit_mask.
Qed.

Lemma unset_sign_bit_mod (number length : Z) :
  0 < length ->
  unset_sign_bit number length = number mod 2 ^ (length * 8 - 1).
Proof.
  intros Hl. rewrite unset_sign_bit_land by assumption.
  apply Z.land_ones. lia.
Qed.

Lemma unpack_ok (size : Z) (data : list byte) :
  Z.of_nat (List.length data) = size ->
  unpack size data = Return (to_signed (8 * size) (from_bytes_le data)).
Proof. intros E. unfold unpack. now rewrite (proj2 (Z.eqb_eq _ _) E). Qed.

Lemma read_sized_ok (size : Z) (s : BytesIO) (data tl : list byte) :
  remaining s = data ++ tl ->
  Z.of_nat (List.length data) = size ->
  read_sized size s =
  Return (to_signed (8 * size) (from_bytes_le data),
          mkBytesIO (buf s) (pos s + List.length data)).
Proof.
  intros E Hs. unfold read_sized. rewrite <- Hs at 1.
  rewrite (read_exact _ _ _ E), (unpack_ok _ _ Hs). reflexivity.
Qed.

(** What a successful fixed-width read has done. *)
Lemma read_sized_inv (size : Z) (s s' : BytesIO) (v : Z) :
  0 <= size ->
  read_sized size s = Return (v, s') ->
  exists data,
    remaining s = data ++ remaining s' /\
    Z.of_nat (List.length data) = size /\
    v = to_signed (8 * size) (from_bytes_le data) /\
    s' = mkBytesIO (buf s) (pos s + List.length data).
Proof.
  intros Hs. unfold read_sized.
  pose proof (read_remaining s size) as Hrem.
  pose proof (read_pos s size) as Hpos.
  pose proof (read_buf s size) as Hbuf.
  destruct (read s size) as [data s1]. cbn [fst snd] in *.
  unfold unpack. destruct (Z.eqb_spec (Z.of_nat (List.length data)) size) as [E|E];
    cbn [bind]; [|discriminate].
  intros [= <- <-]. exists data. repeat split; try assumption.
  destruct s1 as [b1 p1]; cbn [buf pos] in *. now subst.
Qed.

Lemma read_sized_raise (size : Z) (s : BytesIO) (e : exception) :
  read_sized size s = Raise e -> e = StructError.
Proof.
  unfold read_sized. destruct (read s size) as [data s1].
  unfold unpack. destruct (_ =? _); cbn [bind]; congruence.
Qed.

Lemma read_sized_fuel (size : Z) (s : BytesIO) :
  read_sized size s <> OutOfFuel.
Proof.
  unfold read_sized. destruct (read s size) as [data s1].
  unfold unpack. destruct (_ =? _); cbn [bind]; congruence.
Qed.

(** With fewer bytes left than the format needs, [unpack] raises. *)
Lemma read_sized_short (size : Z) (s : BytesIO) :
  Z.of_nat (List.length (remaining s)) < size ->
  read_sized size s = Raise StructError.
Proof.
  intros Hlt. unfold read_sized, read.
  destruct (Z.ltb_spec size 0) as [?|Hs]; [lia|].
  unfold unpack. rewrite length_firstn.
  destruct (Z.eqb_spec
    (Z.of_nat (Nat.min (Nat.min (Z.to_nat size) (List.length (remaining s)))
                       (List.length (remaining s)))) size) as [E|E];
    [lia | reflexivity].
Qed.

End Utils.

(** ** The header decoder *)

Section Header.

Import utils.

Implicit Types (self : StorageParser) (h : StorageHeader).

Lemma advance_advance (n m : nat) self :
  advance m (advance n self) = advance (n + m) self.
Proof. unfold advance; cbn. now rewrite Nat.add_assoc. Qed.

Lemma with_stream_ok (size : Z) self (data tl : list byte) :
  remaining (_stream self) = data ++ tl ->
  Z.of_nat (List.length data) = size ->
  with_stream (read_sized size) self =
  Return (to_signed (8 * size) (from_bytes_le data),
          advance (List.length data) self).
Proof.
  intros E Hs. unfold with_stream.
  now rewrite (read_sized_ok _ _ _ _ E Hs).
Qed.

Lemma with_stream_inv (size : Z) self self' (v : Z) :
  0 <= size ->
  with_stream (read_sized size) self = Return (v, self') ->
  exists data,
    remaining (_stream self) = data ++ remaining (_stream self') /\
    Z.of_nat (List.length data) = size /\
    v = to_signed (8 * size) (from_bytes_le data) /\
    self' = advance (List.length data) self.
Proof.
  intros Hs. unfold with_stream.
  destruct (read_sized size (_stream self)) as [[v1 s1]| |] eqn:R;
    cbn [bind]; try discriminate.
  intros [= <- <-].
  destruct (read_sized_inv _ _ _ _ Hs R) as (data & E1 & E2 & E3 & E4).
  exists data. cbn [_stream]. repeat split; try assumption.
  unfold advance. now rewrite E4.
Qed.

Lemma with_stream_raise (size : Z) self (e : exception) :
  with_stream (read_sized size) self = Raise e -> e = StructError.
Proof.
  unfold with_stream.
  destruct (read_sized size (_stream self)) as [[v1 s1]| |] eqn:R;
    cbn [bind]; try discriminate.
  intros [= <-]. eapply read_sized_raise, R.
Qed.

Lemma with_stream_fuel (size : Z) self :
  with_stream (read_sized size) self <> OutOfFuel.
Proof.
  unfold with_stream. pose proof (read_sized_fuel size (_stream self)).
  destruct (read_sized size (_stream self)) as [[v1 s1]| |];
    cbn [bind]; congruence.
Qed.

Lemma remaining_advance_self self (data tl : list byte) :
  remaining (_stream self) = data ++ tl ->
  remaining (_stream (advance (List.length data) self)) = tl.
Proof. intros E. unfold advance; cbn [_stream]. now apply remaining_advance. Qed.

(** A header with a non-zero 32-bit length field. *)
Lemma read_header_normal self (idb lenb tl : list byte) :
  remaining (_stream self) = idb ++ lenb ++ tl ->
  List.length idb = 2%nat -> List.length lenb = 4%nat ->
  to_signed 32 (from_bytes_le lenb) <> 0 ->
  _read_header self =
  Return (header_of (to_signed 16 (from_bytes_le idb))
                    (to_signed 32 (from_bytes_le lenb)) 4 6 false,
          advance 6 self).
Proof.
  intros E Hi Hl Hraw. unfold _read_header, read_short, read_int.
  rewrite (with_stream_ok SHORT_S _ _ _ E) by (rewrite Hi; reflexivity).
  cbn [bind].
  pose proof (remaining_advance_self _ _ _ E) as E1.
  rewrite (with_stream_ok INT_S _ _ _ E1) by (rewrite Hl; reflexivity).
  cbn [bind]. change (8 * INT_S) with 32. change (8 * SHORT_S) with 16.
  destruct (Z.eqb_spec (to_signed 32 (from_bytes_le lenb)) 0) as [?|_];
    [contradiction|].
  cbn [bind]. rewrite advance_advance, Hi, Hl.
  unfold header_of.
  destruct (to_signed 32 (from_bytes_le lenb) <? 0); reflexivity.
Qed.

(** A header whose 32-bit length field is zero and whose 64-bit length
    field is not. *)
Lemma read_header_extended self (idb lenb extb tl : list byte) :
  remaining (_stream self) = idb ++ lenb ++ extb ++ tl ->
  List.length idb = 2%nat -> List.length lenb = 4%nat ->
  List.length extb = 8%nat ->
  to_signed 32 (from_bytes_le lenb) = 0 ->
  to_signed 64 (from_bytes_le extb) <> 0 ->
  _read_header self =
  Return (header_of (to_signed 16 (from_bytes_le idb))
                    (to_signed 64 (from_bytes_le extb)) 8 14 true,
          advance 14 self).
Proof.
  intros E Hi Hl He Hz Hraw. unfold _read_header, read_short, read_int,
    read_long_long.
  rewrite (with_stream_ok SHORT_S _ _ _ E) by (rewrite Hi; reflexivity).
  cbn [bind].
  pose proof (remaining_advance_self _ _ _ E) as E1.
  rewrite (with_stream_ok INT_S _ _ _ E1) by (rewrite Hl; reflexivity).
  cbn [bind]. change (8 * INT_S) with 32. change (8 * SHORT_S) with 16.
  rewrite Hz. cbn [Z.eqb].
  pose proof (remaining_advance_self _ _ _ E1) as E2.
  rewrite (with_stream_ok LONG_LONG_S _ _ _ E2) by (rewrite He; reflexivity).
  cbn [bind]. change (8 * LONG_LONG_S) with 64.
  destruct (Z.eqb_spec (to_signed 64 (from_bytes_le extb)) 0) as [?|_];
    [contradiction|].
  cbn [bind]. rewrite !advance_advance, Hi, Hl, He.
  unfold header_of.
  destruct (to_signed 64 (from_bytes_le extb) <? 0); reflexivity.
Qed.

(** Both length fields zero: the assertion fails. *)
Lemma read_header_zero self (idb lenb extb tl : list byte) :
  remaining (_stream self) = idb ++ lenb ++ extb ++ tl ->
  List.length idb = 2%nat -> List.length lenb = 4%nat ->
  List.length extb = 8%nat ->
  to_signed 32 (from_bytes_le lenb) = 0 ->
  to_signed 64 (from_bytes_le extb) = 0 ->
  _read_header self = Raise AssertionError.
Proof.
  intros E Hi Hl He Hz Hz'. unfold _read_header, read_short, read_int,
    read_long_long.
  rewrite (with_stream_ok SHORT_S _ _ _ E) by (rewrite Hi; reflexivity).
  cbn [bind].
  pose proof (remaining_advance_self _ _ _ E) as E1.
  rewrite (with_stream_ok INT_S _ _ _ E1) by (rewrite Hl; reflexivity).
  cbn [bind]. change (8 * INT_S) with 32.
  rewrite Hz. cbn [Z.eqb].
  pose proof (remaining_advance_self _ _ _ E1) as E2.
  rewrite (with_stream_ok LONG_LONG_S _ _ _ E2) by (rewrite He; reflexivity).
  cbn [bind]. change (8 * LONG_LONG_S) with 64.
  rewrite Hz'. reflexivity.
Qed.

(** Conversely, every header that is returned was read in one of these two
    ways. *)
Lemma read_header_inv self h self' :
  _read_header self = Return (h, self') ->
  exists idb lenb extb,
    remaining (_stream self) = idb ++ lenb ++ extb ++ remaining (_stream self')
    /\ List.length idb = 2%nat /\ List.length lenb = 4%nat
    /\ ((to_signed 32 (from_bytes_le lenb) <> 0 /\ extb = []
         /\ h = header_of (to_signed 16 (from_bytes_le idb))
                          (to_signed 32 (from_bytes_le lenb)) 4 6 false
         /\ self' = advance 6 self)
        \/
        (to_signed 32 (from_bytes_le lenb) = 0 /\ List.length extb = 8%nat
         /\ to_signed 64 (from_bytes_le extb) <> 0
         /\ h = header_of (to_signed 16 (from_bytes_le idb))
                          (to_signed 64 (from_bytes_le extb)) 8 14 true
         /\ self' = advance 14 self)).
Proof.
  unfold _read_header, read_short, read_int, read_long_long.
  destruct (with_stream (read_sized SHORT_S) self) as [[v1 p1]| |] eqn:R1;
    cbn [bind]; try discriminate.
  destruct (with_stream_inv SHORT_S _ _ _ ltac:(unfold SHORT_S; lia) R1)
    as (idb & E1 & L1 & V1 & P1).
  destruct (with_stream (read_sized INT_S) p1) as [[v2 p2]| |] eqn:R2;
    cbn [bind]; try discriminate.
  destruct (with_stream_inv INT_S _ _ _ ltac:(unfold INT_S; lia) R2)
    as (lenb & E2 & L2 & V2 & P2).
  change (8 * SHORT_S) with 16 in V1. change (8 * INT_S) with 32 in V2.
  unfold SHORT_S in L1. unfold INT_S in L2.
  assert (Hi : List.length idb = 2%nat) by lia.
  assert (Hl : List.length lenb = 4%nat) by lia.
  rewrite Hi in P1. rewrite Hl in P2. rewrite P1, advance_advance in P2.
  destruct (Z.eqb_spec v2 0) as [Z2|NZ2].
  - destruct (with_stream (read_sized LONG_LONG_S) p2) as [[v3 p3]| |] eqn:R3;
      cbn [bind]; try discriminate.
    destruct (with_stream_inv LONG_LONG_S _ _ _ ltac:(unfold LONG_LONG_S; lia) R3)
      as (extb & E3 & L3 & V3 & P3).
    change (8 * LONG_LONG_S) with 64 in V3. unfold LONG_LONG_S in L3.
    assert (He : List.length extb = 8%nat) by lia.
    rewrite He, P2, advance_advance in P3.
    destruct (Z.eqb_spec v3 0) as [Z3|NZ3]; cbn [bind]; try discriminate.
    destruct (v3 <? 0) eqn:N3; intros [= <- <-]; exists idb, lenb, extb;
      rewrite E1, E2, E3; (repeat split; try assumption);
      right; subst v1 v2 v3; (repeat split; try assumption);
      unfold header_of; rewrite N3; reflexivity.
  - cbn [bind].
    destruct (v2 <? 0) eqn:N2; intros [= <- <-]; exists idb, lenb, [];
      rewrite E1, E2; (repeat split; try assumption);
      left; subst v1 v2; (repeat split; try assumption);
      unfold header_of; rewrite N2; reflexivity.
Qed.

Lemma read_header_step self h self' :
  _read_header self = Return (h, self') ->
  self' = advance (header_size h) self /\
  (pos (_stream self) + header_size h <= List.length (buf (_stream self)))%nat.
Proof.
  intros R. destruct (read_header_inv _ _ _ R)
    as (idb & lenb & extb & E & Hi & Hl & H).
  apply (f_equal (@List.length byte)) in E.
  rewrite !length_app, remaining_length, Hi, Hl in E.
  destruct H as [(_ & -> & -> & ->)|(_ & He & _ & -> & ->)];
    unfold header_size, header_of; cbn [extended]; split; try reflexivity.
  - cbn [List.length] in E. lia.
  - rewrite He in E. lia.
Qed.

Lemma read_header_raise self (e : exception) :
  _read_header self = Raise e -> e = StructError \/ e = AssertionError.
Proof.
  unfold _read_header, read_short, read_int, read_long_long.
  destruct (with_stream (read_sized SHORT_S) self) as [[v1 p1]| |] eqn:R1;
    cbn [bind]; try discriminate.
  2:{ intros [= <-]. left. eapply with_stream_raise, R1. }
  destruct (with_stream (read_sized INT_S) p1) as [[v2 p2]| |] eqn:R2;
    cbn [bind]; try discriminate.
  2:{ intros [= <-]. left. eapply with_stream_raise, R2. }
  destruct (v2 =? 0).
  - destruct (with_stream (read_sized LONG_LONG_S) p2) as [[v3 p3]| |] eqn:R3;
      cbn [bind]; try discriminate.
    2:{ intros [= <-]. left. eapply with_stream_raise, R3. }
    destruct (v3 =? 0); cbn [bind].
    + intros [= <-]. now right.
    + destruct (v3 <? 0); discriminate.
  - cbn [bind]. destruct (v2 <? 0); discriminate.
Qed.

Lemma read_header_fuel self : _read_header self <> OutOfFuel.
Proof.
  unfold _read_header, read_short, read_int, read_long_long.
  pose proof (with_stream_fuel SHORT_S self) as F1.
  destruct (with_stream (read_sized SHORT_S) self) as [[v1 p1]| |];
    cbn [bind]; try congruence.
  pose proof (with_stream_fuel INT_S p1) as F2.
  destruct (with_stream (read_sized INT_S) p1) as [[v2 p2]| |];
    cbn [bind]; try congruence.
  destruct (v2 =? 0).
  - pose proof (with_stream_fuel LONG_LONG_S p2) as F3.
    destruct (with_stream (read_sized LONG_LONG_S) p2) as [[v3 p3]| |];
      cbn [bind]; try congruence.
    destruct (v3 =? 0); cbn [bind]; try congruence.
    destruct (v3 <? 0); discriminate.
  - cbn [bind]. destruct (v2 <? 0); discriminate.
Qed.

End Header.

(** ** The tree builder *)

Section Builder.

Implicit Types (self : StorageParser) (h : StorageHeader)
               (items childs : ListOfStorages).

Lemma advance_0 self : advance 0 self = self.
Proof.
  destruct self as [[b p] n]. unfold advance; cbn. now rewrite Nat.add_0_r.
Qed.

Lemma advance_add_nest (n : nat) (d : Z) self :
  advance n (add_nest d self) = add_nest d (advance n self).
Proof. reflexivity. Qed.

Lemma add_nest_add_nest (d d' : Z) self :
  add_nest d' (add_nest d self) = add_nest (d + d') self.
Proof. unfold add_nest; cbn. now rewrite Z.add_assoc. Qed.

Lemma add_nest_0 self : add_nest 0 self = self.
Proof. destruct self as [s n]. unfold add_nest; cbn. now rewrite Z.add_0_r. Qed.

Lemma remaining_add_nest (d : Z) self :
  remaining (_stream (add_nest d self)) = remaining (_stream self).
Proof. reflexivity. Qed.

Lemma tell_advance (n : nat) self :
  tell (_stream (advance n self)) = tell (_stream self) + Z.of_nat n.
Proof. unfold tell, advance; cbn. lia. Qed.

Lemma remaining_advance_length (n : nat) self :
  List.length (remaining (_stream (advance n self))) =
  (List.length (remaining (_stream self)) - n)%nat.
Proof. rewrite !remaining_length. unfold advance; cbn. lia. Qed.

Lemma advanced_by_refl self : advanced_by 0 self self.
Proof. split; [lia | now rewrite advance_0]. Qed.

Lemma advanced_by_trans (n m : nat) self self1 self2 :
  advanced_by n self self1 -> advanced_by m self1 self2 ->
  advanced_by (n + m) self self2.
Proof.
  intros [Hn ->] [Hm ->]. rewrite remaining_advance_length in Hm.
  split; [lia | apply advance_advance].
Qed.

Lemma read_header_advanced self h self' :
  _read_header self = Return (h, self') ->
  advanced_by (header_size h) self self'.
Proof.
  intros R. destruct (read_header_step _ _ _ R) as [-> Hle].
  split; [rewrite remaining_length; lia | reflexivity].
Qed.

Lemma header_size_min h : (6 <= header_size h)%nat.
Proof. unfold header_size. destruct (extended h); lia. Qed.

(** [_read_value] never raises: it returns what [read] returns. *)
Lemma read_value_eq (length : Z) self :
  _read_value length self =
  Return (fst (read (_stream self) length),
          advance (List.length (fst (read (_stream self) length))) self).
Proof.
  unfold _read_value. pose proof (read_pos (_stream self) length) as P.
  pose proof (read_buf (_stream self) length) as B.
  destruct (read (_stream self) length) as [data [b p]]; cbn [fst snd buf pos] in *.
  unfold advance. now subst.
Qed.

Lemma read_length_le (s : BytesIO) (size : Z) :
  (List.length (fst (read s size)) <= List.length (remaining s))%nat.
Proof. rewrite read_data, length_firstn. lia. Qed.

Lemma read_value_advanced (length : Z) self :
  advanced_by (List.length (fst (read (_stream self) length))) self
    (advance (List.length (fst (read (_stream self) length))) self).
Proof. split; [apply read_length_le | reflexivity]. Qed.

Lemma while_fuel_done (fuel : nat) (length start consumed : Z) items self :
  length <= consumed ->
  while_fuel fuel length start items consumed self = Return (items, self).
Proof.
  intros H. assert (E : (consumed <? length) = false) by now apply Z.ltb_ge.
  destruct fuel; cbn [while_fuel]; now rewrite E.
Qed.

(** What a call that returns has done to the parser: the cursor has moved
    forward inside the buffer, by at least the budget when the budget is
    positive and not at all otherwise; [_nest] is restored. *)
Lemma read_nodes_fuel_returns (fuel : nat) :
  (forall length self items self',
      _read_nodes_fuel fuel length self = Return (items, self') ->
      exists n, advanced_by n self self' /\
        ((length <= 0 /\ n = 0%nat /\ items = []) \/
         (0 < length <= Z.of_nat n)))
  /\
  (forall length start items consumed self items' self',
      while_fuel fuel length start items consumed self = Return (items', self') ->
      exists n, advanced_by n self self' /\
        ((length <= consumed /\ n = 0%nat /\ items' = items) \/
         (consumed < length <= tell (_stream self') - start))).
Proof.
  induction fuel as [|fuel [IHn IHw]]; split.
  - discriminate.
  - intros length start items consumed self items' self'. cbn [while_fuel].
    destruct (Z.ltb_spec consumed length); [discriminate|].
    intros [= <- <-]. exists 0%nat. split; [apply advanced_by_refl | now left].
  - intros length self items self'. cbn [_read_nodes_fuel].
    destruct (while_fuel fuel length _ [] 0 (add_nest 1 self))
      as [[items1 self1]| |] eqn:W; cbn [bind]; try discriminate.
    intros [= <- <-]. apply IHw in W. destruct W as (n & [Hn ->] & H).
    exists n. split.
    + split; [exact Hn|].
      rewrite advance_add_nest, add_nest_add_nest. apply add_nest_0.
    + rewrite tell_advance in H. destruct H as [(? & ? & ?)|?]; [left|right];
        repeat split; try assumption; lia.
  - intros length start items consumed self items' self'. cbn [while_fuel].
    destruct (Z.ltb_spec consumed length) as [Hlt|Hge].
    2:{ intros [= <- <-]. exists 0%nat.
        split; [apply advanced_by_refl | now left]. }
    destruct (_read_header self) as [[h self1]| |] eqn:RH;
      cbn [bind]; try discriminate.
    apply read_header_advanced in RH.
    assert (Hitem : forall item self2 m,
      advanced_by m self1 self2 ->
      while_fuel fuel length start (items ++ [item])
                 (tell (_stream self2) - start) self2 = Return (items', self') ->
      exists n, advanced_by n self self' /\
        ((length <= consumed /\ n = 0%nat /\ items' = items) \/
         (consumed < length <= tell (_stream self') - start))).
    { intros item self2 m A2 W. apply IHw in W.
      destruct W as (k & A3 & H).
      exists (header_size h + m + k)%nat. split.
      - eapply advanced_by_trans; [eapply advanced_by_trans|]; eassumption.
      - right. destruct H as [(? & -> & _)|?]; [|lia].
        destruct A3 as [_ ->]. rewrite advance_0. lia. }
    destruct (storage_type h).
    + destruct (_read_nodes_fuel fuel (storage_parser.length h) self1)
        as [[childs self2]| |] eqn:RN; cbn [bind]; try discriminate.
      apply IHn in RN. destruct RN as (m & A2 & _).
      apply (Hitem _ _ _ A2).
    + rewrite read_value_eq. cbn [bind].
      apply (Hitem _ _ _ (read_value_advanced _ _)).
Qed.

(** Fuel: one unit per remaining byte is enough for the loop, one more for
    the entry of [_read_nodes]. *)
Lemma read_nodes_fuel_enough (fuel : nat) :
  (forall length self,
      (List.length (remaining (_stream self)) + 2 <= fuel)%nat ->
      _read_nodes_fuel fuel length self <> OutOfFuel)
  /\
  (forall length start items consumed self,
      (List.length (remaining (_stream self)) + 1 <= fuel)%nat ->
      while_fuel fuel length start items consumed self <> OutOfFuel).
Proof.
  induction fuel as [|fuel [IHn IHw]]; split.
  - intros; lia.
  - intros; lia.
  - intros length self Hf. cbn [_read_nodes_fuel].
    specialize (IHw length (tell (_stream (add_nest 1 self))) [] 0
                    (add_nest 1 self)).
    rewrite remaining_add_nest in IHw.
    destruct (while_fuel fuel length _ [] 0 (add_nest 1 self))
      as [[items1 self1]| |]; cbn [bind]; try discriminate.
    apply IHw. lia.
  - intros length start items consumed self Hf. cbn [while_fuel].
    destruct (consumed <? length); [|discriminate].
    pose proof (read_header_fuel self) as HF.
    destruct (_read_header self) as [[h self1]| |] eqn:RH;
      cbn [bind]; try congruence.
    apply read_header_advanced in RH. destruct RH as [Hh ->].
    pose proof (header_size_min h) as H6.
    assert (Hrem : (List.length (remaining (_stream (advance (header_size h) self)))
                    + 6 <= fuel)%nat)
      by (rewrite remaining_advance_length; lia).
    destruct (storage_type h).
    + pose proof (IHn (storage_parser.length h) (advance (header_size h) self)
                      ltac:(lia)) as HN.
      destruct (_read_nodes_fuel fuel _ _) as [[childs self2]| |] eqn:RN;
        cbn [bind]; try congruence.
      apply (proj1 (read_nodes_fuel_returns fuel)) in RN.
      destruct RN as (m & [Hm ->] & _).
      apply IHw. rewrite remaining_advance_length. lia.
    + rewrite read_value_eq. cbn [bind].
      apply IHw. rewrite remaining_advance_length. lia.
Qed.

(** More fuel does not change an outcome that was reached. *)
Lemma read_nodes_fuel_mono (fuel : nat) :
  (forall fuel' length self,
      (fuel <= fuel')%nat ->
      _read_nodes_fuel fuel length self <> OutOfFuel ->
      _read_nodes_fuel fuel' length self = _read_nodes_fuel fuel length self)
  /\
  (forall fuel' length start items consumed self,
      (fuel <= fuel')%nat ->
      while_fuel fuel length start items consumed self <> OutOfFuel ->
      while_fuel fuel' length start items consumed self =
      while_fuel fuel length start items consumed self).
Proof.
  induction fuel as [|fuel [IHn IHw]]; split.
  - intros fuel' length self _ H. now contradiction H.
  - intros fuel' length start items consumed self _. cbn [while_fuel].
    destruct (Z.ltb_spec consumed length) as [?|Hge];
      [intros NF; now contradiction NF|].
    intros _. now apply while_fuel_done.
  - intros [|fuel'] length self Hle; [lia|]. cbn [_read_nodes_fuel].
    intros H. rewrite (IHw fuel') by
      (try lia; intros E; rewrite E in H; now apply H).
    reflexivity.
  - intros [|fuel'] length start items consumed self Hle; [lia|].
    cbn [while_fuel]. destruct (consumed <? length); [|reflexivity].
    destruct (_read_header self) as [[h self1]| |]; cbn [bind];
      try reflexivity.
    destruct (storage_type h).
    + intros H. rewrite (IHn fuel') by
        (try lia; intros E; rewrite E in H; now apply H).
      destruct (_read_nodes_fuel fuel _ self1) as [[childs self2]| |];
        cbn [bind] in *; try reflexivity.
      apply IHw; [lia | exact H].
    + rewrite read_value_eq. cbn [bind]. intros H. apply IHw; [lia | exact H].
Qed.

(** The only exceptions are those of the header decoder. *)
Lemma read_nodes_fuel_raises (fuel : nat) :
  (forall length self e,
      _read_nodes_fuel fuel length self = Raise e ->
      e = StructError \/ e = AssertionError)
  /\
  (forall length start items consumed self e,
      while_fuel fuel length start items consumed self = Raise e ->
      e = StructError \/ e = AssertionError).
Proof.
  induction fuel as [|fuel [IHn IHw]]; split.
  - discriminate.
  - intros length start items consumed self e. cbn [while_fuel].
    destruct (consumed <? length); discriminate.
  - intros length self e. cbn [_read_nodes_fuel].
    destruct (while_fuel fuel length _ [] 0 (add_nest 1 self))
      as [[items1 self1]| |] eqn:W; cbn [bind]; try discriminate.
    intros [= <-]. eapply IHw, W.
  - intros length start items consumed self e. cbn [while_fuel].
    destruct (consumed <? length); [|discriminate].
    destruct (_read_header self) as [[h self1]| |] eqn:RH;
      cbn [bind]; try discriminate.
    2:{ intros [= <-]. eapply read_header_raise, RH. }
    destruct (storage_type h).
    + destruct (_read_nodes_fuel fuel _ self1) as [[childs self2]| |] eqn:RN;
        cbn [bind]; try discriminate.
      * apply IHw.
      * intros [= <-]. eapply IHn, RN.
    + rewrite read_value_eq. cbn [bind]. apply IHw.
Qed.

(** *** Bytes before the cursor do not matter *)

Lemma remaining_shift (pre : list byte) (s : BytesIO) :
  remaining (shift_stream pre s) = remaining s.
Proof.
  unfold remaining, shift_stream; cbn [buf pos].
  rewrite skipn_app, skipn_all2 by lia.
  cbn [app]. f_equal. lia.
Qed.

Lemma read_shift (pre : list byte) (s : BytesIO) (size : Z) :
  read (shift_stream pre s) size =
  (fst (read s size), shift_stream pre (snd (read s size))).
Proof.
  unfold read. rewrite remaining_shift. cbn [fst snd].
  unfold shift_stream; cbn [buf pos]. now rewrite Nat.add_assoc.
Qed.

Lemma read_sized_shift (pre : list byte) (s : BytesIO) (size : Z) :
  utils.read_sized size (shift_stream pre s) =
  map_state (shift_stream pre) (utils.read_sized size s).
Proof.
  unfold utils.read_sized. rewrite read_shift.
  destruct (read s size) as [data s1]; cbn [fst snd].
  destruct (utils.unpack size data); reflexivity.
Qed.

Lemma with_stream_shift (pre : list byte) self (size : Z) :
  with_stream (utils.read_sized size) (shift pre self) =
  map_state (shift pre) (with_stream (utils.read_sized size) self).
Proof.
  unfold with_stream. cbn [_stream shift]. rewrite read_sized_shift.
  destruct (utils.read_sized size (_stream self)) as [[v s1]| |]; reflexivity.
Qed.

Lemma read_header_shift (pre : list byte) self :
  _read_header (shift pre self) = map_state (shift pre) (_read_header self).
Proof.
  unfold _read_header, utils.read_short, utils.read_int, utils.read_long_long.
  rewrite with_stream_shift.
  destruct (with_stream (utils.read_sized utils.SHORT_S) self)
    as [[v1 p1]| |]; cbn [bind map_state]; try reflexivity.
  rewrite with_stream_shift.
  destruct (with_stream (utils.read_sized utils.INT_S) p1)
    as [[v2 p2]| |]; cbn [bind map_state]; try reflexivity.
  destruct (v2 =? 0).
  - rewrite with_stream_shift.
    destruct (with_stream (utils.read_sized utils.LONG_LONG_S) p2)
      as [[v3 p3]| |]; cbn [bind map_state]; try reflexivity.
    destruct (v3 =? 0); cbn [bind map_state]; try reflexivity.
    destruct (v3 <? 0); reflexivity.
  - cbn [bind]. destruct (v2 <? 0); reflexivity.
Qed.

Lemma tell_shift (pre : list byte) self :
  tell (_stream (shift pre self)) =
  tell (_stream self) + Z.of_nat (List.length pre).
Proof. unfold tell, shift, shift_stream; cbn. lia. Qed.

Lemma shift_advance (pre : list byte) (n : nat) self :
  shift pre (advance n self) = advance n (shift pre self).
Proof.
  unfold shift, advance, shift_stream; cbn. now rewrite Nat.add_assoc.
Qed.

Lemma read_nodes_fuel_shift (pre : list byte) (fuel : nat) :
  (forall length self,
      _read_nodes_fuel fuel length (shift pre self) =
      map_state (shift pre) (_read_nodes_fuel fuel length self))
  /\
  (forall length start items consumed self,
      while_fuel fuel length (start + Z.of_nat (List.length pre)) items
                 consumed (shift pre self) =
      map_state (shift pre)
                (while_fuel fuel length start items consumed self)).
Proof.
  induction fuel as [|fuel [IHn IHw]]; split.
  - reflexivity.
  - intros length start items consumed self. cbn [while_fuel].
    destruct (consumed <? length); reflexivity.
  - intros length self. cbn [_read_nodes_fuel].
    change (add_nest 1 (shift pre self)) with (shift pre (add_nest 1 self)).
    rewrite tell_shift, IHw.
    destruct (while_fuel fuel length _ [] 0 (add_nest 1 self))
      as [[items1 self1]| |]; reflexivity.
  - intros length start items consumed self. cbn [while_fuel].
    destruct (consumed <? length); [|reflexivity].
    rewrite read_header_shift.
    destruct (_read_header self) as [[h self1]| |];
      cbn [bind map_state]; try reflexivity.
    destruct (storage_type h).
    + rewrite IHn.
      destruct (_read_nodes_fuel fuel _ self1) as [[childs self2]| |];
        cbn [bind map_state]; try reflexivity.
      rewrite tell_shift.
      replace (tell (_stream self2) + Z.of_nat (List.length pre)
               - (start + Z.of_nat (List.length pre)))
        with (tell (_stream self2) - start) by lia.
      apply IHw.
    + rewrite !read_value_eq. cbn [bind].
      cbn [_stream shift]. rewrite read_shift. cbn [fst].
      rewrite <- shift_advance, tell_shift.
      replace (tell (_stream (advance _ self1)) + Z.of_nat (List.length pre)
               - (start + Z.of_nat (List.length pre)))
        with (tell (_stream (advance
                (List.length (fst (read (_stream self1) (storage_parser.length h))))
                self1)) - start) by lia.
      apply IHw.
Qed.

End Builder.

(** ** [_read_nodes] without fuel *)

Section WithoutFuel.

Implicit Types (self : StorageParser) (h : StorageHeader)
               (items childs : ListOfStorages).

Lemma read_nodes_fuel_irrelevant (fuel : nat) (length : Z) self :
  (List.length (remaining (_stream self)) + 2 <= fuel)%nat ->
  _read_nodes_fuel fuel length self = _read_nodes length self.
Proof.
  intros Hf. unfold _read_nodes, enough_fuel.
  apply (proj1 (read_nodes_fuel_mono _)); [exact Hf|].
  apply (proj1 (read_nodes_fuel_enough _)). lia.
Qed.

Lemma while_fuel_irrelevant (fuel : nat) (length start consumed : Z) items self :
  (List.length (remaining (_stream self)) + 1 <= fuel)%nat ->
  while_fuel fuel length start items consumed self =
  read_nodes_loop length start items consumed self.
Proof.
  intros Hf. unfold read_nodes_loop.
  apply (proj2 (read_nodes_fuel_mono _)); [exact Hf|].
  apply (proj2 (read_nodes_fuel_enough _)). lia.
Qed.

(** The model of [_read_nodes] always has an outcome of the program: a
    result or an exception. *)
Lemma read_nodes_total (length : Z) self :
  _read_nodes length self <> OutOfFuel.
Proof.
  unfold _read_nodes, enough_fuel.
  apply (proj1 (read_nodes_fuel_enough _)). lia.
Qed.

Lemma read_nodes_returns (length : Z) self items self' :
  _read_nodes length self = Return (items, self') ->
  exists n, advanced_by n self self' /\
    ((length <= 0 /\ n = 0%nat /\ items = []) \/ (0 < length <= Z.of_nat n)).
Proof. apply (proj1 (read_nodes_fuel_returns _)). Qed.

Lemma read_nodes_raises (length : Z) self (e : exception) :
  _read_nodes length self = Raise e -> e = StructError \/ e = AssertionError.
Proof. apply (proj1 (read_nodes_fuel_raises _)). Qed.

(** The body of [_read_nodes]. *)
Lemma read_nodes_eq (length : Z) self :
  _read_nodes length self =
  ('(items, self') <-
      read_nodes_loop length (tell (_stream self)) [] 0 (add_nest 1 self) ;;
   Return (items, add_nest (-1) self')).
Proof.
  unfold _read_nodes, enough_fuel.
  replace (List.length (remaining (_stream self)) + 2)%nat
    with (S (List.length (remaining (_stream self)) + 1)) by lia.
  reflexivity.
Qed.

(** One turn of the [while] loop. *)
Lemma read_nodes_loop_eq (length start consumed : Z) items self :
  read_nodes_loop length start items consumed self =
  if consumed <? length then
    '(header, self) <- _read_header self ;;
    '(item, self) <-
        match storage_type header with
        | CONTAINER =>
            '(childs, self) <- _read_nodes (storage_parser.length header) self ;;
            Return (StorageContainer header (_nest self) childs, self)
        | VALUE =>
            '(value, self) <- _read_value (storage_parser.length header) self ;;
            Return (StorageValue header (_nest self) value, self)
        end ;;
    read_nodes_loop length start (items ++ [item])
                    (tell (_stream self) - start) self
  else Return (items, self).
Proof.
  unfold read_nodes_loop at 1. rewrite Nat.add_1_r. cbn [while_fuel].
  destruct (consumed <? length); [|reflexivity].
  destruct (_read_header self) as [[h self1]| |] eqn:RH;
    cbn [bind]; try reflexivity.
  apply read_header_advanced in RH. destruct RH as [Hh ->].
  pose proof (header_size_min h) as H6.
  pose proof (remaining_advance_length (header_size h) self) as Hrem.
  destruct (storage_type h).
  - rewrite read_nodes_fuel_irrelevant by lia.
    destruct (_read_nodes _ _) as [[childs self2]| |] eqn:RN;
      cbn [bind]; try reflexivity.
    apply read_nodes_returns in RN. destruct RN as (m & [Hm ->] & _).
    apply while_fuel_irrelevant. rewrite remaining_advance_length. lia.
  - rewrite read_value_eq. cbn [bind].
    apply while_fuel_irrelevant. rewrite remaining_advance_length. lia.
Qed.

Lemma read_nodes_loop_done (length start consumed : Z) items self :
  length <= consumed ->
  read_nodes_loop length start items consumed self = Return (items, self).
Proof. apply while_fuel_done. Qed.

Lemma read_nodes_shift (pre : list byte) (length : Z) self :
  _read_nodes length (shift pre self) =
  map_state (shift pre) (_read_nodes length self).
Proof.
  unfold _read_nodes, enough_fuel. cbn [_stream shift].
  rewrite remaining_shift. apply (proj1 (read_nodes_fuel_shift _ _)).
Qed.

(** [parse] is [_read_nodes] over the whole buffer, from its start. *)
Lemma parse_eq (ba : list byte) self :
  parse ba self =
  _read_nodes (Z.of_nat (List.length ba))
              (mkStorageParser (mkBytesIO ba 0) (_nest self)).
Proof. reflexivity. Qed.

End WithoutFuel.

(** * The decoder against its specification *)

Section HeaderClaims.

Import utils.

(** C1. A container header carries the length field with its sign bit
    cleared inside the width of the field that was read: the magnitude is
    [raw & (2^(w-1) - 1)] with [w = 32] for a normal header and [w = 64] for
    an extended one, and [unset_sign_bit] computes that mask for any width.
    The 32-bit field [-2^31] (bytes 00 00 00 80) gives a container of
    magnitude [0], its pattern without the sign bit, so the payload length is
    [0 - 6]; negation would have given [2^31]. *)
Theorem C1_sign_bit_cleared_in_width :
  (forall number length : Z,
      0 < length ->
      unset_sign_bit number length = Z.land number (2 ^ (length * 8 - 1) - 1))
  /\
  (forall (self : StorageParser) (idb lenb tl : list byte),
      remaining (_stream self) = idb ++ lenb ++ tl ->
      List.length idb = 2%nat -> List.length lenb = 4%nat ->
      to_signed 32 (from_bytes_le lenb) < 0 ->
      _read_header self =
      Return (mkStorageHeader
                (to_signed 16 (from_bytes_le idb))
                (Z.land (to_signed 32 (from_bytes_le lenb)) (2 ^ 31 - 1) - 6)
                CONTAINER false,
              advance 6 self))
  /\
  (forall (self : StorageParser) (idb lenb extb tl : list byte),
      remaining (_stream self) = idb ++ lenb ++ extb ++ tl ->
      List.length idb = 2%nat -> List.length lenb = 4%nat ->
      List.length extb = 8%nat ->
      to_signed 32 (from_bytes_le lenb) = 0 ->
      to_signed 64 (from_bytes_le extb) < 0 ->
      _read_header self =
      Return (mkStorageHeader
                (to_signed 16 (from_bytes_le idb))
                (Z.land (to_signed 64 (from_bytes_le extb)) (2 ^ 63 - 1) - 14)
                CONTAINER true,
              advance 14 self))
  /\
  (forall (self : StorageParser) (idb tl : list byte),
      remaining (_stream self) = idb ++ [x00; x00; x00; x80] ++ tl ->
      List.length idb = 2%nat ->
      to_signed 32 (from_bytes_le [x00; x00; x00; x80]) = - 2 ^ 31 /\
      Z.land (- 2 ^ 31) (2 ^ 31 - 1) = 0 /\
      _read_header self =
      Return (mkStorageHeader (to_signed 16 (from_bytes_le idb)) (0 - 6)
                CONTAINER false,
              advance 6 self)).
Proof.
  split; [|split; [|split]].
  - intros number length Hl. rewrite unset_sign_bit_land by assumption.
    rewrite Z.ones_equiv. reflexivity.
  - intros self idb lenb tl E Hi Hl Hneg.
    rewrite (read_header_normal _ _ _ _ E Hi Hl) by lia.
    unfold header_of. rewrite (proj2 (Z.ltb_lt _ _) Hneg).
    rewrite unset_sign_bit_land by lia. reflexivity.
  - intros self idb lenb extb tl E Hi Hl He Hz Hneg.
    rewrite (read_header_extended _ _ _ _ _ E Hi Hl He Hz) by lia.
    unfold header_of. rewrite (proj2 (Z.ltb_lt _ _) Hneg).
    rewrite unset_sign_bit_land by lia. reflexivity.
  - intros self idb tl E Hi. split; [reflexivity|]. split; [reflexivity|].
    rewrite (read_header_normal _ _ _ _ E Hi eq_refl) by discriminate.
    reflexivity.
Qed.

Lemma C1_witness :
  _read_header
    (mkStorageParser (mkBytesIO [x02; x00; x00; x00; x00; x80] 0) 0) =
  Return (mkStorageHeader 2 (-6) CONTAINER false,
          mkStorageParser (mkBytesIO [x02; x00; x00; x00; x00; x80] 6) 0)
  /\ unset_sign_bit (-1) 4 = 2147483647.
Proof.
  destruct C1_sign_bit_cleared_in_width as (Hmask & Hnormal & _ & _).
  split.
  - apply (Hnormal
             (mkStorageParser (mkBytesIO [x02; x00; x00; x00; x00; x80] 0) 0)
             [x02; x00] [x00; x00; x00; x80] []);
      reflexivity.
  - apply (Hmask (-1) 4). reflexivity.
Defined.

(** C2. A header whose 32-bit length field is zero takes its length from
    the next eight bytes read as a signed 64-bit integer; when that is not
    zero the header is extended and occupies 14 bytes, and when it is
    negative the header is a container whose payload length is the 64-bit
    value without its sign bit, minus 14. *)
Theorem C2_extended_header :
  forall (self : StorageParser) (idb lenb extb tl : list byte),
    remaining (_stream self) = idb ++ lenb ++ extb ++ tl ->
    List.length idb = 2%nat -> List.length lenb = 4%nat ->
    List.length extb = 8%nat ->
    to_signed 32 (from_bytes_le lenb) = 0 ->
    to_signed 64 (from_bytes_le extb) <> 0 ->
    exists h : StorageHeader,
      _read_header self = Return (h, advance 14 self) /\
      extended h = true /\
      idn h = to_signed 16 (from_bytes_le idb) /\
      (to_signed 64 (from_bytes_le extb) < 0 ->
         storage_type h = CONTAINER /\
         storage_parser.length h =
           Z.land (to_signed 64 (from_bytes_le extb)) (2 ^ 63 - 1) - 14) /\
      (0 < to_signed 64 (from_bytes_le extb) ->
         storage_type h = VALUE /\
         storage_parser.length h = to_signed 64 (from_bytes_le extb) - 14).
Proof.
  intros self idb lenb extb tl E Hi Hl He Hz Hnz.
  eexists. split; [apply (read_header_extended _ _ _ _ _ E Hi Hl He Hz Hnz)|].
  unfold header_of; cbn [extended idn storage_type storage_parser.length].
  split; [reflexivity|]. split; [reflexivity|]. split.
  - intros Hneg. rewrite (proj2 (Z.ltb_lt _ _) Hneg).
    rewrite unset_sign_bit_land by lia. split; reflexivity.
  - intros Hpos. rewrite (proj2 (Z.ltb_ge _ _) (Z.lt_le_incl _ _ Hpos)).
    split; reflexivity.
Qed.

Lemma C2_witness :
  exists h : StorageHeader,
    _read_header
      (mkStorageParser
         (mkBytesIO [x02; x00; x00; x00; x00; x00;
                     x16; x00; x00; x00; x00; x00; x00; x80] 0) 0) =
    Return (h, mkStorageParser
                 (mkBytesIO [x02; x00; x00; x00; x00; x00;
                             x16; x00; x00; x00; x00; x00; x00; x80] 14) 0) /\
    extended h = true /\ storage_type h = CONTAINER /\
    storage_parser.length h = 8.
Proof.
  destruct (C2_extended_header
              (mkStorageParser
                 (mkBytesIO [x02; x00; x00; x00; x00; x00;
                             x16; x00; x00; x00; x00; x00; x00; x80] 0) 0)
              [x02; x00] [x00; x00; x00; x00]
              [x16; x00; x00; x00; x00; x00; x00; x80] []
              eq_refl eq_refl eq_refl eq_refl eq_refl ltac:(discriminate))
    as (h & R & Hext & _ & Hneg & _).
  exists h. destruct (Hneg eq_refl) as [Ht Hlen].
  repeat split; assumption.
Defined.

(** C4, as stated, fails: the header [id = 1], [length = 2] is shorter than
    its own six bytes, and the decoder returns it with payload length [-4];
    so it is not true that every returned header has a non-negative payload
    length. *)
Lemma C4_counterexample :
  _read_header
    (mkStorageParser (mkBytesIO [x01; x00; x02; x00; x00; x00] 0) 0) =
  Return (mkStorageHeader 1 (-4) VALUE false,
          mkStorageParser (mkBytesIO [x01; x00; x02; x00; x00; x00] 6) 0)
  /\
  ~ (forall (self self' : StorageParser) (h : StorageHeader),
        _read_header self = Return (h, self') ->
        0 <= storage_parser.length h).
Proof.
  split; [reflexivity|].
  intros H.
  specialize (H (mkStorageParser (mkBytesIO [x01; x00; x02; x00; x00; x00] 0) 0)
                (mkStorageParser (mkBytesIO [x01; x00; x02; x00; x00; x00] 6) 0)
                (mkStorageHeader 1 (-4) VALUE false) eq_refl).
  cbn [storage_parser.length] in H. lia.
Qed.

(** C4, amended. Header decoding has no check on the adjusted length: for
    a readable header whose length field is not zero (for an extended one,
    whose 64-bit length field is not zero) it returns the header with
    payload length equal to the magnitude minus the header size, 6 or 14,
    and that is negative whenever the magnitude is smaller than the header
    size. *)
Theorem C4_negative_payload_length_is_returned :
  (forall (self : StorageParser) (idb lenb tl : list byte),
      remaining (_stream self) = idb ++ lenb ++ tl ->
      List.length idb = 2%nat -> List.length lenb = 4%nat ->
      to_signed 32 (from_bytes_le lenb) <> 0 ->
      exists h : StorageHeader,
        _read_header self = Return (h, advance 6 self) /\
        extended h = false /\
        storage_parser.length h =
          (if to_signed 32 (from_bytes_le lenb) <? 0
           then Z.land (to_signed 32 (from_bytes_le lenb)) (2 ^ 31 - 1)
           else to_signed 32 (from_bytes_le lenb)) - 6)
  /\
  (forall (self : StorageParser) (idb lenb extb tl : list byte),
      remaining (_stream self) = idb ++ lenb ++ extb ++ tl ->
      List.length idb = 2%nat -> List.length lenb = 4%nat ->
      List.length extb = 8%nat ->
      to_signed 32 (from_bytes_le lenb) = 0 ->
      to_signed 64 (from_bytes_le extb) <> 0 ->
      exists h : StorageHeader,
        _read_header self = Return (h, advance 14 self) /\
        extended h = true /\
        storage_parser.length h =
          (if to_signed 64 (from_bytes_le extb) <? 0
           then Z.land (to_signed 64 (from_bytes_le extb)) (2 ^ 63 - 1)
           else to_signed 64 (from_bytes_le extb)) - 14).
Proof.
  split.
  - intros self idb lenb tl E Hi Hl Hnz.
    eexists. split; [apply (read_header_normal _ _ _ _ E Hi Hl Hnz)|].
    unfold header_of; cbn [extended storage_parser.length].
    split; [reflexivity|].
    rewrite unset_sign_bit_land by lia. reflexivity.
  - intros self idb lenb extb tl E Hi Hl He Hz Hnz.
    eexists. split; [apply (read_header_extended _ _ _ _ _ E Hi Hl He Hz Hnz)|].
    unfold header_of; cbn [extended storage_parser.length].
    split; [reflexivity|].
    rewrite unset_sign_bit_land by lia. reflexivity.
Qed.

Lemma C4_witness :
  exists h : StorageHeader,
    _read_header
      (mkStorageParser (mkBytesIO [x01; x00; x02; x00; x00; x00] 0) 0) =
    Return (h, mkStorageParser (mkBytesIO [x01; x00; x02; x00; x00; x00] 6) 0)
    /\ storage_parser.length h = -4.
Proof.
  destruct (proj1 C4_negative_payload_length_is_returned
              (mkStorageParser (mkBytesIO [x01; x00; x02; x00; x00; x00] 0) 0)
              [x01; x00] [x02; x00; x00; x00] []
              eq_refl eq_refl eq_refl ltac:(discriminate))
    as (h & R & _ & Hlen).
  exists h. split; assumption.
Defined.

(** C7. A header whose 32-bit length field is zero and whose 64-bit length
    field is zero as well is refused: the assertion of [_read_header] fails,
    and with it every [_read_nodes] that reaches the header with a positive
    budget and every [parse] of a buffer that starts with it. *)
Theorem C7_zero_extended_length_fails :
  forall (self : StorageParser) (idb lenb extb tl : list byte),
    remaining (_stream self) = idb ++ lenb ++ extb ++ tl ->
    List.length idb = 2%nat -> List.length lenb = 4%nat ->
    List.length extb = 8%nat ->
    to_signed 32 (from_bytes_le lenb) = 0 ->
    to_signed 64 (from_bytes_le extb) = 0 ->
    _read_header self = Raise AssertionError /\
    (forall length : Z,
        0 < length -> _read_nodes length self = Raise AssertionError) /\
    (forall before : StorageParser,
        parse (idb ++ lenb ++ extb ++ tl) before = Raise AssertionError).
Proof.
  intros self idb lenb extb tl E Hi Hl He Hz Hz'.
  assert (Hnodes : forall (p : StorageParser) (length : Z),
             remaining (_stream p) = idb ++ lenb ++ extb ++ tl ->
             0 < length -> _read_nodes length p = Raise AssertionError).
  { intros p length Ep Hpos.
    rewrite read_nodes_eq, read_nodes_loop_eq.
    rewrite (proj2 (Z.ltb_lt _ _) Hpos).
    rewrite (read_header_zero (add_nest 1 p) idb lenb extb tl)
      by assumption.
    reflexivity. }
  split; [now apply (read_header_zero _ idb lenb extb tl)|].
  split; [intros length; now apply Hnodes|].
  intros before. rewrite parse_eq. apply Hnodes; [reflexivity|].
  rewrite !length_app, Hi. lia.
Qed.

Lemma C7_witness :
  parse [x02; x00; x00; x00; x00; x00;
         x00; x00; x00; x00; x00; x00; x00; x00; x41; x42] new_parser =
  Raise AssertionError.
Proof.
  apply (C7_zero_extended_length_fails
           (mkStorageParser
              (mkBytesIO [x02; x00; x00; x00; x00; x00;
                          x00; x00; x00; x00; x00; x00; x00; x00; x41; x42] 0) 0)
           [x02; x00] [x00; x00; x00; x00]
           [x00; x00; x00; x00; x00; x00; x00; x00] [x41; x42]
           eq_refl eq_refl eq_refl eq_refl eq_refl eq_refl).
Defined.

End HeaderClaims.

(** ** Single chunks *)

Section Chunks.

Import utils.

Implicit Types (self : StorageParser) (h : StorageHeader).

(** A read that asks for everything, or for more than there is, returns
    what remains. *)
Lemma read_to_end (s : BytesIO) (size : Z) :
  size < 0 \/ Z.of_nat (List.length (remaining s)) <= size ->
  fst (read s size) = remaining s.
Proof.
  intros H. rewrite read_data.
  destruct (Z.ltb_spec size 0) as [Hneg|Hpos].
  - apply firstn_all.
  - rewrite Nat.min_r by lia. apply firstn_all.
Qed.

Lemma leave_nest (n : nat) self :
  add_nest (-1) (advance n (add_nest 1 self)) = advance n self.
Proof.
  rewrite advance_add_nest, add_nest_add_nest. apply add_nest_0.
Qed.

(** Fewer than six bytes are no header. *)
Lemma read_header_short self :
  (List.length (remaining (_stream self)) < 6)%nat ->
  _read_header self = Raise StructError.
Proof.
  intros Hlt. unfold _read_header, read_short, read_int.
  destruct (with_stream (read_sized SHORT_S) self) as [[v1 p1]|e|] eqn:R1;
    cbn [bind].
  - destruct (with_stream_inv SHORT_S _ _ _ ltac:(unfold SHORT_S; lia) R1)
      as (idb & E1 & L1 & _ & _).
    apply (f_equal (@List.length byte)) in E1. rewrite length_app in E1.
    unfold SHORT_S in L1.
    unfold with_stream. rewrite read_sized_short by (unfold INT_S; lia).
    reflexivity.
  - now rewrite (with_stream_raise _ _ _ R1).
  - now apply with_stream_fuel in R1.
Qed.

(** A buffer made of one value header and what follows it, when the header
    asks for all of it, for more, or for a negative number of bytes. *)
Lemma parse_one_value (before : StorageParser) (hdr payload : list byte) h :
  let start_ := mkStorageParser (mkBytesIO (hdr ++ payload) 0)
                                (_nest before + 1) in
  _read_header start_ = Return (h, advance (List.length hdr) start_) ->
  storage_type h = VALUE ->
  (0 < List.length hdr)%nat ->
  storage_parser.length h < 0 \/
    Z.of_nat (List.length payload) <= storage_parser.length h ->
  parse (hdr ++ payload) before =
  Return ([StorageValue h (_nest before + 1) payload],
          mkStorageParser
            (mkBytesIO (hdr ++ payload) (List.length hdr + List.length payload))
            (_nest before)).
Proof.
  intros start_ RH Ht Hhdr Hlen.
  rewrite parse_eq, read_nodes_eq, read_nodes_loop_eq.
  assert (Hpos : 0 < Z.of_nat (List.length (hdr ++ payload)))
    by (rewrite length_app; lia).
  rewrite (proj2 (Z.ltb_lt _ _) Hpos).
  change (add_nest 1 (mkStorageParser (mkBytesIO (hdr ++ payload) 0)
                                     (_nest before)))
    with start_.
  rewrite RH. cbn [bind]. rewrite Ht, read_value_eq. cbn [bind].
  assert (Erem : remaining (_stream (advance (List.length hdr) start_)) = payload)
    by (apply remaining_advance_self; reflexivity).
  rewrite read_to_end by (rewrite Erem; exact Hlen).
  rewrite Erem, advance_advance.
  rewrite read_nodes_loop_done
    by (rewrite tell_advance, length_app; cbn; lia).
  cbn [bind app]. unfold start_.
  change (mkStorageParser (mkBytesIO (hdr ++ payload) 0) (_nest before + 1))
    with (add_nest 1 (mkStorageParser (mkBytesIO (hdr ++ payload) 0)
                                      (_nest before))).
  rewrite leave_nest. reflexivity.
Qed.

(** A buffer made of one container header and the bytes of its children,
    when the header gives exactly their number and they decode on their
    own. *)
Lemma parse_one_container (before : StorageParser) (hdr cs : list byte) h
                          (childs : ListOfStorages) (after : StorageParser) :
  let start_ := mkStorageParser (mkBytesIO (hdr ++ cs) 0)
                                (_nest before + 1) in
  _read_header start_ = Return (h, advance (List.length hdr) start_) ->
  storage_type h = CONTAINER ->
  (0 < List.length hdr)%nat ->
  storage_parser.length h = Z.of_nat (List.length cs) ->
  parse cs (add_nest 1 before) = Return (childs, after) ->
  parse (hdr ++ cs) before =
  Return ([StorageContainer h (_nest before + 1) childs],
          mkStorageParser
            (mkBytesIO (hdr ++ cs) (List.length hdr + List.length cs))
            (_nest before)).
Proof.
  intros start_ RH Ht Hhdr Hlen Hcs.
  rewrite parse_eq in Hcs. cbn [_nest add_nest] in Hcs.
  destruct (read_nodes_returns _ _ _ _ Hcs) as (n & [Hn ->] & Hbudget).
  assert (En : n = List.length cs).
  { change (remaining _) with cs in Hn.
    destruct Hbudget as [(? & ? & _)|?]; lia. }
  rewrite parse_eq, read_nodes_eq, read_nodes_loop_eq.
  assert (Hpos : 0 < Z.of_nat (List.length (hdr ++ cs)))
    by (rewrite length_app; lia).
  rewrite (proj2 (Z.ltb_lt _ _) Hpos).
  change (add_nest 1 (mkStorageParser (mkBytesIO (hdr ++ cs) 0) (_nest before)))
    with start_.
  rewrite RH. cbn [bind]. rewrite Ht, Hlen.
  replace (advance (List.length hdr) start_)
    with (shift hdr (mkStorageParser (mkBytesIO cs 0) (_nest before + 1)))
    by (unfold shift, shift_stream, advance, start_; cbn;
        now rewrite Nat.add_0_r).
  rewrite read_nodes_shift, Hcs. cbn [map_state bind].
  rewrite read_nodes_loop_done
    by (rewrite tell_shift, tell_advance, length_app; cbn; lia).
  cbn [bind app]. subst n.
  unfold add_nest, shift, shift_stream, advance.
  cbn [_stream _nest buf pos Nat.add].
  replace (_nest before + 1 + -1) with (_nest before) by lia.
  reflexivity.
Qed.

End Chunks.

Section BuilderClaims.

Import utils.

(** C5. A buffer that holds one value header for a payload of [L] bytes
    (length field [6 + L], or zero followed by the 64-bit length [14 + L])
    and then exactly [L] bytes decodes to one value node whose header has
    payload length [L] and whose bytes are the payload.  Scenario A, the
    bytes 01 00 08 00 00 00 "AB", decodes to one value node with identifier
    1, payload length 2 and bytes "AB". *)
Theorem C5_value_chunk_decodes :
  (forall (before : StorageParser) (idb lenb payload : list byte),
      List.length idb = 2%nat -> List.length lenb = 4%nat ->
      to_signed 32 (from_bytes_le lenb) = 6 + Z.of_nat (List.length payload) ->
      parse (idb ++ lenb ++ payload) before =
      Return ([StorageValue
                 (mkStorageHeader (to_signed 16 (from_bytes_le idb))
                                  (Z.of_nat (List.length payload)) VALUE false)
                 (_nest before + 1) payload],
              mkStorageParser
                (mkBytesIO (idb ++ lenb ++ payload) (6 + List.length payload))
                (_nest before)))
  /\
  (forall (before : StorageParser) (idb lenb extb payload : list byte),
      List.length idb = 2%nat -> List.length lenb = 4%nat ->
      List.length extb = 8%nat ->
      to_signed 32 (from_bytes_le lenb) = 0 ->
      to_signed 64 (from_bytes_le extb) = 14 + Z.of_nat (List.length payload) ->
      parse (idb ++ lenb ++ extb ++ payload) before =
      Return ([StorageValue
                 (mkStorageHeader (to_signed 16 (from_bytes_le idb))
                                  (Z.of_nat (List.length payload)) VALUE true)
                 (_nest before + 1) payload],
              mkStorageParser
                (mkBytesIO (idb ++ lenb ++ extb ++ payload)
                           (14 + List.length payload))
                (_nest before)))
  /\
  parse scenario_A new_parser =
  Return ([StorageValue (mkStorageHeader 1 2 VALUE false) 1 [x41; x42]],
          mkStorageParser (mkBytesIO scenario_A 8) 0).
Proof.
  split; [|split].
  - intros before idb lenb payload Hi Hl Hraw.
    pose proof (parse_one_value before (idb ++ lenb) payload
      (header_of (to_signed 16 (from_bytes_le idb))
                 (to_signed 32 (from_bytes_le lenb)) 4 6 false)) as P.
    cbv zeta in P. rewrite length_app, Hi, Hl, <- app_assoc in P.
    rewrite P; clear P.
    + unfold header_of. rewrite Hraw.
      rewrite (proj2 (Z.ltb_ge _ _)) by lia.
      replace (6 + Z.of_nat (List.length payload) - 6)
        with (Z.of_nat (List.length payload)) by lia.
      reflexivity.
    + apply (read_header_normal _ idb lenb payload); try assumption.
      * reflexivity.
      * lia.
    + unfold header_of. rewrite Hraw.
      now rewrite (proj2 (Z.ltb_ge _ _)) by lia.
    + cbn; lia.
    + right. unfold header_of; cbn [storage_parser.length]. rewrite Hraw.
      rewrite (proj2 (Z.ltb_ge _ _)) by lia. lia.
  - intros before idb lenb extb payload Hi Hl He Hz Hraw.
    pose proof (parse_one_value before (idb ++ lenb ++ extb) payload
      (header_of (to_signed 16 (from_bytes_le idb))
                 (to_signed 64 (from_bytes_le extb)) 8 14 true)) as P.
    cbv zeta in P. rewrite !length_app, Hi, Hl, He in P.
    replace ((idb ++ lenb ++ extb) ++ payload)
      with (idb ++ lenb ++ extb ++ payload) in P
      by (now rewrite <- !app_assoc).
    rewrite P; clear P.
    + unfold header_of. rewrite Hraw.
      rewrite (proj2 (Z.ltb_ge _ _)) by lia.
      replace (14 + Z.of_nat (List.length payload) - 14)
        with (Z.of_nat (List.length payload)) by lia.
      reflexivity.
    + apply (read_header_extended _ idb lenb extb payload); try assumption.
      * reflexivity.
      * lia.
    + unfold header_of. rewrite Hraw.
      now rewrite (proj2 (Z.ltb_ge _ _)) by lia.
    + cbn; lia.
    + right. unfold header_of; cbn [storage_parser.length]. rewrite Hraw.
      rewrite (proj2 (Z.ltb_ge _ _)) by lia. lia.
  - reflexivity.
Qed.

Lemma C5_witness :
  parse ([x07; x00] ++ [x09; x00; x00; x00] ++ [x41; x42; x43]) new_parser =
  Return ([StorageValue (mkStorageHeader 7 3 VALUE false) 1 [x41; x42; x43]],
          mkStorageParser
            (mkBytesIO ([x07; x00] ++ [x09; x00; x00; x00] ++ [x41; x42; x43]) 9)
            0).
Proof.
  apply (proj1 C5_value_chunk_decodes new_parser
           [x07; x00] [x09; x00; x00; x00] [x41; x42; x43]);
    reflexivity.
Defined.

(** C9. A payload read that asks for more bytes than remain raises
    nothing and returns the bytes that remain; a buffer whose only header
    declares more payload than follows it decodes to one value node whose
    bytes are shorter than its header's payload length. *)
Theorem C9_short_payload_is_returned :
  (forall (length : Z) (self : StorageParser),
      Z.of_nat (List.length (remaining (_stream self))) < length ->
      _read_value length self =
      Return (remaining (_stream self),
              advance (List.length (remaining (_stream self))) self))
  /\
  (forall (before : StorageParser) (idb lenb payload : list byte),
      List.length idb = 2%nat -> List.length lenb = 4%nat ->
      6 + Z.of_nat (List.length payload) < to_signed 32 (from_bytes_le lenb) ->
      parse (idb ++ lenb ++ payload) before =
      Return ([StorageValue
                 (mkStorageHeader (to_signed 16 (from_bytes_le idb))
                                  (to_signed 32 (from_bytes_le lenb) - 6)
                                  VALUE false)
                 (_nest before + 1) payload],
              mkStorageParser
                (mkBytesIO (idb ++ lenb ++ payload) (6 + List.length payload))
                (_nest before))
      /\ Z.of_nat (List.length payload) < to_signed 32 (from_bytes_le lenb) - 6).
Proof.
  split.
  - intros length self Hlt. rewrite read_value_eq.
    rewrite read_to_end by lia. reflexivity.
  - intros before idb lenb payload Hi Hl Hraw. split; [|lia].
    pose proof (parse_one_value before (idb ++ lenb) payload
      (header_of (to_signed 16 (from_bytes_le idb))
                 (to_signed 32 (from_bytes_le lenb)) 4 6 false)) as P.
    cbv zeta in P. rewrite length_app, Hi, Hl, <- app_assoc in P.
    assert (Hnn : (to_signed 32 (from_bytes_le lenb) <? 0) = false)
      by (apply Z.ltb_ge; lia).
    rewrite P; clear P.
    + unfold header_of. now rewrite Hnn.
    + apply (read_header_normal _ idb lenb payload); try assumption.
      * reflexivity.
      * lia.
    + unfold header_of. now rewrite Hnn.
    + cbn; lia.
    + right. unfold header_of; cbn [storage_parser.length]. rewrite Hnn. lia.
Qed.

Lemma C9_witness :
  parse ([x01; x00] ++ [x6a; x00; x00; x00] ++ [x41; x42]) new_parser =
  Return ([StorageValue (mkStorageHeader 1 100 VALUE false) 1 [x41; x42]],
          mkStorageParser
            (mkBytesIO ([x01; x00] ++ [x6a; x00; x00; x00] ++ [x41; x42]) 8) 0)
  /\ 2 < 100.
Proof.
  apply (proj2 C9_short_payload_is_returned new_parser
           [x01; x00] [x6a; x00; x00; x00] [x41; x42]);
    reflexivity.
Defined.

(** C10. With a negative payload length, the payload read of a value
    returns every byte that remains, and [_read_nodes] returns no children
    and leaves the parser as it was.  A buffer that starts with a value
    header of magnitude below six decodes to one value node holding the
    whole rest of the buffer; after a container header of magnitude zero
    (payload length [-6]) the children are empty and decoding goes on with
    the next sibling. *)
Theorem C10_negative_payload_length :
  (forall (length : Z) (self : StorageParser),
      length < 0 ->
      _read_value length self =
      Return (remaining (_stream self),
              advance (List.length (remaining (_stream self))) self))
  /\
  (forall (length : Z) (self : StorageParser),
      length < 0 -> _read_nodes length self = Return ([], self))
  /\
  (forall (before : StorageParser) (idb lenb rest : list byte),
      List.length idb = 2%nat -> List.length lenb = 4%nat ->
      0 < to_signed 32 (from_bytes_le lenb) < 6 ->
      parse (idb ++ lenb ++ rest) before =
      Return ([StorageValue
                 (mkStorageHeader (to_signed 16 (from_bytes_le idb))
                                  (to_signed 32 (from_bytes_le lenb) - 6)
                                  VALUE false)
                 (_nest before + 1) rest],
              mkStorageParser
                (mkBytesIO (idb ++ lenb ++ rest) (6 + List.length rest))
                (_nest before)))
  /\
  parse ([x02; x00; x00; x00; x00; x80] ++ scenario_A) new_parser =
  Return ([StorageContainer (mkStorageHeader 2 (-6) CONTAINER false) 1 [];
           StorageValue (mkStorageHeader 1 2 VALUE false) 1 [x41; x42]],
          mkStorageParser
            (mkBytesIO ([x02; x00; x00; x00; x00; x80] ++ scenario_A) 14) 0).
Proof.
  split; [|split; [|split]].
  - intros length self Hneg. rewrite read_value_eq.
    rewrite read_to_end by lia. reflexivity.
  - intros length self Hneg.
    rewrite read_nodes_eq, read_nodes_loop_done by lia.
    cbn [bind]. now rewrite add_nest_add_nest, add_nest_0.
  - intros before idb lenb rest Hi Hl Hraw.
    pose proof (parse_one_value before (idb ++ lenb) rest
      (header_of (to_signed 16 (from_bytes_le idb))
                 (to_signed 32 (from_bytes_le lenb)) 4 6 false)) as P.
    cbv zeta in P. rewrite length_app, Hi, Hl, <- app_assoc in P.
    assert (Hnn : (to_signed 32 (from_bytes_le lenb) <? 0) = false)
      by (apply Z.ltb_ge; lia).
    rewrite P; clear P.
    + unfold header_of. now rewrite Hnn.
    + apply (read_header_normal _ idb lenb rest); try assumption.
      * reflexivity.
      * lia.
    + unfold header_of. now rewrite Hnn.
    + cbn; lia.
    + left. unfold header_of; cbn [storage_parser.length]. rewrite Hnn. lia.
  - reflexivity.
Qed.

Lemma C10_witness :
  parse ([x01; x00] ++ [x02; x00; x00; x00] ++ [x41; x42; x43; x44]) new_parser =
  Return ([StorageValue (mkStorageHeader 1 (-4) VALUE false) 1
             [x41; x42; x43; x44]],
          mkStorageParser
            (mkBytesIO
               ([x01; x00] ++ [x02; x00; x00; x00] ++ [x41; x42; x43; x44]) 10)
            0)
  /\ _read_nodes (-6) new_parser = Return ([], new_parser).
Proof.
  destruct C10_negative_payload_length as (_ & Hnodes & Hvalue & _).
  split.
  - apply (Hvalue new_parser [x01; x00] [x02; x00; x00; x00]
                  [x41; x42; x43; x44]);
      try reflexivity. split; reflexivity.
  - apply (Hnodes (-6) new_parser). reflexivity.
Defined.

(** C6, as stated, fails on its own example: with the length field
    written as the negated total [-(6+8)] (bytes F2 FF FF FF), clearing the
    sign bit leaves [2^31 - 14], the header asks for [2^31 - 20] bytes of
    children, and after the one child that is there the next header read
    raises [struct.error]. *)
Lemma C6_counterexample :
  _read_header (mkStorageParser (mkBytesIO scenario_B_negated 0) 0) =
  Return (mkStorageHeader 2 2147483628 CONTAINER false,
          mkStorageParser (mkBytesIO scenario_B_negated 6) 0)
  /\
  parse scenario_B_negated new_parser = Raise StructError.
Proof. split; reflexivity. Qed.

(** C6, amended. When the length field of a container header is the total
    with the sign bit set, that is the 32-bit integer [6 + C - 2^31], or,
    in an extended header, zero followed by the 64-bit integer
    [14 + C - 2^63], and the [C] bytes after the header decode on their own
    one nesting level deeper, the buffer decodes to one container node with
    payload length [C] whose children are that decode.  The bytes
    02 00 0E 00 00 80 followed by scenario A decode to one container with
    identifier 2, payload length 8 and one child with the header and bytes
    of scenario A's node. *)
Theorem C6_container_chunk_decodes :
  (forall (before after : StorageParser) (idb lenb cs : list byte)
          (childs : ListOfStorages),
      List.length idb = 2%nat -> List.length lenb = 4%nat ->
      6 + Z.of_nat (List.length cs) < 2 ^ 31 ->
      to_signed 32 (from_bytes_le lenb) =
        6 + Z.of_nat (List.length cs) - 2 ^ 31 ->
      parse cs (add_nest 1 before) = Return (childs, after) ->
      parse (idb ++ lenb ++ cs) before =
      Return ([StorageContainer
                 (mkStorageHeader (to_signed 16 (from_bytes_le idb))
                                  (Z.of_nat (List.length cs)) CONTAINER false)
                 (_nest before + 1) childs],
              mkStorageParser
                (mkBytesIO (idb ++ lenb ++ cs) (6 + List.length cs))
                (_nest before)))
  /\
  (forall (before after : StorageParser) (idb lenb extb cs : list byte)
          (childs : ListOfStorages),
      List.length idb = 2%nat -> List.length lenb = 4%nat ->
      List.length extb = 8%nat ->
      14 + Z.of_nat (List.length cs) < 2 ^ 63 ->
      to_signed 32 (from_bytes_le lenb) = 0 ->
      to_signed 64 (from_bytes_le extb) =
        14 + Z.of_nat (List.length cs) - 2 ^ 63 ->
      parse cs (add_nest 1 before) = Return (childs, after) ->
      parse (idb ++ lenb ++ extb ++ cs) before =
      Return ([StorageContainer
                 (mkStorageHeader (to_signed 16 (from_bytes_le idb))
                                  (Z.of_nat (List.length cs)) CONTAINER true)
                 (_nest before + 1) childs],
              mkStorageParser
                (mkBytesIO (idb ++ lenb ++ extb ++ cs) (14 + List.length cs))
                (_nest before)))
  /\
  parse scenario_B_tagged new_parser =
  Return ([StorageContainer (mkStorageHeader 2 8 CONTAINER false) 1
             [StorageValue (mkStorageHeader 1 2 VALUE false) 2 [x41; x42]]],
          mkStorageParser (mkBytesIO scenario_B_tagged 14) 0).
Proof.
  split; [|split; [|reflexivity]].
  2:{ intros before after idb lenb extb cs childs Hi Hl He Hsmall Hz Hraw Hcs.
      pose proof (parse_one_container before (idb ++ lenb ++ extb) cs
        (header_of (to_signed 16 (from_bytes_le idb))
                   (to_signed 64 (from_bytes_le extb)) 8 14 true)
        childs after) as P.
      cbv zeta in P. rewrite !length_app, Hi, Hl, He in P.
      replace ((idb ++ lenb ++ extb) ++ cs)
        with (idb ++ lenb ++ extb ++ cs) in P
        by (now rewrite <- !app_assoc).
      assert (Hneg : (to_signed 64 (from_bytes_le extb) <? 0) = true)
        by (apply Z.ltb_lt; lia).
      assert (Hmag : unset_sign_bit (to_signed 64 (from_bytes_le extb)) 8 =
                     14 + Z.of_nat (List.length cs)).
      { rewrite unset_sign_bit_mod by lia. rewrite Hraw.
        change (2 ^ (8 * 8 - 1)) with (2 ^ 63).
        replace (14 + Z.of_nat (List.length cs) - 2 ^ 63)
          with (14 + Z.of_nat (List.length cs) + (-1) * 2 ^ 63) by lia.
        rewrite Z.mod_add by lia. apply Z.mod_small. lia. }
      rewrite P; clear P.
      - unfold header_of. rewrite Hneg, Hmag.
        replace (14 + Z.of_nat (List.length cs) - 14)
          with (Z.of_nat (List.length cs)) by lia.
        reflexivity.
      - apply (read_header_extended _ idb lenb extb cs); try assumption.
        + reflexivity.
        + lia.
      - unfold header_of. now rewrite Hneg.
      - cbn; lia.
      - unfold header_of; cbn [storage_parser.length]. rewrite Hneg, Hmag. lia.
      - exact Hcs. }
  intros before after idb lenb cs childs Hi Hl Hsmall Hraw Hcs.
  pose proof (parse_one_container before (idb ++ lenb) cs
    (header_of (to_signed 16 (from_bytes_le idb))
               (to_signed 32 (from_bytes_le lenb)) 4 6 false)
    childs after) as P.
  cbv zeta in P. rewrite length_app, Hi, Hl, <- app_assoc in P.
  assert (Hneg : (to_signed 32 (from_bytes_le lenb) <? 0) = true)
    by (apply Z.ltb_lt; lia).
  assert (Hmag : unset_sign_bit (to_signed 32 (from_bytes_le lenb)) 4 =
                 6 + Z.of_nat (List.length cs)).
  { rewrite unset_sign_bit_mod by lia. rewrite Hraw.
    change (2 ^ (4 * 8 - 1)) with (2 ^ 31).
    replace (6 + Z.of_nat (List.length cs) - 2 ^ 31)
      with (6 + Z.of_nat (List.length cs) + (-1) * 2 ^ 31) by lia.
    rewrite Z.mod_add by lia. apply Z.mod_small. lia. }
  rewrite P; clear P.
  - unfold header_of. rewrite Hneg, Hmag.
    replace (6 + Z.of_nat (List.length cs) - 6)
      with (Z.of_nat (List.length cs)) by lia.
    reflexivity.
  - apply (read_header_normal _ idb lenb cs); try assumption.
    + reflexivity.
    + lia.
  - unfold header_of. now rewrite Hneg.
  - cbn; lia.
  - unfold header_of; cbn [storage_parser.length]. rewrite Hneg, Hmag. lia.
  - exact Hcs.
Qed.

Lemma C6_witness :
  parse ([x02; x00] ++ [x0e; x00; x00; x80] ++ scenario_A) new_parser =
  Return ([StorageContainer (mkStorageHeader 2 8 CONTAINER false) 1
             [StorageValue (mkStorageHeader 1 2 VALUE false) 2 [x41; x42]]],
          mkStorageParser
            (mkBytesIO ([x02; x00] ++ [x0e; x00; x00; x80] ++ scenario_A) 14) 0)
  /\
  parse ([x02; x00] ++ [x00; x00; x00; x00]
         ++ [x16; x00; x00; x00; x00; x00; x00; x80] ++ scenario_A)
        new_parser =
  Return ([StorageContainer (mkStorageHeader 2 8 CONTAINER true) 1
             [StorageValue (mkStorageHeader 1 2 VALUE false) 2 [x41; x42]]],
          mkStorageParser
            (mkBytesIO ([x02; x00] ++ [x00; x00; x00; x00]
                        ++ [x16; x00; x00; x00; x00; x00; x00; x80]
                        ++ scenario_A) 22) 0).
Proof.
  split.
  - apply (proj1 C6_container_chunk_decodes new_parser
             (mkStorageParser (mkBytesIO scenario_A 8) 1)
             [x02; x00] [x0e; x00; x00; x80] scenario_A
             [StorageValue (mkStorageHeader 1 2 VALUE false) 2 [x41; x42]]);
      reflexivity.
  - apply (proj1 (proj2 C6_container_chunk_decodes) new_parser
             (mkStorageParser (mkBytesIO scenario_A 8) 1)
             [x02; x00] [x00; x00; x00; x00]
             [x16; x00; x00; x00; x00; x00; x00; x80] scenario_A
             [StorageValue (mkStorageHeader 1 2 VALUE false) 2 [x41; x42]]);
      reflexivity.
Defined.

(** The forest depends on the bytes and on the [_nest] the parser starts
    from, and on nothing else; a pass that returns leaves [_nest] as it
    found it, so a second pass over the same bytes right after it returns
    the same forest and the same final state. *)
Lemma parse_again_after_return :
  (forall (ba : list byte) (self1 self2 : StorageParser),
      _nest self1 = _nest self2 -> parse ba self1 = parse ba self2)
  /\
  (forall (ba : list byte) (self self' : StorageParser)
          (nodes : ListOfStorages),
      parse ba self = Return (nodes, self') ->
      _nest self' = _nest self /\
      parse ba self' = Return (nodes, self')).
Proof.
  assert (Hdet : forall (ba : list byte) (self1 self2 : StorageParser),
             _nest self1 = _nest self2 -> parse ba self1 = parse ba self2).
  { intros ba self1 self2 E. rewrite !parse_eq. now rewrite E. }
  split; [exact Hdet|].
  intros ba self self' nodes R.
  assert (Hn : _nest self' = _nest self).
  { rewrite parse_eq in R.
    destruct (read_nodes_returns _ _ _ _ R) as (n & [_ ->] & _).
    reflexivity. }
  split; [exact Hn|].
  rewrite (Hdet ba self' self Hn). exact R.
Qed.

(** C3, as stated, fails.  The children of the container of
    [overrun_input] have a budget of one byte; the loop reads one child of
    eight bytes and returns, with eight bytes consumed and no failure.  The
    header of [truncated_input] declares more bytes than the buffer holds,
    and the decode returns a node with the two bytes that are there.  So a
    call that returns has not always consumed exactly its budget. *)
Lemma C3_counterexample :
  _read_nodes 1 (mkStorageParser (mkBytesIO overrun_input 6) 1) =
  Return ([StorageValue (mkStorageHeader 1 2 VALUE false) 2 [x41; x42]],
          mkStorageParser (mkBytesIO overrun_input 14) 1)
  /\
  parse overrun_input new_parser =
  Return ([StorageContainer (mkStorageHeader 2 1 CONTAINER false) 1
             [StorageValue (mkStorageHeader 1 2 VALUE false) 2 [x41; x42]]],
          mkStorageParser (mkBytesIO overrun_input 14) 0)
  /\
  parse truncated_input new_parser =
  Return ([StorageValue (mkStorageHeader 1 100 VALUE false) 1 [x41; x42]],
          mkStorageParser (mkBytesIO truncated_input 8) 0)
  /\
  ~ (forall (length : Z) (self self' : StorageParser) (items : ListOfStorages),
        _read_nodes length self = Return (items, self') ->
        tell (_stream self') - tell (_stream self) = length).
Proof.
  split; [reflexivity|]. split; [reflexivity|]. split; [reflexivity|].
  intros H.
  specialize (H 1 (mkStorageParser (mkBytesIO overrun_input 6) 1)
                (mkStorageParser (mkBytesIO overrun_input 14) 1)
                [StorageValue (mkStorageHeader 1 2 VALUE false) 2 [x41; x42]]
                eq_refl).
  discriminate H.
Qed.

(** C3, amended. For every budget the loop of [_read_nodes] comes to an
    end, with a result or an exception.  When it returns, the cursor has
    moved forward by some [n] bytes that were in the buffer, [_nest] and the
    buffer are unchanged, and [n] is at least the budget when the budget is
    positive ([n] may exceed it) and zero, with no nodes, otherwise.  The
    only exceptions are [struct.error], raised when a header is needed and
    fewer bytes than a header has remain, and the assertion on a zero
    extended length; a positive budget with fewer than six bytes left raises
    [struct.error].  A [parse] that returns has consumed the whole buffer. *)
Theorem C3_loop_ends_inside_buffer :
  (forall (length : Z) (self : StorageParser),
      _read_nodes length self <> OutOfFuel /\
      (forall (items : ListOfStorages) (self' : StorageParser),
          _read_nodes length self = Return (items, self') ->
          exists n : nat,
            advanced_by n self self' /\
            ((length <= 0 /\ n = 0%nat /\ items = []) \/
             (0 < length <= Z.of_nat n))) /\
      (forall e : exception,
          _read_nodes length self = Raise e ->
          e = StructError \/ e = AssertionError) /\
      (0 < length ->
       (List.length (remaining (_stream self)) < 6)%nat ->
       _read_nodes length self = Raise StructError))
  /\
  (forall (ba : list byte) (self self' : StorageParser)
          (items : ListOfStorages),
      parse ba self = Return (items, self') ->
      _stream self' = mkBytesIO ba (List.length ba)).
Proof.
  split.
  - intros length self. split; [apply read_nodes_total|].
    split; [apply read_nodes_returns|].
    split; [apply read_nodes_raises|].
    intros Hpos Hshort.
    rewrite read_nodes_eq, read_nodes_loop_eq.
    rewrite (proj2 (Z.ltb_lt _ _) Hpos).
    now rewrite (read_header_short (add_nest 1 self)).
  - intros ba self self' items R. rewrite parse_eq in R.
    destruct (read_nodes_returns _ _ _ _ R) as (n & [Hn ->] & Hbudget).
    change (remaining _) with ba in Hn.
    assert (En : n = List.length ba)
      by (destruct Hbudget as [(? & ? & _)|?]; lia).
    subst n. reflexivity.
Qed.

Lemma C3_witness :
  _read_nodes 5 new_parser = Raise StructError /\
  _stream (mkStorageParser (mkBytesIO overrun_input 14) 0) =
  mkBytesIO overrun_input (List.length overrun_input).
Proof.
  destruct C3_loop_ends_inside_buffer as [Hloop Hparse]. split.
  - apply (Hloop 5 new_parser); [reflexivity | cbn; lia].
  - apply (Hparse overrun_input new_parser _
             [StorageContainer (mkStorageHeader 2 1 CONTAINER false) 1
                [StorageValue (mkStorageHeader 1 2 VALUE false) 2 [x41; x42]]]).
    reflexivity.
Defined.

End BuilderClaims.

(** * Further properties of the decoder *)

Section IntegerReads.

Import utils.

(** X1. [unset_sign_bit] returns a number of [8 * length - 1] bits: it
    leaves a non-negative number of that size as it is, adds
    [2^(8*length-1)] to a negative number of [8 * length] bits, and applying
    it twice is the same as applying it once. *)
Theorem X1_unset_sign_bit_range :
  forall number length : Z,
    0 < length ->
    0 <= unset_sign_bit number length < 2 ^ (length * 8 - 1) /\
    (0 <= number < 2 ^ (length * 8 - 1) ->
       unset_sign_bit number length = number) /\
    (- 2 ^ (length * 8 - 1) <= number < 0 ->
       unset_sign_bit number length = number + 2 ^ (length * 8 - 1)) /\
    unset_sign_bit (unset_sign_bit number length) length =
    unset_sign_bit number length.
Proof.
  intros number length Hl. rewrite !unset_sign_bit_mod by assumption.
  assert (Hp : 0 < 2 ^ (length * 8 - 1)) by (apply Z.pow_pos_nonneg; lia).
  split; [apply Z.mod_pos_bound; exact Hp|].
  split; [intros H; now apply Z.mod_small|].
  split.
  - intros H.
    replace number with (number + 2 ^ (length * 8 - 1)
                         + (-1) * 2 ^ (length * 8 - 1)) at 1 by lia.
    rewrite Z.mod_add by lia. apply Z.mod_small. lia.
  - apply Z.mod_mod. lia.
Qed.

Lemma X1_witness :
  unset_sign_bit (-14) 4 = 2147483634 /\ unset_sign_bit 14 4 = 14.
Proof.
  destruct (X1_unset_sign_bit_range (-14) 4 eq_refl) as (_ & _ & Hneg & _).
  destruct (X1_unset_sign_bit_range 14 4 eq_refl) as (_ & Hpos & _ & _).
  split.
  - apply Hneg. split; [discriminate | reflexivity].
  - apply Hpos. split; [discriminate | reflexivity].
Defined.

Lemma read_sized_enough (size : nat) (s : BytesIO) :
  (0 < size)%nat ->
  (size <= List.length (remaining s))%nat ->
  exists v : Z,
    read_sized (Z.of_nat size) s = Return (v, mkBytesIO (buf s) (pos s + size)) /\
    - 2 ^ (8 * Z.of_nat size - 1) <= v < 2 ^ (8 * Z.of_nat size - 1).
Proof.
  intros Hpos Hle.
  assert (E : remaining s = firstn size (remaining s) ++ skipn size (remaining s))
    by (symmetry; apply firstn_skipn).
  assert (L : List.length (firstn size (remaining s)) = size)
    by (rewrite length_firstn; lia).
  eexists. split.
  - rewrite (read_sized_ok _ _ _ _ E) by (now rewrite L).
    now rewrite L.
  - apply to_signed_range; [lia|].
    pose proof (from_bytes_le_range (firstn size (remaining s))) as R.
    now rewrite L in R.
Qed.

(** X2. [read_short], [read_int] and [read_long_long] need 2, 4 and 8
    bytes after the cursor.  When they are there the read returns a signed
    number of 16, 32 or 64 bits and moves the cursor by exactly that many
    bytes; when fewer remain it raises [struct.error]. *)
Theorem X2_fixed_width_reads :
  forall stream : BytesIO,
    ((2 <= List.length (remaining stream))%nat ->
       exists v : Z,
         read_short stream =
           Return (v, mkBytesIO (buf stream) (pos stream + 2)) /\
         - 2 ^ 15 <= v < 2 ^ 15) /\
    ((List.length (remaining stream) < 2)%nat ->
       read_short stream = Raise StructError) /\
    ((4 <= List.length (remaining stream))%nat ->
       exists v : Z,
         read_int stream =
           Return (v, mkBytesIO (buf stream) (pos stream + 4)) /\
         - 2 ^ 31 <= v < 2 ^ 31) /\
    ((List.length (remaining stream) < 4)%nat ->
       read_int stream = Raise StructError) /\
    ((8 <= List.length (remaining stream))%nat ->
       exists v : Z,
         read_long_long stream =
           Return (v, mkBytesIO (buf stream) (pos stream + 8)) /\
         - 2 ^ 63 <= v < 2 ^ 63) /\
    ((List.length (remaining stream) < 8)%nat ->
       read_long_long stream = Raise StructError).
Proof.
  intros stream. unfold read_short, read_int, read_long_long.
  repeat apply conj.
  - intros H. apply (read_sized_enough 2 stream); [lia | exact H].
  - intros H. apply read_sized_short. unfold SHORT_S. lia.
  - intros H. apply (read_sized_enough 4 stream); [lia | exact H].
  - intros H. apply read_sized_short. unfold INT_S. lia.
  - intros H. apply (read_sized_enough 8 stream); [lia | exact H].
  - intros H. apply read_sized_short. unfold LONG_LONG_S. lia.
Qed.

Lemma X2_witness :
  (exists v : Z,
     read_int (mkBytesIO [x01; x00; xf2; xff; xff; xff] 2) =
       Return (v, mkBytesIO [x01; x00; xf2; xff; xff; xff] (2 + 4)) /\
     - 2 ^ 31 <= v < 2 ^ 31) /\
  read_long_long (mkBytesIO [x01; x00; xf2; xff; xff; xff] 2) =
    Raise StructError.
Proof.
  destruct (X2_fixed_width_reads (mkBytesIO [x01; x00; xf2; xff; xff; xff] 2))
    as (_ & _ & Hint & _ & _ & Hlong).
  split.
  - apply Hint. cbn. lia.
  - apply Hlong. cbn. lia.
Defined.

End IntegerReads.

Section HeaderShape.

Import utils.

Implicit Types (self : StorageParser) (h : StorageHeader).

Lemma to_signed_bytes_range (bits : Z) (n : nat) (bs : list byte) :
  List.length bs = n -> bits = 8 * Z.of_nat n -> (0 < n)%nat ->
  - 2 ^ (bits - 1) <= to_signed bits (from_bytes_le bs) < 2 ^ (bits - 1).
Proof.
  intros L -> Hn. apply to_signed_range; [lia|].
  rewrite <- L. apply from_bytes_le_range.
Qed.

Lemma unset_sign_bit_bounds (number length : Z) :
  0 < length ->
  0 <= unset_sign_bit number length < 2 ^ (length * 8 - 1).
Proof.
  intros Hl. rewrite unset_sign_bit_mod by assumption.
  apply Z.mod_pos_bound. apply Z.pow_pos_nonneg; lia.
Qed.

(** X3. A header that [_read_header] returns took exactly 6 bytes, or 14
    when extended, from inside the buffer, and left the buffer and [_nest]
    alone.  Its identifier is a signed 16-bit number.  Its payload length is
    below [2^31 - 6] (extended: [2^63 - 14]) and not below [-6]
    (extended: [-14]); for a value header it is above that bound. *)
Theorem X3_returned_header_shape :
  forall self self' h,
    _read_header self = Return (h, self') ->
    self' = advance (header_size h) self /\
    (pos (_stream self) + header_size h <= List.length (buf (_stream self)))%nat /\
    - 2 ^ 15 <= idn h < 2 ^ 15 /\
    (extended h = false ->
       - 6 <= storage_parser.length h < 2 ^ 31 - 6 /\
       (storage_type h = VALUE -> - 6 < storage_parser.length h)) /\
    (extended h = true ->
       - 14 <= storage_parser.length h < 2 ^ 63 - 14 /\
       (storage_type h = VALUE -> - 14 < storage_parser.length h)).
Proof.
  intros self self' h R.
  destruct (read_header_step _ _ _ R) as [Hadv Hin].
  split; [exact Hadv|]. split; [exact Hin|].
  destruct (read_header_inv _ _ _ R)
    as (idb & lenb & extb & _ & Hi & Hl & Hcase).
  pose proof (to_signed_bytes_range 16 2 idb Hi eq_refl ltac:(lia)) as Rid.
  pose proof (to_signed_bytes_range 32 4 lenb Hl eq_refl ltac:(lia)) as R32.
  change (2 ^ (16 - 1)) with (2 ^ 15) in Rid.
  change (2 ^ (32 - 1)) with (2 ^ 31) in R32.
  destruct Hcase as [(Hnz & _ & -> & _)|(_ & He & Hnz & -> & _)];
    unfold header_of; cbn [idn extended storage_parser.length storage_type].
  - split; [exact Rid|]. split; [|discriminate]. intros _.
    destruct (Z.ltb_spec (to_signed 32 (from_bytes_le lenb)) 0) as [Hneg|Hpos].
    + pose proof (unset_sign_bit_bounds
                    (to_signed 32 (from_bytes_le lenb)) 4 eq_refl) as B.
      change (2 ^ (4 * 8 - 1)) with (2 ^ 31) in B.
      split; [lia | discriminate].
    + split; [lia|]. intros _. lia.
  - pose proof (to_signed_bytes_range 64 8 extb He eq_refl ltac:(lia)) as R64.
    change (2 ^ (64 - 1)) with (2 ^ 63) in R64.
    split; [exact Rid|]. split; [discriminate|]. intros _.
    destruct (Z.ltb_spec (to_signed 64 (from_bytes_le extb)) 0) as [Hneg|Hpos].
    + pose proof (unset_sign_bit_bounds
                    (to_signed 64 (from_bytes_le extb)) 8 eq_refl) as B.
      change (2 ^ (8 * 8 - 1)) with (2 ^ 63) in B.
      split; [lia | discriminate].
    + split; [lia|]. intros _. lia.
Qed.

Lemma X3_witness :
  mkStorageParser (mkBytesIO scenario_B_tagged 6) 0 =
  advance 6 (mkStorageParser (mkBytesIO scenario_B_tagged 0) 0) /\
  - 6 <= 8 < 2 ^ 31 - 6.
Proof.
  destruct (X3_returned_header_shape
              (mkStorageParser (mkBytesIO scenario_B_tagged 0) 0)
              (mkStorageParser (mkBytesIO scenario_B_tagged 6) 0)
              (mkStorageHeader 2 8 CONTAINER false) eq_refl)
    as (Hadv & _ & _ & Hnormal & _).
  split; [exact Hadv|]. apply (Hnormal eq_refl).
Defined.

(** X4. [_read_header] raises [struct.error] when fewer than six bytes
    remain, and when the 32-bit length field is zero and fewer than eight
    bytes follow it.  It raises nothing but [struct.error] and the
    assertion error, and the assertion error only for a header of fourteen
    readable bytes whose two length fields are both zero. *)
Theorem X4_header_errors :
  forall self,
    ((List.length (remaining (_stream self)) < 6)%nat ->
       _read_header self = Raise StructError) /\
    (forall idb lenb tl : list byte,
        remaining (_stream self) = idb ++ lenb ++ tl ->
        List.length idb = 2%nat -> List.length lenb = 4%nat ->
        to_signed 32 (from_bytes_le lenb) = 0 ->
        (List.length tl < 8)%nat ->
        _read_header self = Raise StructError) /\
    (forall e : exception,
        _read_header self = Raise e ->
        e = StructError \/
        (e = AssertionError /\
         exists idb lenb extb tl : list byte,
           remaining (_stream self) = idb ++ lenb ++ extb ++ tl /\
           List.length idb = 2%nat /\ List.length lenb = 4%nat /\
           List.length extb = 8%nat /\
           to_signed 32 (from_bytes_le lenb) = 0 /\
           to_signed 64 (from_bytes_le extb) = 0)).
Proof.
  intros self. split; [apply read_header_short|]. split.
  - intros idb lenb tl E Hi Hl Hz Htl.
    unfold _read_header, read_short, read_int, read_long_long.
    rewrite (with_stream_ok SHORT_S _ _ _ E) by (rewrite Hi; reflexivity).
    cbn [bind].
    pose proof (remaining_advance_self _ _ _ E) as E1.
    rewrite (with_stream_ok INT_S _ _ _ E1) by (rewrite Hl; reflexivity).
    cbn [bind]. change (8 * INT_S) with 32. rewrite Hz. cbn [Z.eqb].
    pose proof (remaining_advance_self _ _ _ E1) as E2.
    unfold with_stream.
    rewrite read_sized_short by (rewrite E2; unfold LONG_LONG_S; lia).
    reflexivity.
  - intros e.
    unfold _read_header, read_short, read_int, read_long_long.
    destruct (with_stream (read_sized SHORT_S) self) as [[v1 p1]| |] eqn:R1;
      cbn [bind]; try discriminate.
    2:{ intros [= <-]. left. eapply with_stream_raise, R1. }
    destruct (with_stream (read_sized INT_S) p1) as [[v2 p2]| |] eqn:R2;
      cbn [bind]; try discriminate.
    2:{ intros [= <-]. left. eapply with_stream_raise, R2. }
    destruct (with_stream_inv SHORT_S _ _ _ ltac:(unfold SHORT_S; lia) R1)
      as (idb & E1 & L1 & V1 & P1).
    destruct (with_stream_inv INT_S _ _ _ ltac:(unfold INT_S; lia) R2)
      as (lenb & E2 & L2 & V2 & P2).
    destruct (Z.eqb_spec v2 0) as [Z2|NZ2].
    + destruct (with_stream (read_sized LONG_LONG_S) p2) as [[v3 p3]| |] eqn:R3;
        cbn [bind]; try discriminate.
      2:{ intros [= <-]. left. eapply with_stream_raise, R3. }
      destruct (with_stream_inv LONG_LONG_S _ _ _
                  ltac:(unfold LONG_LONG_S; lia) R3)
        as (extb & E3 & L3 & V3 & P3).
      destruct (Z.eqb_spec v3 0) as [Z3|NZ3]; cbn [bind].
      * intros [= <-]. right. split; [reflexivity|].
        exists idb, lenb, extb, (remaining (_stream p3)).
        rewrite E1, E2, E3. unfold SHORT_S in L1. unfold INT_S in L2.
        unfold LONG_LONG_S in L3.
        change (8 * INT_S) with 32 in V2.
        change (8 * LONG_LONG_S) with 64 in V3.
        repeat split; try lia; congruence.
      * destruct (v3 <? 0); discriminate.
    + cbn [bind]. destruct (v2 <? 0); discriminate.
Qed.

Lemma X4_witness :
  _read_header (mkStorageParser (mkBytesIO [x01; x00; x08] 0) 0) =
    Raise StructError /\
  _read_header
    (mkStorageParser (mkBytesIO [x01; x00; x00; x00; x00; x00; x09] 0) 0) =
    Raise StructError.
Proof.
  split.
  - apply (proj1 (X4_header_errors _)). cbn. lia.
  - apply (proj1 (proj2 (X4_header_errors _))
             [x01; x00] [x00; x00; x00; x00] [x09]);
      try reflexivity. cbn. lia.
Defined.

End HeaderShape.

(** ** Decoded forests *)

Section Forests.

Implicit Types (self : StorageParser) (h : StorageHeader)
               (items childs : ListOfStorages).

Lemma spans_app items1 items2 :
  spans (items1 ++ items2) = (spans items1 + spans items2)%nat.
Proof. unfold spans. now rewrite map_app, list_sum_app. Qed.

Lemma advance_inj (n m : nat) self : advance n self = advance m self -> n = m.
Proof. unfold advance. intros [= E]. lia. Qed.

(** A call that returns has moved the cursor over the bytes of the nodes it
    returns; the loop returns the nodes it was given followed by new ones. *)
Lemma read_nodes_fuel_spans (fuel : nat) :
  (forall length self items self',
      _read_nodes_fuel fuel length self = Return (items, self') ->
      self' = advance (spans items) self)
  /\
  (forall length start items consumed self items' self',
      while_fuel fuel length start items consumed self = Return (items', self') ->
      exists new, items' = items ++ new /\ self' = advance (spans new) self).
Proof.
  induction fuel as [|fuel [IHn IHw]]; split.
  - discriminate.
  - intros length start items consumed self items' self'. cbn [while_fuel].
    destruct (consumed <? length); [discriminate|].
    intros [= <- <-]. exists []. now rewrite app_nil_r, advance_0.
  - intros length self items self'. cbn [_read_nodes_fuel].
    destruct (while_fuel fuel length _ [] 0 (add_nest 1 self))
      as [[items1 self1]| |] eqn:W; cbn [bind]; try discriminate.
    intros [= <- <-]. apply IHw in W. destruct W as (new & -> & ->).
    cbn [app]. apply leave_nest.
  - intros length start items consumed self items' self'. cbn [while_fuel].
    destruct (consumed <? length).
    2:{ intros [= <- <-]. exists []. now rewrite app_nil_r, advance_0. }
    destruct (_read_header self) as [[h self1]| |] eqn:RH;
      cbn [bind]; try discriminate.
    apply read_header_step in RH. destruct RH as [-> _].
    destruct (storage_type h).
    + destruct (_read_nodes_fuel fuel (storage_parser.length h) _)
        as [[childs self2]| |] eqn:RN; cbn [bind]; try discriminate.
      apply IHn in RN. subst self2. intros W. apply IHw in W.
      destruct W as (new & -> & ->).
      eexists. split; [now rewrite <- app_assoc|].
      rewrite !advance_advance, spans_app. f_equal.
      unfold spans, list_sum. cbn [map span fold_right]. unfold list_sum. lia.
    + rewrite read_value_eq. cbn [bind]. intros W. apply IHw in W.
      destruct W as (new & -> & ->).
      eexists. split; [now rewrite <- app_assoc|].
      rewrite !advance_advance, spans_app. f_equal.
      unfold spans, list_sum. cbn [map span fold_right]. unfold list_sum. lia.
Qed.

Lemma read_nodes_spans (length : Z) self items self' :
  _read_nodes length self = Return (items, self') ->
  self' = advance (spans items) self /\
  (spans items <= List.length (remaining (_stream self)))%nat /\
  ((length <= 0 /\ items = []) \/ 0 < length <= Z.of_nat (spans items)).
Proof.
  intros R. pose proof (proj1 (read_nodes_fuel_spans _) _ _ _ _ R) as E.
  destruct (read_nodes_returns _ _ _ _ R) as (n & [Hn E'] & Hb).
  rewrite E in E'. apply advance_inj in E'. subst n.
  split; [exact E|]. split; [exact Hn|].
  destruct Hb as [(? & _ & ?)|?]; [left|right]; auto.
Qed.

Lemma parse_spans (ba : list byte) self items self' :
  parse ba self = Return (items, self') -> spans items = List.length ba.
Proof.
  intros R. rewrite parse_eq in R.
  destruct (read_nodes_spans _ _ _ _ R) as (_ & Hle & Hb).
  change (remaining _) with ba in Hle.
  destruct Hb as [(? & ->)|?]; [cbn in *|]; lia.
Qed.

(** X5. A [_read_nodes] that returns has moved the cursor by exactly the
    bytes its nodes stand for (headers, payloads read, children), all of
    them inside the buffer; after a [parse] that returns, the spans of the
    nodes of the forest add up to the size of the buffer. *)
Theorem X5_forest_spans_the_bytes_consumed :
  (forall (length : Z) self items self',
      _read_nodes length self = Return (items, self') ->
      self' = advance (spans items) self /\
      (spans items <= List.length (remaining (_stream self)))%nat)
  /\
  (forall (ba : list byte) self items self',
      parse ba self = Return (items, self') ->
      spans items = List.length ba).
Proof.
  split.
  - intros length self items self' R.
    destruct (read_nodes_spans _ _ _ _ R) as (E & Hle & _). now split.
  - apply parse_spans.
Qed.

Lemma X5_witness :
  spans [StorageContainer (mkStorageHeader 2 1 CONTAINER false) 1
           [StorageValue (mkStorageHeader 1 2 VALUE false) 2 [x41; x42]]] =
  List.length overrun_input.
Proof.
  apply (proj2 X5_forest_spans_the_bytes_consumed overrun_input new_parser _
           (mkStorageParser (mkBytesIO overrun_input 14) 0)).
  reflexivity.
Defined.

End Forests.

Section ForestInvariants.

Implicit Types (self : StorageParser) (h : StorageHeader)
               (items childs : ListOfStorages).

(** A property of nodes that holds for every value as it is read, and for
    every container once it holds for its children, holds for every node
    that [_read_nodes] returns.  [Q d] speaks of a node made while [_nest]
    is [d]. *)
Lemma read_nodes_fuel_forall (Q : Z -> Storage -> Prop) :
  (forall self h self1,
      _read_header self = Return (h, self1) ->
      storage_type h = VALUE ->
      Q (_nest self)
        (StorageValue h (_nest self)
           (fst (read (_stream self1) (storage_parser.length h))))) ->
  (forall self h self1 fuel childs self2,
      _read_header self = Return (h, self1) ->
      storage_type h = CONTAINER ->
      _read_nodes_fuel fuel (storage_parser.length h) self1 =
        Return (childs, self2) ->
      Forall (Q (_nest self + 1)) childs ->
      Q (_nest self) (StorageContainer h (_nest self) childs)) ->
  forall fuel : nat,
    (forall length self items self',
        _read_nodes_fuel fuel length self = Return (items, self') ->
        Forall (Q (_nest self + 1)) items)
    /\
    (forall length start items consumed self items' self',
        while_fuel fuel length start items consumed self =
          Return (items', self') ->
        Forall (Q (_nest self)) items ->
        Forall (Q (_nest self)) items').
Proof.
  intros Hvalue Hcont.
  induction fuel as [|fuel [IHn IHw]]; split.
  - discriminate.
  - intros length start items consumed self items' self'. cbn [while_fuel].
    destruct (consumed <? length); [discriminate|]. now intros [= <- <-].
  - intros length self items self'. cbn [_read_nodes_fuel].
    destruct (while_fuel fuel length _ [] 0 (add_nest 1 self))
      as [[items1 self1]| |] eqn:W; cbn [bind]; try discriminate.
    intros [= <- <-]. apply IHw in W; [exact W | constructor].
  - intros length start items consumed self items' self'. cbn [while_fuel].
    destruct (consumed <? length); [|now intros [= <- <-]].
    destruct (_read_header self) as [[h self1]| |] eqn:RH;
      cbn [bind]; try discriminate.
    pose proof (read_header_step _ _ _ RH) as [E1 _].
    assert (N1 : _nest self1 = _nest self) by now subst self1.
    destruct (storage_type h) eqn:Ht.
    + destruct (_read_nodes_fuel fuel (storage_parser.length h) self1)
        as [[childs self2]| |] eqn:RN; cbn [bind]; try discriminate.
      pose proof (proj1 (read_nodes_fuel_spans _) _ _ _ _ RN) as E2.
      assert (N2 : _nest self2 = _nest self) by now subst self2.
      intros W HQ.
      assert (HQ' : Forall (Q (_nest self2))
                      (items ++ [StorageContainer h (_nest self2) childs])).
      { rewrite N2. apply Forall_app. split; [exact HQ|].
        constructor; [|constructor].
        apply (Hcont _ _ _ _ _ _ RH Ht RN).
        rewrite <- N1. eapply IHn, RN. }
      pose proof (IHw _ _ _ _ _ _ _ W HQ') as F. now rewrite N2 in F.
    + rewrite read_value_eq. cbn [bind].
      set (self2 := advance _ self1).
      assert (N2 : _nest self2 = _nest self) by (rewrite <- N1; reflexivity).
      intros W HQ.
      assert (HQ' : Forall (Q (_nest self2))
                      (items ++ [StorageValue h (_nest self2)
                         (fst (read (_stream self1) (storage_parser.length h)))])).
      { rewrite N2. apply Forall_app. split; [exact HQ|].
        constructor; [|constructor]. now apply Hvalue. }
      pose proof (IHw _ _ _ _ _ _ _ W HQ') as F. now rewrite N2 in F.
Qed.

Lemma Forall_forallb {A : Type} (f : A -> bool) (l : list A) :
  Forall (fun x => f x = true) l -> forallb f l = true.
Proof. intros H. apply forallb_forall. now apply Forall_forall. Qed.

(** X6. In a forest that [_read_nodes] returns, every node carries its
    depth: the roots have [_nest] one above the parser's, their children one
    more, and so on; for [parse] on a parser whose [_nest] is [n] the roots
    carry [n + 1]. *)
Theorem X6_nodes_carry_their_depth :
  (forall (length : Z) self items self',
      _read_nodes length self = Return (items, self') ->
      forallb (nest_ok (_nest self + 1)) items = true)
  /\
  (forall (ba : list byte) self items self',
      parse ba self = Return (items, self') ->
      forallb (nest_ok (_nest self + 1)) items = true).
Proof.
  assert (H : forall (length : Z) self items self',
             _read_nodes length self = Return (items, self') ->
             forallb (nest_ok (_nest self + 1)) items = true).
  { intros length self items self' R. apply Forall_forallb.
    revert R. apply (read_nodes_fuel_forall (fun d node => nest_ok d node = true)).
    - intros p h p1 _ _. cbn [nest_ok]. apply Z.eqb_refl.
    - intros p h p1 fuel childs p2 _ _ _ HF. cbn [nest_ok].
      rewrite Z.eqb_refl. cbn [andb]. now apply Forall_forallb. }
  split; [exact H|].
  intros ba self items self' R. rewrite parse_eq in R.
  apply (H _ _ _ _ R).
Qed.

Lemma X6_witness :
  forallb (nest_ok (0 + 1))
    [StorageContainer (mkStorageHeader 2 8 CONTAINER false) 1
       [StorageValue (mkStorageHeader 1 2 VALUE false) 2 [x41; x42]]] = true.
Proof.
  apply (proj2 X6_nodes_carry_their_depth scenario_B_tagged new_parser _
           (mkStorageParser (mkBytesIO scenario_B_tagged 14) 0)).
  reflexivity.
Defined.

Lemma read_length_le_size (s : BytesIO) (size : Z) :
  0 <= size -> Z.of_nat (List.length (fst (read s size))) <= size.
Proof.
  intros Hs. rewrite read_data, length_firstn.
  destruct (Z.ltb_spec size 0); lia.
Qed.

(** X7. In a forest that [_read_nodes] returns, a value node has a header
    of kind [VALUE] and holds no more bytes than the header's length unless
    that length is negative; a container node has a header of kind
    [CONTAINER], has no children when the header's length is zero or
    negative, and otherwise has children that span at least that length. *)
Theorem X7_nodes_agree_with_headers :
  (forall (length : Z) self items self',
      _read_nodes length self = Return (items, self') ->
      forallb header_ok items = true)
  /\
  (forall (ba : list byte) self items self',
      parse ba self = Return (items, self') ->
      forallb header_ok items = true).
Proof.
  assert (H : forall (length : Z) self items self',
             _read_nodes length self = Return (items, self') ->
             forallb header_ok items = true).
  { intros length self items self' R. apply Forall_forallb.
    revert R. apply (read_nodes_fuel_forall (fun _ node => header_ok node = true)).
    - intros p h p1 _ Ht. cbn [header_ok]. rewrite Ht.
      destruct (Z.ltb_spec (storage_parser.length h) 0) as [?|Hnn];
        [reflexivity|].
      cbn [orb]. apply Z.leb_le. now apply read_length_le_size.
    - intros p h p1 fuel childs p2 _ Ht RN HF. cbn [header_ok]. rewrite Ht.
      rewrite (Forall_forallb _ _ HF). cbn [andb].
      pose proof (proj1 (read_nodes_fuel_spans _) _ _ _ _ RN) as E.
      destruct (proj1 (read_nodes_fuel_returns _) _ _ _ _ RN)
        as (n & [_ E'] & Hb).
      rewrite E in E'. apply advance_inj in E'. subst n.
      fold (spans childs).
      destruct (Z.ltb_spec 0 (storage_parser.length h)) as [Hpos|Hnp].
      + apply Z.leb_le. destruct Hb as [(? & _)|?]; lia.
      + destruct Hb as [(_ & _ & ->)|?]; [reflexivity | lia]. }
  split; [exact H|].
  intros ba self items self' R. rewrite parse_eq in R.
  apply (H _ _ _ _ R).
Qed.

Lemma X7_witness :
  forallb header_ok
    [StorageContainer (mkStorageHeader 2 1 CONTAINER false) 1
       [StorageValue (mkStorageHeader 1 2 VALUE false) 2 [x41; x42]]] = true.
Proof.
  apply (proj2 X7_nodes_agree_with_headers overrun_input new_parser _
           (mkStorageParser (mkBytesIO overrun_input 14) 0)).
  reflexivity.
Defined.

(** X8. [parse] returns the empty forest for the empty buffer and for no
    other: a buffer with at least one byte either raises or gives at least
    one node. *)
Theorem X8_empty_forest_iff_empty_buffer :
  (forall self,
      parse [] self =
      Return ([], mkStorageParser (mkBytesIO [] 0) (_nest self)))
  /\
  (forall (ba : list byte) self self',
      parse ba self = Return ([], self') -> ba = []).
Proof.
  split.
  - intros self. rewrite parse_eq, read_nodes_eq.
    rewrite read_nodes_loop_done by (cbn; lia).
    cbn [bind]. rewrite add_nest_add_nest. apply f_equal, f_equal, add_nest_0.
  - intros ba self self' R. apply parse_spans in R.
    destruct ba; [reflexivity | discriminate R].
Qed.

Lemma X8_witness :
  parse [] new_parser = Return ([], new_parser) /\
  ([] : list byte) = [].
Proof.
  split.
  - apply (proj1 X8_empty_forest_iff_empty_buffer new_parser).
  - apply (proj2 X8_empty_forest_iff_empty_buffer [] new_parser new_parser).
    reflexivity.
Defined.

(** X9. What [_read_nodes] does from a cursor does not depend on the bytes
    before the cursor: over a buffer with [pre] put in front and the cursor
    moved accordingly, it gives the same nodes or the same exception, and
    leaves the cursor moved by the same number of bytes. *)
Theorem X9_bytes_before_the_cursor_are_ignored :
  forall (pre : list byte) (length : Z) self,
    _read_nodes length (shift pre self) =
    map_state (shift pre) (_read_nodes length self).
Proof. intros pre length self. apply read_nodes_shift. Qed.

End ForestInvariants.

(** ** Bytes after a forest, and forests side by side *)

Section Composition.

Import utils.

Implicit Types (self : StorageParser) (h : StorageHeader)
               (items childs : ListOfStorages) (suf pre : list byte).

Lemma remaining_extend suf self :
  (pos (_stream self) <= List.length (buf (_stream self)))%nat ->
  remaining (_stream (extend suf self)) = remaining (_stream self) ++ suf.
Proof.
  intros Hle. unfold remaining, extend; cbn [_stream buf pos].
  rewrite skipn_app.
  replace (pos (_stream self) - List.length (buf (_stream self)))%nat
    with 0%nat by lia.
  reflexivity.
Qed.

Lemma extend_advance suf (n : nat) self :
  extend suf (advance n self) = advance n (extend suf self).
Proof. reflexivity. Qed.

Lemma advanced_in_bounds (n : nat) self self' :
  advanced_by n self self' ->
  (pos (_stream self) <= List.length (buf (_stream self)))%nat ->
  (pos (_stream self') <= List.length (buf (_stream self')))%nat.
Proof.
  intros [Hn ->] Hle. rewrite remaining_length in Hn.
  unfold advance; cbn [_stream buf pos]. lia.
Qed.

(** A header that was read is read again, the same, with bytes added
    behind the buffer. *)
Lemma read_header_extend suf self h self1 :
  _read_header self = Return (h, self1) ->
  _read_header (extend suf self) = Return (h, extend suf self1).
Proof.
  intros R.
  destruct (read_header_step _ _ _ R) as [_ Hin].
  assert (Hle : (pos (_stream self) <= List.length (buf (_stream self)))%nat)
    by lia.
  destruct (read_header_inv _ _ _ R)
    as (idb & lenb & extb & E & Hi & Hl & Hcase).
  pose proof (remaining_extend suf self Hle) as Eext.
  rewrite E in Eext.
  destruct Hcase as [(Hnz & -> & -> & ->)|(Hz & He & Hnz & -> & ->)].
  - cbn [app] in Eext. rewrite <- !app_assoc in Eext.
    rewrite extend_advance.
    now apply (read_header_normal _ idb lenb _ Eext).
  - rewrite <- !app_assoc in Eext. rewrite extend_advance.
    now apply (read_header_extended _ idb lenb extb _ Eext).
Qed.

(** A payload that was read in full is read again, the same. *)
Lemma read_extend_exact suf self (length : Z) :
  (pos (_stream self) <= List.length (buf (_stream self)))%nat ->
  Z.of_nat (List.length (fst (read (_stream self) length))) = length ->
  fst (read (_stream (extend suf self)) length) =
  fst (read (_stream self) length).
Proof.
  intros Hle Hex. rewrite !read_data, remaining_extend by assumption.
  rewrite read_data, length_firstn in Hex.
  destruct (Z.ltb_spec length 0) as [?|Hnn]; [lia|].
  rewrite length_app.
  rewrite !Nat.min_l by lia.
  rewrite firstn_app.
  replace (Z.to_nat length - List.length (remaining (_stream self)))%nat
    with 0%nat by lia.
  cbn [firstn]. now rewrite app_nil_r.
Qed.

Lemma exact_app items1 items2 :
  forallb exact (items1 ++ items2) =
  forallb exact items1 && forallb exact items2.
Proof. apply forallb_app. Qed.

Lemma read_nodes_fuel_extend suf (fuel : nat) :
  (forall length self items self',
      (pos (_stream self) <= List.length (buf (_stream self)))%nat ->
      _read_nodes_fuel fuel length self = Return (items, self') ->
      forallb exact items = true ->
      _read_nodes_fuel fuel length (extend suf self) =
      Return (items, extend suf self'))
  /\
  (forall length start items consumed self new self',
      (pos (_stream self) <= List.length (buf (_stream self)))%nat ->
      while_fuel fuel length start items consumed self =
        Return (items ++ new, self') ->
      forallb exact new = true ->
      while_fuel fuel length start items consumed (extend suf self) =
      Return (items ++ new, extend suf self')).
Proof.
  induction fuel as [|fuel [IHn IHw]]; split.
  - discriminate.
  - intros length start items consumed self new self' _. cbn [while_fuel].
    destruct (consumed <? length); [discriminate|].
    now intros [= <- <-].
  - intros length self items self' Hle. cbn [_read_nodes_fuel].
    destruct (while_fuel fuel length _ [] 0 (add_nest 1 self))
      as [[items1 self1]| |] eqn:W; cbn [bind]; try discriminate.
    intros [= <- <-] Hex.
    change (add_nest 1 (extend suf self)) with (extend suf (add_nest 1 self)).
    change (tell (_stream (extend suf (add_nest 1 self))))
      with (tell (_stream (add_nest 1 self))).
    rewrite (IHw length _ [] 0 (add_nest 1 self) items1 self1 Hle W Hex). reflexivity.
  - intros length start items consumed self new self' Hle. cbn [while_fuel].
    destruct (consumed <? length); [|now intros [= <- <-]].
    destruct (_read_header self) as [[h self1]| |] eqn:RH;
      cbn [bind]; try discriminate.
    rewrite (read_header_extend suf _ _ _ RH). cbn [bind].
    pose proof (read_header_advanced _ _ _ RH) as A1.
    pose proof (advanced_in_bounds _ _ _ A1 Hle) as Hle1.
    destruct (storage_type h).
    + destruct (_read_nodes_fuel fuel (storage_parser.length h) self1)
        as [[childs self2]| |] eqn:RN; cbn [bind]; try discriminate.
      intros W Hex.
      destruct (proj2 (read_nodes_fuel_spans _) _ _ _ _ _ _ _ W)
        as (new' & Enew & _).
      rewrite <- app_assoc in Enew. apply app_inv_head in Enew. subst new.
      cbn [app forallb exact] in Hex.
      apply andb_prop in Hex. destruct Hex as [Hc Hex'].
      rewrite (IHn _ _ _ _ Hle1 RN Hc). cbn [bind].
      destruct (proj1 (read_nodes_fuel_returns _) _ _ _ _ RN) as (m & A2 & _).
      pose proof (advanced_in_bounds _ _ _ A2 Hle1) as Hle2.
      change (_nest (extend suf self2)) with (_nest self2).
      change (tell (_stream (extend suf self2))) with (tell (_stream self2)).
      rewrite app_assoc in W |- *.
      apply IHw; assumption.
    + rewrite !read_value_eq. cbn [bind].
      intros W Hex.
      destruct (proj2 (read_nodes_fuel_spans _) _ _ _ _ _ _ _ W)
        as (new' & Enew & _).
      rewrite <- app_assoc in Enew. apply app_inv_head in Enew. subst new.
      cbn [app forallb exact] in Hex.
      apply andb_prop in Hex. destruct Hex as [Hv Hex'].
      apply Z.eqb_eq in Hv.
      rewrite (read_extend_exact suf self1 _ Hle1 Hv).
      pose proof (advanced_in_bounds _ _ _ (read_value_advanced
                    (storage_parser.length h) self1) Hle1) as Hle2.
      rewrite <- extend_advance.
      set (self2 := advance _ self1) in *.
      change (_nest (extend suf self2)) with (_nest self2).
      change (tell (_stream (extend suf self2))) with (tell (_stream self2)).
      rewrite app_assoc in W |- *.
      apply IHw; assumption.
Qed.

(** An outcome reached with some fuel is the outcome. *)
Lemma read_nodes_fuel_any (fuel : nat) (length : Z) self r :
  _read_nodes_fuel fuel length self = r -> r <> OutOfFuel ->
  _read_nodes length self = r.
Proof.
  intros <- Hr. unfold _read_nodes.
  rewrite <- (proj1 (read_nodes_fuel_mono fuel)
                (Nat.max fuel (enough_fuel self)) length self
                (Nat.le_max_l _ _) Hr).
  symmetry.
  apply (proj1 (read_nodes_fuel_mono (enough_fuel self))); [lia|].
  apply read_nodes_total.
Qed.

Lemma while_fuel_any (fuel : nat) (length start consumed : Z) items self r :
  while_fuel fuel length start items consumed self = r -> r <> OutOfFuel ->
  read_nodes_loop length start items consumed self = r.
Proof.
  intros <- Hr. unfold read_nodes_loop.
  set (enough := (List.length (remaining (_stream self)) + 1)%nat).
  rewrite <- (proj2 (read_nodes_fuel_mono fuel)
                (Nat.max fuel enough) length start items consumed self
                (Nat.le_max_l _ _) Hr).
  symmetry.
  apply (proj2 (read_nodes_fuel_mono enough)); [lia|].
  apply (proj2 (read_nodes_fuel_enough _)). subst enough. lia.
Qed.

(** The nodes the loop is given come back in front of the new ones. *)
Lemma while_fuel_acc (fuel : nat) :
  forall (length start consumed : Z) items0 items self,
    while_fuel fuel length start (items0 ++ items) consumed self =
    map_result (app items0) (while_fuel fuel length start items consumed self).
Proof.
  induction fuel as [|fuel IH]; intros length start consumed items0 items self;
    cbn [while_fuel]; destruct (consumed <? length); try reflexivity.
  destruct (_read_header self) as [[h self1]| |]; cbn [bind]; try reflexivity.
  destruct (storage_type h).
  - destruct (_read_nodes_fuel fuel _ self1) as [[childs self2]| |];
      cbn [bind]; try reflexivity.
    rewrite <- app_assoc. apply IH.
  - rewrite read_value_eq. cbn [bind]. rewrite <- app_assoc. apply IH.
Qed.

(** The loop sees the budget only next to the bytes consumed. *)
Lemma while_fuel_translate (k : Z) (fuel : nat) :
  forall (length start consumed : Z) items self,
    while_fuel fuel (length + k) (start - k) items (consumed + k) self =
    while_fuel fuel length start items consumed self.
Proof.
  induction fuel as [|fuel IH]; intros length start consumed items self;
    cbn [while_fuel];
    replace (consumed + k <? length + k) with (consumed <? length)
      by (destruct (Z.ltb_spec consumed length),
                   (Z.ltb_spec (consumed + k) (length + k)); lia || reflexivity);
    destruct (consumed <? length); try reflexivity.
  destruct (_read_header self) as [[h self1]| |]; cbn [bind]; try reflexivity.
  destruct (storage_type h).
  - destruct (_read_nodes_fuel fuel _ self1) as [[childs self2]| |];
      cbn [bind]; try reflexivity.
    replace (tell (_stream self2) - (start - k))
      with (tell (_stream self2) - start + k) by lia.
    apply IH.
  - rewrite read_value_eq. cbn [bind].
    replace (tell (_stream (advance
               (List.length (fst (read (_stream self1) (storage_parser.length h))))
               self1)) - (start - k))
      with (tell (_stream (advance
               (List.length (fst (read (_stream self1) (storage_parser.length h))))
               self1)) - start + k) by lia.
    apply IH.
Qed.

(** A loop with a larger budget passes through the state in which the
    loop with the smaller budget stops. *)
Lemma while_fuel_split (fuel : nat) :
  forall (length length' start consumed : Z) items self items1 self1,
    while_fuel fuel length start items consumed self = Return (items1, self1) ->
    consumed = tell (_stream self) - start ->
    length <= length' ->
    read_nodes_loop length' start items consumed self =
    read_nodes_loop length' start items1 (tell (_stream self1) - start) self1.
Proof.
  induction fuel as [|fuel IH];
    intros length length' start consumed items self items1 self1 W Hc Hle;
    cbn [while_fuel] in W;
    destruct (Z.ltb_spec consumed length) as [Hlt|Hge];
    try discriminate;
    try (injection W as <- <-; now rewrite <- Hc).
  rewrite read_nodes_loop_eq.
  rewrite (proj2 (Z.ltb_lt consumed length')) by lia.
  destruct (_read_header self) as [[h self2]| |]; cbn [bind] in *;
    try discriminate.
  destruct (storage_type h).
  - destruct (_read_nodes_fuel fuel _ self2) as [[childs self3]| |] eqn:RN;
      cbn [bind] in *; try discriminate.
    rewrite (read_nodes_fuel_any _ _ _ _ RN) by discriminate.
    cbn [bind]. now apply (IH _ _ _ _ _ _ _ _ W).
  - rewrite read_value_eq in *. cbn [bind] in *.
    now apply (IH _ _ _ _ _ _ _ _ W).
Qed.

(** The loop over the second of two buffers put together, started behind
    the first with the nodes of the first in hand, is the loop over the
    second buffer alone. *)
Lemma read_nodes_loop_after pre items0 (length : Z) self :
  read_nodes_loop (Z.of_nat (List.length pre) + length) 0 items0
                  (Z.of_nat (List.length pre)) (shift pre self) =
  map_state (shift pre)
    (map_result (app items0) (read_nodes_loop length 0 [] 0 self)).
Proof.
  unfold read_nodes_loop. cbn [_stream shift]. rewrite remaining_shift.
  set (fuel := (List.length (remaining (_stream self)) + 1)%nat).
  set (k := Z.of_nat (List.length pre)).
  fold (shift pre self).
  pose proof (while_fuel_translate k fuel length k 0 items0 (shift pre self))
    as T.
  replace (length + k) with (k + length) in T by lia.
  replace (k - k) with 0 in T by lia.
  cbn [Z.add] in T. rewrite T.
  pose proof (while_fuel_acc fuel length k 0 items0 [] (shift pre self)) as A.
  rewrite app_nil_r in A. rewrite A.
  pose proof (proj2 (read_nodes_fuel_shift pre fuel) length 0 [] 0 self) as S.
  cbn [Z.add] in S. fold k in S. rewrite S.
  destruct (while_fuel fuel length 0 [] 0 self) as [[items1 self1]| |];
    reflexivity.
Qed.

(** X10. A forest that [_read_nodes] returns does not depend on the bytes
    behind it, when every value of the forest holds as many bytes as its
    header says: with any bytes added at the end of the buffer the same call
    returns the same forest and leaves the cursor at the same place. *)
Theorem X10_bytes_behind_an_exact_forest_are_ignored :
  forall suf (length : Z) self items self',
    (pos (_stream self) <= List.length (buf (_stream self)))%nat ->
    _read_nodes length self = Return (items, self') ->
    forallb exact items = true ->
    _read_nodes length (extend suf self) = Return (items, extend suf self').
Proof.
  intros suf length self items self' Hle R Hex.
  apply (read_nodes_fuel_any (enough_fuel self)); [|discriminate].
  now apply (proj1 (read_nodes_fuel_extend suf _)).
Qed.

Lemma X10_witness :
  _read_nodes 8
    (extend [xff; xff] (mkStorageParser (mkBytesIO scenario_A 0) 0)) =
  Return ([StorageValue (mkStorageHeader 1 2 VALUE false) 1 [x41; x42]],
          extend [xff; xff] (mkStorageParser (mkBytesIO scenario_A 8) 0)).
Proof.
  apply (X10_bytes_behind_an_exact_forest_are_ignored [xff; xff] 8
           (mkStorageParser (mkBytesIO scenario_A 0) 0)).
  - cbn. lia.
  - reflexivity.
  - reflexivity.
Defined.

(** X11. Forests side by side: when [parse] of a buffer [a] returns a
    forest in which every value holds as many bytes as its header says, the
    outcome of [parse] on [a ++ b] is that of [parse] on [b] (its nodes, or
    its exception) with the forest of [a] put in front and the cursor at
    the end of [a ++ b]. *)
Theorem X11_parse_of_two_buffers_put_together :
  forall (a b : list byte) self items_a self_a,
    parse a self = Return (items_a, self_a) ->
    forallb exact items_a = true ->
    parse (a ++ b) self =
    map_state (shift a) (map_result (app items_a) (parse b self)).
Proof.
  intros a b self fa sa Ra Hex.
  pose proof (parse_spans _ _ _ _ Ra) as Hspan.
  rewrite parse_eq, read_nodes_eq in Ra.
  set (pa := mkStorageParser (mkBytesIO a 0) (_nest self)) in *.
  set (pb := mkStorageParser (mkBytesIO b 0) (_nest self)).
  change (tell (_stream pa)) with 0 in Ra.
  destruct (read_nodes_loop (Z.of_nat (List.length a)) 0 [] 0 (add_nest 1 pa))
    as [[fa' sa1]| |] eqn:W; cbn [bind] in Ra; try discriminate.
  injection Ra as -> _.
  unfold read_nodes_loop in W.
  destruct (proj2 (read_nodes_fuel_spans _) _ _ _ _ _ _ _ W)
    as (new & Enew & Esa1).
  cbn [app] in Enew. subst new. rewrite Hspan in Esa1.
  assert (Hle : (pos (_stream (add_nest 1 pa)) <=
                 List.length (buf (_stream (add_nest 1 pa))))%nat)
    by (cbn; lia).
  pose proof (proj2 (read_nodes_fuel_extend b _) _ _ [] _ _ fa sa1
                Hle W Hex) as We.
  cbn [app] in We.
  assert (Hbudget : Z.of_nat (List.length a) <=
                    Z.of_nat (List.length a) + Z.of_nat (List.length b))
    by lia.
  pose proof (while_fuel_split _ _ _ _ _ _ _ _ _ We eq_refl Hbudget) as Sp.
  rewrite !parse_eq, !read_nodes_eq. fold pb.
  change (tell (_stream (mkStorageParser (mkBytesIO (a ++ b) 0) (_nest self))))
    with 0.
  change (add_nest 1 (mkStorageParser (mkBytesIO (a ++ b) 0) (_nest self)))
    with (extend b (add_nest 1 pa)).
  rewrite length_app, Nat2Z.inj_add, Sp.
  assert (Esh : extend b sa1 = shift a (add_nest 1 pb)).
  { rewrite Esa1. unfold extend, shift, shift_stream, advance, add_nest, pa, pb.
    cbn [_stream _nest buf pos]. now rewrite Nat.add_0_r. }
  rewrite Esh, tell_shift.
  change (tell (_stream (add_nest 1 pb))) with 0.
  replace (0 + Z.of_nat (List.length a) - 0) with (Z.of_nat (List.length a))
    by lia.
  rewrite read_nodes_loop_after.
  change (tell (_stream pb)) with 0.
  destruct (read_nodes_loop (Z.of_nat (List.length b)) 0 [] 0 (add_nest 1 pb))
    as [[fb sb1]| |]; reflexivity.
Qed.

Lemma X11_witness :
  parse (scenario_A ++ scenario_B_tagged) new_parser =
  Return ([StorageValue (mkStorageHeader 1 2 VALUE false) 1 [x41; x42];
           StorageContainer (mkStorageHeader 2 8 CONTAINER false) 1
             [StorageValue (mkStorageHeader 1 2 VALUE false) 2 [x41; x42]]],
          shift scenario_A (mkStorageParser (mkBytesIO scenario_B_tagged 14) 0)).
Proof.
  apply (X11_parse_of_two_buffers_put_together
           scenario_A scenario_B_tagged new_parser
           [StorageValue (mkStorageHeader 1 2 VALUE false) 1 [x41; x42]]
           (mkStorageParser (mkBytesIO scenario_A 8) 0));
    reflexivity.
Defined.

End Composition.

(** * utils.py: [bin2ascii] *)

Section Bin2Ascii.

Import utils_text.

Lemma bin2ascii_byte (b : byte) :
  bin2ascii [b] =
  [if ((32 <=? Byte.to_N b) && (Byte.to_N b <=? 126)
       || (9 <=? Byte.to_N b) && (Byte.to_N b <=? 13))%N
   then Byte.to_N b else 46%N].
Proof. destruct b; reflexivity. Qed.

Lemma bin2ascii_cons (b : byte) (bs : list byte) :
  bin2ascii (b :: bs) = bin2ascii [b] ++ bin2ascii bs.
Proof. reflexivity. Qed.

Lemma bin2ascii_byte_printable (b : byte) :
  Forall (fun x => in_printable x = true) (bin2ascii [b]).
Proof. destruct b; repeat constructor. Qed.

(** X12. [bin2ascii] turns every byte into one character: the byte itself
    when it is a printable ASCII character (32 to 126) or one of the
    whitespace characters 9 to 13, and a full stop otherwise, also for the
    bytes from 128 on.  The text has as many characters as there are bytes,
    all of them in [string.printable], and the text of two byte strings put
    together is the two texts put together. *)
Theorem X12_bin2ascii_one_printable_character_per_byte :
  forall bs bs' : list byte,
    List.length (bin2ascii bs) = List.length bs /\
    Forall (fun x => in_printable x = true) (bin2ascii bs) /\
    bin2ascii bs =
      map (fun b =>
             if ((32 <=? Byte.to_N b) && (Byte.to_N b <=? 126)
                 || (9 <=? Byte.to_N b) && (Byte.to_N b <=? 13))%N
             then Byte.to_N b else 46%N) bs /\
    bin2ascii (bs ++ bs') = bin2ascii bs ++ bin2ascii bs'.
Proof.
  intros bs bs'. split; [|split; [|split]].
  - unfold bin2ascii, decode_ascii_replace. now rewrite !length_map.
  - induction bs as [|b bs IH]; [constructor|].
    rewrite bin2ascii_cons. apply Forall_app. split; [|exact IH].
    apply bin2ascii_byte_printable.
  - induction bs as [|b bs IH]; [reflexivity|].
    rewrite bin2ascii_cons, bin2ascii_byte, IH. reflexivity.
  - unfold bin2ascii, decode_ascii_replace. now rewrite !map_app.
Qed.

End Bin2Ascii.

(** * utils.py: [_new_key], [index_by], [group_by] *)

From Stdlib Require Import Permutation.

Section SplitKey.

Import utils_keys String Ascii.

Lemma append_nil_r (s : string) : (s ++ "")%string = s.
Proof. induction s as [|c s IH]; cbn; [reflexivity | now rewrite IH]. Qed.

Lemma append_assoc (s1 s2 s3 : string) :
  ((s1 ++ s2) ++ s3)%string = (s1 ++ s2 ++ s3)%string.
Proof. induction s1 as [|c s1 IH]; cbn; [reflexivity | now rewrite IH]. Qed.

Lemma split_from_nonempty (s cur : string) : split_from s cur <> [].
Proof.
  revert cur. induction s as [|c s IH]; intros cur; cbn [split_from].
  - discriminate.
  - destruct (Ascii.eqb c "_"); [|apply IH].
    destruct s as [|c' rest]; [discriminate|].
    destruct (Ascii.eqb c' "_"); [discriminate | apply IH].
Qed.

(** A key without the separator is one piece. *)
Lemma split_from_plain (s cur : string) :
  has_dunder s = false -> split_from s cur = [(cur ++ s)%string].
Proof.
  revert cur. induction s as [|c s IH]; intros cur H.
  - cbn. now rewrite append_nil_r.
  - cbn [has_dunder] in H. apply orb_false_elim in H. destruct H as [Hc Hs].
    cbn [split_from].
    assert (E : split_from s (cur ++ String c "") = [(cur ++ String c s)%string]).
    { rewrite (IH _ Hs). now rewrite append_assoc. }
    destruct (Ascii.eqb c "_"); [|exact E].
    destruct s as [|c' rest]; [exact E|].
    cbn [andb] in Hc. now rewrite Hc.
Qed.

(** A first piece that neither holds the separator nor ends in an
    underscore is split off at the separator that follows it. *)
Lemma split_from_path (k1 rest cur : string) :
  has_dunder (k1 ++ "_") = false ->
  split_from (k1 ++ "__" ++ rest) cur =
  (cur ++ k1)%string :: split_from rest "".
Proof.
  revert cur. induction k1 as [|c k1 IH]; intros cur H.
  - cbn. now rewrite append_nil_r.
  - cbn [append has_dunder] in H. apply orb_false_elim in H.
    destruct H as [Hc Hs].
    cbn [append split_from].
    assert (E : split_from (k1 ++ "__" ++ rest) (cur ++ String c "") =
                (cur ++ String c k1)%string :: split_from rest "").
    { rewrite (IH _ Hs). now rewrite append_assoc. }
    destruct (Ascii.eqb c "_"); [|exact E].
    cbn [andb] in Hc.
    destruct k1 as [|c' k1']; cbn [append] in *.
    + discriminate Hc.
    + now rewrite Hc.
Qed.

End SplitKey.

Section Keys.

Import utils_keys String Ascii.

Context {Hashable : Type}
        (hashable_eqb : Hashable -> Hashable -> bool)
        (of_str : string -> Hashable)
        (py_none : Hashable)
        (can_hash : Hashable -> bool).

Hypothesis hashable_eqb_eq :
  forall x y : Hashable, hashable_eqb x y = true <-> x = y.

Local Abbreviation get := (dict_get Hashable hashable_eqb).
Local Abbreviation set := (dict_set Hashable hashable_eqb).
Local Abbreviation new_key := (_new_key Hashable hashable_eqb of_str py_none).
Local Abbreviation new_key_loop := (_new_key_loop Hashable hashable_eqb of_str).

Implicit Types (k : Hashable) (entry : DictOrValue Hashable)
               (iterable : list (DictOrValue Hashable)) (key : string).

Lemma hashable_eqb_refl k : hashable_eqb k k = true.
Proof. now apply hashable_eqb_eq. Qed.

Lemma hashable_eqb_neq k k' : k <> k' -> hashable_eqb k k' = false.
Proof.
  intros N. destruct (hashable_eqb k k') eqn:E; [|reflexivity].
  now apply hashable_eqb_eq in E.
Qed.

Lemma get_set_same {V : Type} (d : dict Hashable V) k (v : V) :
  get (set d k v) k = Some v.
Proof.
  induction d as [|[k' v'] d IH]; cbn.
  - now rewrite hashable_eqb_refl.
  - destruct (hashable_eqb k' k) eqn:E; cbn; rewrite E; [reflexivity | exact IH].
Qed.

Lemma get_set_other {V : Type} (d : dict Hashable V) k k' (v : V) :
  k <> k' -> get (set d k v) k' = get d k'.
Proof.
  intros N. induction d as [|[k0 v0] d IH]; cbn.
  - now rewrite hashable_eqb_neq.
  - destruct (hashable_eqb k0 k) eqn:E; cbn.
    + apply hashable_eqb_eq in E. subst k0.
      now rewrite hashable_eqb_neq.
    + now rewrite IH.
Qed.

Lemma get_set {V : Type} (d : dict Hashable V) k k' (v : V) :
  get (set d k v) k' = if hashable_eqb k k' then Some v else get d k'.
Proof.
  destruct (hashable_eqb k k') eqn:E.
  - apply hashable_eqb_eq in E. subst k'. apply get_set_same.
  - apply get_set_other. intros ->. now rewrite hashable_eqb_refl in E.
Qed.

Lemma keys_set {V : Type} (d : dict Hashable V) k (v : V) :
  map fst (set d k v) =
  if existsb (fun k' => hashable_eqb k' k) (map fst d)
  then map fst d else map fst d ++ [k].
Proof.
  induction d as [|[k' v'] d IH]; cbn; [reflexivity|].
  destruct (hashable_eqb k' k) eqn:E; cbn; [reflexivity|].
  rewrite IH. now destruct (existsb _ _).
Qed.

Lemma keys_set_nodup {V : Type} (d : dict Hashable V) k (v : V) :
  NoDup (map fst d) -> NoDup (map fst (set d k v)).
Proof.
  intros ND. rewrite keys_set.
  destruct (existsb _ _) eqn:E; [exact ND|].
  apply NoDup_app; [exact ND | repeat constructor; intros [] |].
  intros k' Hin [E'|[]]. subst k'.
  assert (X : existsb (fun k0 => hashable_eqb k0 k) (map fst d) = true)
    by (apply existsb_exists; exists k; split;
        [exact Hin | apply hashable_eqb_refl]).
  congruence.
Qed.

Lemma new_key_loop_overwrites entry (nk1 nk2 : DictOrValue Hashable)
                              (sub_keys : list string) :
  sub_keys <> [] ->
  new_key_loop entry nk1 sub_keys = new_key_loop entry nk2 sub_keys.
Proof. destruct sub_keys; [congruence | reflexivity]. Qed.

(** X13. [_new_key] follows the key as a path.  An entry that is not a
    dict fails the assertion.  For a key without ["__"], a dict gives the
    value stored under the key when that value is hashable, fails the
    assertion when it is not, and raises [KeyError] when the key is
    missing.  For a key that starts with a piece [k1] (free of ["__"] and
    not ending in an underscore) followed by ["__"], a dict is looked up at
    [k1] and the rest of the key is followed from what is found there. *)
Theorem X13_new_key_follows_the_path :
  (forall entry key,
      (forall items, entry <> Dict items) ->
      new_key entry key = Err AssertionFailed)
  /\
  (forall (items : list (Hashable * DictOrValue Hashable)) key,
      has_dunder key = false ->
      new_key (Dict items) key =
      match get items (of_str key) with
      | Some (Value v) => Ok v
      | Some _ => Err AssertionFailed
      | None => Err (KeyError key)
      end)
  /\
  (forall (items : list (Hashable * DictOrValue Hashable)) (k1 rest : string),
      has_dunder (k1 ++ "_") = false ->
      new_key (Dict items) (k1 ++ "__" ++ rest) =
      match get items (of_str k1) with
      | Some found => new_key found rest
      | None => Err (KeyError k1)
      end).
Proof.
  split; [|split].
  - intros entry key Hnd. unfold _new_key, split_dunder.
    pose proof (split_from_nonempty key "") as Hne.
    destruct (split_from key "") as [|sub_key sub_keys]; [congruence|].
    cbn [_new_key_loop]. destruct entry; try reflexivity.
    now contradiction (Hnd items).
  - intros items key Hplain. unfold _new_key, split_dunder.
    rewrite (split_from_plain _ _ Hplain). cbn [append _new_key_loop].
    destruct (get items (of_str key)) as [[v|items'|]|]; reflexivity.
  - intros items k1 rest Hplain. unfold _new_key, split_dunder.
    rewrite (split_from_path _ _ _ Hplain). cbn [append _new_key_loop].
    destruct (get items (of_str k1)) as [found|]; [|reflexivity].
    now rewrite (new_key_loop_overwrites found found (Value py_none))
      by apply split_from_nonempty.
Qed.

Local Abbreviation has_key := (utils_keys.has_key Hashable hashable_eqb of_str py_none).
Local Abbreviation index_by_loop :=
  (utils_keys.index_by_loop Hashable hashable_eqb of_str py_none can_hash).
Local Abbreviation group_by_loop :=
  (utils_keys.group_by_loop Hashable hashable_eqb of_str py_none can_hash).
Local Abbreviation append_hashed := (utils_keys.append_hashed Hashable hashable_eqb).

(** [_new_key] gives a key for the entry, and the key hashes. *)
Let keyed key entry : Prop :=
  exists k, new_key entry key = Ok k /\ can_hash k = true.

Lemma find_snoc {A : Type} (p : A -> bool) (l : list A) (x : A) :
  find p (l ++ [x]) =
  match find p l with
  | Some y => Some y
  | None => if p x then Some x else None
  end.
Proof.
  induction l as [|y l IH]; cbn; [reflexivity|].
  destruct (p y); [reflexivity | exact IH].
Qed.

Lemma index_by_loop_get iterable key :
  forall (indexed indexed' : dict Hashable (DictOrValue Hashable)) k,
    index_by_loop iterable key indexed = Ok indexed' ->
    get indexed' k =
    match find (has_key key k) (rev iterable) with
    | Some entry => Some entry
    | None => get indexed k
    end.
Proof.
  induction iterable as [|entry iterable IH]; intros indexed indexed' k;
    cbn [utils_keys.index_by_loop rev].
  - now intros [= <-].
  - destruct (new_key entry key) as [k0|e] eqn:K; [|discriminate].
    unfold setitem. destruct (can_hash k0); [|discriminate].
    intros R. rewrite (IH _ _ k R), find_snoc.
    destruct (find (has_key key k) (rev iterable)); [reflexivity|].
    unfold utils_keys.has_key. rewrite K, get_set.
    now destruct (hashable_eqb k0 k).
Qed.

Lemma index_by_loop_nodup iterable key :
  forall indexed indexed' : dict Hashable (DictOrValue Hashable),
    index_by_loop iterable key indexed = Ok indexed' ->
    NoDup (map fst indexed) -> NoDup (map fst indexed').
Proof.
  induction iterable as [|entry iterable IH]; intros indexed indexed';
    cbn [utils_keys.index_by_loop].
  - now intros [= <-].
  - destruct (new_key entry key) as [k0|e]; [|discriminate].
    unfold setitem. destruct (can_hash k0); [|discriminate].
    intros R ND. apply (IH _ _ R). now apply keys_set_nodup.
Qed.

Lemma index_by_loop_ok iterable key :
  forall indexed : dict Hashable (DictOrValue Hashable),
    Forall (keyed key) iterable ->
    exists indexed', index_by_loop iterable key indexed = Ok indexed'.
Proof.
  induction iterable as [|entry iterable IH]; intros indexed F;
    cbn [utils_keys.index_by_loop].
  - now eexists.
  - inversion F as [|? ? (k0 & K & H) F']; subst. rewrite K.
    unfold setitem. rewrite H. now apply IH.
Qed.

Lemma index_by_loop_err iterable1 iterable2 entry key (e : key_exception) :
  forall indexed : dict Hashable (DictOrValue Hashable),
    Forall (keyed key) iterable1 ->
    new_key entry key = Err e \/
    (e = TypeError /\ exists k, new_key entry key = Ok k /\ can_hash k = false) ->
    index_by_loop (iterable1 ++ entry :: iterable2) key indexed = Err e.
Proof.
  induction iterable1 as [|entry1 iterable1 IH]; intros indexed F K;
    cbn [utils_keys.index_by_loop app].
  - destruct K as [K|(-> & k & K & H)]; rewrite K; [reflexivity|].
    unfold setitem. now rewrite H.
  - inversion F as [|? ? (k0 & K0 & H0) F']; subst. rewrite K0.
    unfold setitem. rewrite H0. now apply IH.
Qed.

(** X14. [index_by] returns a dict when [_new_key] gives a key that hashes
    for every entry.  Otherwise it raises, for the first entry without
    one, what [_new_key] raises, or [TypeError] when the key that
    [_new_key] gives does not hash.  In the dict no key occurs twice, and
    what is stored under a key is the last entry of the iterable that has
    this key; a key that no entry has is not in the dict. *)
Theorem X14_index_by_keeps_the_last_entry_of_a_key :
  forall iterable key,
    (Forall (fun entry =>
               exists k, new_key entry key = Ok k /\ can_hash k = true)
            iterable ->
     exists indexed,
       index_by Hashable hashable_eqb of_str py_none can_hash iterable key
         = Ok indexed /\
       NoDup (map fst indexed) /\
       forall k, get indexed k = find (has_key key k) (rev iterable))
    /\
    (forall iterable1 iterable2 entry,
        iterable = iterable1 ++ entry :: iterable2 ->
        Forall (fun entry =>
                  exists k, new_key entry key = Ok k /\ can_hash k = true)
               iterable1 ->
        (forall e : key_exception,
            new_key entry key = Err e ->
            index_by Hashable hashable_eqb of_str py_none can_hash iterable key
              = Err e) /\
        (forall k,
            new_key entry key = Ok k -> can_hash k = false ->
            index_by Hashable hashable_eqb of_str py_none can_hash iterable key
              = Err TypeError)).
Proof.
  intros iterable key. split.
  - intros F. destruct (index_by_loop_ok iterable key [] F) as [indexed R].
    exists indexed. split; [exact R|]. split.
    + apply (index_by_loop_nodup _ _ _ _ R). constructor.
    + intros k. rewrite (index_by_loop_get _ _ _ _ k R).
      now destruct (find _ _).
  - intros iterable1 iterable2 entry -> F. split.
    + intros e K. apply index_by_loop_err; [exact F | now left].
    + intros k K H. apply index_by_loop_err; [exact F|].
      right. split; [reflexivity|]. now exists k.
Qed.

Lemma get_append_hashed (grouped : dict Hashable (list (DictOrValue Hashable)))
                        k0 k entry :
  get (append_hashed grouped k0 entry) k =
  if hashable_eqb k0 k
  then Some (match get grouped k0 with Some group => group | None => [] end
             ++ [entry])
  else get grouped k.
Proof.
  unfold utils_keys.append_hashed.
  destruct (get grouped k0) as [group|]; now rewrite get_set.
Qed.

Lemma keys_append_hashed_nodup
    (grouped : dict Hashable (list (DictOrValue Hashable))) k0 entry :
  NoDup (map fst grouped) -> NoDup (map fst (append_hashed grouped k0 entry)).
Proof.
  unfold utils_keys.append_hashed.
  destruct (get grouped k0); apply keys_set_nodup.
Qed.

Lemma concat_set_some {A : Type} (d : dict Hashable (list A)) k
                      (group : list A) (x : A) :
  get d k = Some group ->
  Permutation (List.concat (map snd (set d k (group ++ [x]))))
              (List.concat (map snd d) ++ [x]).
Proof.
  induction d as [|[k' group'] d IH]; cbn; [discriminate|].
  destruct (hashable_eqb k' k) eqn:E; cbn.
  - intros [= ->]. rewrite <- !app_assoc. apply Permutation_app_head.
    apply Permutation_app_comm.
  - intros G. rewrite <- app_assoc. apply Permutation_app_head. now apply IH.
Qed.

Lemma concat_set_none {A : Type} (d : dict Hashable (list A)) k
                      (group : list A) :
  get d k = None ->
  List.concat (map snd (set d k group)) = List.concat (map snd d) ++ group.
Proof.
  induction d as [|[k' group'] d IH]; cbn.
  - intros _. now rewrite app_nil_r.
  - destruct (hashable_eqb k' k) eqn:E; cbn; [discriminate|].
    intros G. now rewrite IH, app_assoc.
Qed.

Lemma concat_append_hashed
    (grouped : dict Hashable (list (DictOrValue Hashable))) k0 entry :
  Permutation (List.concat (map snd (append_hashed grouped k0 entry)))
              (List.concat (map snd grouped) ++ [entry]).
Proof.
  unfold utils_keys.append_hashed.
  destruct (get grouped k0) as [group|] eqn:G.
  - now apply concat_set_some.
  - now rewrite concat_set_none.
Qed.

Lemma group_by_loop_get iterable key :
  forall (grouped grouped' : dict Hashable (list (DictOrValue Hashable))) k,
    group_by_loop iterable key grouped = Ok grouped' ->
    get grouped' k =
    match get grouped k, filter (has_key key k) iterable with
    | Some group, found => Some (group ++ found)
    | None, [] => None
    | None, found => Some found
    end.
Proof.
  induction iterable as [|entry iterable IH]; intros grouped grouped' k;
    cbn [utils_keys.group_by_loop filter].
  - intros [= <-]. destruct (get grouped k); [now rewrite app_nil_r | reflexivity].
  - destruct (new_key entry key) as [k0|e] eqn:K; [|discriminate].
    unfold append_to. destruct (can_hash k0); [|discriminate].
    intros R. rewrite (IH _ _ k R), get_append_hashed.
    assert (HK : has_key key k entry = hashable_eqb k0 k)
      by (unfold utils_keys.has_key; now rewrite K).
    rewrite HK.
    destruct (hashable_eqb k0 k) eqn:E.
    + apply hashable_eqb_eq in E. subst k0.
      destruct (get grouped k) as [group|]; now rewrite <- ?app_assoc.
    + destruct (get grouped k); reflexivity.
Qed.

Lemma group_by_loop_nodup iterable key :
  forall grouped grouped' : dict Hashable (list (DictOrValue Hashable)),
    group_by_loop iterable key grouped = Ok grouped' ->
    NoDup (map fst grouped) -> NoDup (map fst grouped').
Proof.
  induction iterable as [|entry iterable IH]; intros grouped grouped';
    cbn [utils_keys.group_by_loop].
  - now intros [= <-].
  - destruct (new_key entry key) as [k0|e]; [|discriminate].
    unfold append_to. destruct (can_hash k0); [|discriminate].
    intros R ND. apply (IH _ _ R). now apply keys_append_hashed_nodup.
Qed.

Lemma group_by_loop_concat iterable key :
  forall grouped grouped' : dict Hashable (list (DictOrValue Hashable)),
    group_by_loop iterable key grouped = Ok grouped' ->
    Permutation (List.concat (map snd grouped'))
                (List.concat (map snd grouped) ++ iterable).
Proof.
  induction iterable as [|entry iterable IH]; intros grouped grouped';
    cbn [utils_keys.group_by_loop].
  - intros [= <-]. now rewrite app_nil_r.
  - destruct (new_key entry key) as [k0|e]; [|discriminate].
    unfold append_to. destruct (can_hash k0); [|discriminate].
    intros R. rewrite (IH _ _ R), concat_append_hashed, <- app_assoc.
    reflexivity.
Qed.

Lemma group_by_loop_ok iterable key :
  forall grouped : dict Hashable (list (DictOrValue Hashable)),
    Forall (keyed key) iterable ->
    exists grouped', group_by_loop iterable key grouped = Ok grouped'.
Proof.
  induction iterable as [|entry iterable IH]; intros grouped F;
    cbn [utils_keys.group_by_loop].
  - now eexists.
  - inversion F as [|? ? (k0 & K & H) F']; subst. rewrite K.
    unfold append_to. rewrite H. now apply IH.
Qed.

Lemma group_by_loop_err iterable1 iterable2 entry key (e : key_exception) :
  forall grouped : dict Hashable (list (DictOrValue Hashable)),
    Forall (keyed key) iterable1 ->
    new_key entry key = Err e \/
    (e = TypeError /\ exists k, new_key entry key = Ok k /\ can_hash k = false) ->
    group_by_loop (iterable1 ++ entry :: iterable2) key grouped = Err e.
Proof.
  induction iterable1 as [|entry1 iterable1 IH]; intros grouped F K;
    cbn [utils_keys.group_by_loop app].
  - destruct K as [K|(-> & k & K & H)]; rewrite K; [reflexivity|].
    unfold append_to. now rewrite H.
  - inversion F as [|? ? (k0 & K0 & H0) F']; subst. rewrite K0.
    unfold append_to. rewrite H0. now apply IH.
Qed.

(** X15. [group_by] returns a dict when [_new_key] gives a key that hashes
    for every entry.  Otherwise it raises, for the first entry without
    one, what [_new_key] raises, or [TypeError] when the key that
    [_new_key] gives does not hash.  In the dict no key occurs twice; the
    list under a key is made of the entries with this key, in the order of
    the iterable, and a key that no entry has is not in the dict; all the
    lists together hold every entry of the iterable once. *)
Theorem X15_group_by_lists_the_entries_of_each_key :
  forall iterable key,
    (Forall (fun entry =>
               exists k, new_key entry key = Ok k /\ can_hash k = true)
            iterable ->
     exists grouped,
       group_by Hashable hashable_eqb of_str py_none can_hash iterable key
         = Ok grouped /\
       NoDup (map fst grouped) /\
       (forall k,
           get grouped k =
           match filter (has_key key k) iterable with
           | [] => None
           | found => Some found
           end) /\
       Permutation (List.concat (map snd grouped)) iterable)
    /\
    (forall iterable1 iterable2 entry,
        iterable = iterable1 ++ entry :: iterable2 ->
        Forall (fun entry =>
                  exists k, new_key entry key = Ok k /\ can_hash k = true)
               iterable1 ->
        (forall e : key_exception,
            new_key entry key = Err e ->
            group_by Hashable hashable_eqb of_str py_none can_hash iterable key
              = Err e) /\
        (forall k,
            new_key entry key = Ok k -> can_hash k = false ->
            group_by Hashable hashable_eqb of_str py_none can_hash iterable key
              = Err TypeError)).
Proof.
  intros iterable key. split.
  - intros F. destruct (group_by_loop_ok iterable key [] F) as [grouped R].
    exists grouped. split; [exact R|]. split; [|split].
    + apply (group_by_loop_nodup _ _ _ _ R). constructor.
    + intros k. apply (group_by_loop_get _ _ _ _ k R).
    + apply (group_by_loop_concat _ _ _ _ R).
  - intros iterable1 iterable2 entry -> F. split.
    + intros e K. apply group_by_loop_err; [exact F | now left].
    + intros k K H. apply group_by_loop_err; [exact F|].
      right. split; [reflexivity|]. now exists k.
Qed.

End Keys.

Section KeysExamples.

Import utils_keys String Ascii.

Lemma X13_witness :
  _new_key string String.eqb (fun s => s) "None"%string entry_a
           ("header" ++ "__" ++ "idn")%string = Ok "x"%string /\
  _new_key string String.eqb (fun s => s) "None"%string entry_a
           "header"%string = Err AssertionFailed /\
  _new_key string String.eqb (fun s => s) "None"%string
           (Value "v"%string) "kind"%string = Err AssertionFailed.
Proof.
  destruct (X13_new_key_follows_the_path
              String.eqb (fun s : string => s) "None"%string)
    as (Hnodict & Hplain & Hpath).
  split; [|split].
  - unfold entry_a. rewrite (Hpath _ "header"%string "idn"%string eq_refl).
    cbn [dict_get String.eqb Ascii.eqb Bool.eqb].
    rewrite (Hplain _ "idn"%string eq_refl). reflexivity.
  - unfold entry_a. rewrite (Hplain _ "header"%string eq_refl). reflexivity.
  - apply Hnodict. discriminate.
Defined.

Lemma X14_witness :
  (exists indexed,
     index_by string String.eqb (fun s => s) "None"%string (fun _ => true)
              [entry_a; entry_b; entry_c] "kind"%string = Ok indexed /\
     dict_get string String.eqb indexed "v"%string = Some entry_b /\
     dict_get string String.eqb indexed "u"%string = None) /\
  index_by string String.eqb (fun s => s) "None"%string
           (fun k => negb (String.eqb k "w"%string))
           [entry_a; entry_c; entry_b] "kind"%string = Err TypeError.
Proof.
  split.
  - destruct (proj1 (X14_index_by_keeps_the_last_entry_of_a_key
                       String.eqb (fun s : string => s) "None"%string
                       (fun _ => true) String.eqb_eq
                       [entry_a; entry_b; entry_c] "kind"%string))
      as (indexed & R & _ & G).
    + repeat constructor; eexists; split; reflexivity.
    + exists indexed. split; [exact R|]. rewrite !G. split; reflexivity.
  - apply (proj2 (proj2 (X14_index_by_keeps_the_last_entry_of_a_key
                           String.eqb (fun s : string => s) "None"%string
                           (fun k => negb (String.eqb k "w"%string))
                           String.eqb_eq
                           [entry_a; entry_c; entry_b] "kind"%string)
                   [entry_a] [entry_b] entry_c eq_refl
                   ltac:(repeat constructor; eexists; split; reflexivity))
             "w"%string);
      reflexivity.
Defined.

Lemma X15_witness :
  (exists grouped,
     group_by string String.eqb (fun s => s) "None"%string (fun _ => true)
              [entry_a; entry_b; entry_c] "header__idn"%string = Ok grouped /\
     dict_get string String.eqb grouped "x"%string = Some [entry_a; entry_c] /\
     dict_get string String.eqb grouped "z"%string = None) /\
  group_by string String.eqb (fun s => s) "None"%string
           (fun k => negb (String.eqb k "y"%string))
           [entry_a; entry_b; entry_c] "header__idn"%string = Err TypeError.
Proof.
  split.
  - destruct (proj1 (X15_group_by_lists_the_entries_of_each_key
                       String.eqb (fun s : string => s) "None"%string
                       (fun _ => true) String.eqb_eq
                       [entry_a; entry_b; entry_c] "header__idn"%string))
      as (grouped & R & _ & G & _).
    + repeat constructor; eexists; split; reflexivity.
    + exists grouped. split; [exact R|]. rewrite !G. split; reflexivity.
  - apply (proj2 (proj2 (X15_group_by_lists_the_entries_of_each_key
                           String.eqb (fun s : string => s) "None"%string
                           (fun k => negb (String.eqb k "y"%string))
                           String.eqb_eq
                           [entry_a; entry_b; entry_c] "header__idn"%string)
                   [entry_a] [entry_c] entry_b eq_refl
                   ltac:(repeat constructor; eexists; split; reflexivity))
             "y"%string);
      reflexivity.
Defined.

End KeysExamples.

(** * The budget, and where the nodes come from *)

Section BudgetAndPlace.

Implicit Types (self : StorageParser) (h : StorageHeader)
               (items childs : ListOfStorages).

Lemma read_nodes_with_larger_budget (length length' : Z) self items self1 :
  _read_nodes length self = Return (items, self1) ->
  length <= length' ->
  _read_nodes length' self =
  ('(more, self2) <-
      read_nodes_loop length' (tell (_stream self)) []
        (Z.of_nat (spans items)) (add_nest 1 self1) ;;
   Return (items ++ more, add_nest (-1) self2)).
Proof.
  intros R Hle.
  pose proof (read_nodes_spans _ _ _ _ R) as (E1 & _ & _).
  rewrite read_nodes_eq in R.
  destruct (read_nodes_loop length (tell (_stream self)) [] 0 (add_nest 1 self))
    as [[items' self1']| |] eqn:W; cbn [bind] in R; try discriminate.
  injection R as -> R1.
  unfold read_nodes_loop in W.
  pose proof (while_fuel_split _ _ length' _ _ _ _ _ _ W
                ltac:(cbn; lia) Hle) as Sp.
  rewrite read_nodes_eq, Sp.
  destruct (proj2 (read_nodes_fuel_spans _) _ _ _ _ _ _ _ W)
    as (new & Enew & Es).
  cbn [app] in Enew. subst new.
  assert (Ec : tell (_stream self1') - tell (_stream self) =
               Z.of_nat (spans items))
    by (rewrite Es, tell_advance; cbn; lia).
  rewrite Ec.
  assert (E1' : self1' = add_nest 1 self1).
  { rewrite Es, E1. reflexivity. }
  rewrite <- E1'.
  pose proof (while_fuel_acc
                (List.length (remaining (_stream self1')) + 1)
                length' (tell (_stream self)) (Z.of_nat (spans items))
                items [] self1') as A.
  rewrite app_nil_r in A. unfold read_nodes_loop. rewrite A.
  destruct (while_fuel _ length' _ [] _ self1') as [[more self2]| |];
    reflexivity.
Qed.

(** X16. How the budget acts.  When [_read_nodes] returns a forest for
    some budget, it returns the same forest and state for every larger
    budget up to the bytes that the forest spans, and for a budget beyond
    that it raises or returns a forest that starts with the same nodes. *)
Theorem X16_larger_budget_extends_the_forest :
  forall (length length' : Z) self items self1,
    _read_nodes length self = Return (items, self1) ->
    length <= length' ->
    (length' <= Z.of_nat (spans items) ->
       _read_nodes length' self = Return (items, self1)) /\
    ((exists e, _read_nodes length' self = Raise e) \/
     (exists more self2,
         _read_nodes length' self = Return (items ++ more, self2))).
Proof.
  intros length length' self items self1 R Hle.
  rewrite (read_nodes_with_larger_budget _ _ _ _ _ R Hle).
  split.
  - intros Hin. rewrite read_nodes_loop_done by exact Hin.
    cbn [bind]. rewrite app_nil_r, add_nest_add_nest. now rewrite add_nest_0.
  - pose proof (proj2 (read_nodes_fuel_enough
                         (List.length (remaining (_stream (add_nest 1 self1))) + 1))
                  length' (tell (_stream self)) [] (Z.of_nat (spans items))
                  (add_nest 1 self1) ltac:(lia)) as Hfuel.
    unfold read_nodes_loop.
    destruct (while_fuel _ length' _ [] _ (add_nest 1 self1))
      as [[more self2]|e|]; cbn [bind].
    + right. now exists more, (add_nest (-1) self2).
    + left. now exists e.
    + congruence.
Qed.

Lemma X16_witness :
  _read_nodes 8 (mkStorageParser (mkBytesIO overrun_input 6) 1) =
  Return ([StorageValue (mkStorageHeader 1 2 VALUE false) 2 [x41; x42]],
          mkStorageParser (mkBytesIO overrun_input 14) 1).
Proof.
  apply (proj1 (X16_larger_budget_extends_the_forest 1 8
                  (mkStorageParser (mkBytesIO overrun_input 6) 1)
                  [StorageValue (mkStorageHeader 1 2 VALUE false) 2 [x41; x42]]
                  (mkStorageParser (mkBytesIO overrun_input 14) 1)
                  eq_refl ltac:(lia))).
  cbn. lia.
Defined.

Lemma header_at_of_read self h self' :
  _read_header self = Return (h, self') ->
  header_at (buf (_stream self)) (pos (_stream self)) = Return h.
Proof.
  intros R. destruct (read_header_inv _ _ _ R)
    as (idb & lenb & extb & E & Hi & Hl & Hcase).
  unfold header_at.
  set (p0 := mkStorageParser
               (mkBytesIO (buf (_stream self)) (pos (_stream self))) 0).
  change (remaining (_stream self)) with (remaining (_stream p0)) in E.
  destruct Hcase as [(Hnz & -> & -> & _)|(Hz & He & Hnz & -> & _)].
  - now rewrite (read_header_normal p0 idb lenb _ E Hi Hl Hnz).
  - now rewrite (read_header_extended p0 idb lenb extb _ E Hi Hl He Hz Hnz).
Qed.

Lemma located_container (data : list byte) (offset : nat) h (n : Z) childs :
  located data offset (StorageContainer h n childs) <->
  header_at data offset = Return h /\
  located_list data (offset + header_size h) childs.
Proof.
  cbn [located]. generalize (offset + header_size h)%nat as o.
  induction childs as [|child childs IH]; intros o; cbn [located_list].
  - tauto.
  - specialize (IH (o + span child)%nat). tauto.
Qed.

Lemma located_list_app (data : list byte) (offset : nat) items1 items2 :
  located_list data offset (items1 ++ items2) <->
  located_list data offset items1 /\
  located_list data (offset + spans items1) items2.
Proof.
  revert offset. induction items1 as [|node items1 IH]; intros offset;
    cbn [app located_list].
  - unfold spans. cbn. rewrite Nat.add_0_r. tauto.
  - rewrite IH.
    replace (offset + spans (node :: items1))%nat
      with (offset + span node + spans items1)%nat
      by (unfold spans, list_sum; cbn [map fold_right]; lia).
    tauto.
Qed.

Lemma firstn_firstn_length {A : Type} (n : nat) (l : list A) :
  firstn n l = firstn (List.length (firstn n l)) l.
Proof.
  rewrite length_firstn.
  destruct (Nat.le_ge_cases n (List.length l)) as [H|H].
  - now rewrite Nat.min_l.
  - rewrite Nat.min_r by exact H. now rewrite !firstn_all2 by lia.
Qed.

Lemma read_nodes_fuel_located (fuel : nat) :
  (forall length self items self',
      _read_nodes_fuel fuel length self = Return (items, self') ->
      located_list (buf (_stream self)) (pos (_stream self)) items)
  /\
  (forall length start items consumed self items' self',
      while_fuel fuel length start items consumed self = Return (items', self') ->
      exists new,
        items' = items ++ new /\
        located_list (buf (_stream self)) (pos (_stream self)) new).
Proof.
  induction fuel as [|fuel [IHn IHw]]; split.
  - discriminate.
  - intros length start items consumed self items' self'. cbn [while_fuel].
    destruct (consumed <? length); [discriminate|].
    intros [= <- <-]. exists []. now rewrite app_nil_r.
  - intros length self items self'. cbn [_read_nodes_fuel].
    destruct (while_fuel fuel length _ [] 0 (add_nest 1 self))
      as [[items1 self1]| |] eqn:W; cbn [bind]; try discriminate.
    intros [= <- <-]. apply IHw in W. destruct W as (new & -> & L).
    exact L.
  - intros length start items consumed self items' self'. cbn [while_fuel].
    destruct (consumed <? length).
    2:{ intros [= <- <-]. exists []. now rewrite app_nil_r. }
    destruct (_read_header self) as [[h self1]| |] eqn:RH;
      cbn [bind]; try discriminate.
    pose proof (header_at_of_read _ _ _ RH) as Hat.
    apply read_header_step in RH. destruct RH as [-> _].
    destruct (storage_type h).
    + destruct (_read_nodes_fuel fuel (storage_parser.length h) _)
        as [[childs self2]| |] eqn:RN; cbn [bind]; try discriminate.
      pose proof (proj1 (read_nodes_fuel_spans _) _ _ _ _ RN) as E2.
      apply IHn in RN. subst self2. intros W. apply IHw in W.
      destruct W as (new & -> & L).
      eexists. split; [now rewrite <- app_assoc|].
      cbn [app located_list]. split.
      * apply located_container. split; [exact Hat | exact RN].
      * cbn [span]. fold (spans childs).
        cbn [advance _stream buf pos] in L.
        now rewrite Nat.add_assoc.
    + rewrite read_value_eq. cbn [bind]. intros W. apply IHw in W.
      destruct W as (new & -> & L).
      eexists. split; [now rewrite <- app_assoc|].
      cbn [app located_list located]. split; [split|].
      * exact Hat.
      * rewrite read_data. apply firstn_firstn_length.
      * cbn [span]. cbn [advance _stream buf pos] in L.
        now rewrite Nat.add_assoc.
Qed.

(** X17. Every node of a forest that [parse] returns is what the buffer
    holds at the node's place: the roots follow one another from the start
    of the buffer, each taking the bytes it spans; a node's header is the
    header that [_read_header] returns at the node's place; the bytes of a
    value are the bytes of the buffer right after its header; the children
    of a container follow its header one after the other.  The same holds
    for [_read_nodes] from the cursor. *)
Theorem X17_nodes_are_where_the_buffer_has_them :
  (forall (length : Z) self items self',
      _read_nodes length self = Return (items, self') ->
      located_list (buf (_stream self)) (pos (_stream self)) items)
  /\
  (forall (ba : list byte) self items self',
      parse ba self = Return (items, self') ->
      located_list ba 0 items).
Proof.
  split.
  - intros length self items self'. apply (proj1 (read_nodes_fuel_located _)).
  - intros ba self items self' R. rewrite parse_eq in R.
    apply (proj1 (read_nodes_fuel_located _)) in R. exact R.
Qed.

Lemma X17_witness :
  located_list scenario_B_tagged 0
    [StorageContainer (mkStorageHeader 2 8 CONTAINER false) 1
       [StorageValue (mkStorageHeader 1 2 VALUE false) 2 [x41; x42]]].
Proof.
  apply (proj2 X17_nodes_are_where_the_buffer_has_them
           scenario_B_tagged new_parser _
           (mkStorageParser (mkBytesIO scenario_B_tagged 14) 0)).
  reflexivity.
Defined.

End BudgetAndPlace.

(** * The parser after an exception *)

Section AfterAnException.

Implicit Types (self : StorageParser) (h : StorageHeader)
               (items childs : ListOfStorages).

(** ** The tracked functions are the functions *)

Lemma forget_read_sized (size : Z) (s : BytesIO) :
  tracked.forget (tracked.read_sized size s) = utils.read_sized size s.
Proof.
  unfold tracked.read_sized, utils.read_sized.
  destruct (read s size) as [data s1].
  destruct (utils.unpack size data); reflexivity.
Qed.

Lemma forget_with_stream (size : Z) self :
  tracked.forget (tracked.with_stream (tracked.read_sized size) self) =
  with_stream (utils.read_sized size) self.
Proof.
  unfold tracked.with_stream, with_stream.
  rewrite <- forget_read_sized.
  destruct (tracked.read_sized size (_stream self)) as [[v|e|] s1];
    reflexivity.
Qed.

Lemma forget_read_header self :
  tracked.forget (tracked._read_header self) = _read_header self.
Proof.
  unfold tracked._read_header, _read_header, tracked.bind,
    tracked.read_short, tracked.read_int, tracked.read_long_long,
    utils.read_short, utils.read_int, utils.read_long_long.
  rewrite <- (forget_with_stream utils.SHORT_S self).
  destruct (tracked.with_stream (tracked.read_sized utils.SHORT_S) self)
    as [[v1|e|] p1]; cbn [tracked.forget bind]; try reflexivity.
  rewrite <- (forget_with_stream utils.INT_S p1).
  destruct (tracked.with_stream (tracked.read_sized utils.INT_S) p1)
    as [[v2|e|] p2]; cbn [tracked.forget bind]; try reflexivity.
  destruct (v2 =? 0).
  - rewrite <- (forget_with_stream utils.LONG_LONG_S p2).
    destruct (tracked.with_stream (tracked.read_sized utils.LONG_LONG_S) p2)
      as [[v3|e|] p3]; cbn [tracked.forget bind]; try reflexivity.
    destruct (v3 =? 0); cbn [tracked.forget bind tracked.raise tracked.ret];
      [reflexivity|].
    destruct (v3 <? 0); reflexivity.
  - cbn [tracked.forget bind tracked.ret]. destruct (v2 <? 0); reflexivity.
Qed.

Lemma forget_read_value (length : Z) self :
  tracked.forget (tracked._read_value length self) = _read_value length self.
Proof.
  unfold tracked._read_value, _read_value.
  destruct (read (_stream self) length) as [data s]. reflexivity.
Qed.

Lemma forget_read_nodes_fuel (fuel : nat) :
  (forall length self,
      tracked.forget (tracked._read_nodes_fuel fuel length self) =
      _read_nodes_fuel fuel length self)
  /\
  (forall length start items consumed self,
      tracked.forget (tracked.while_fuel fuel length start items consumed self) =
      while_fuel fuel length start items consumed self).
Proof.
  induction fuel as [|fuel [IHn IHw]]; split.
  - reflexivity.
  - intros length start items consumed self.
    cbn [tracked.while_fuel while_fuel].
    destruct (consumed <? length); reflexivity.
  - intros length self. cbn [tracked._read_nodes_fuel _read_nodes_fuel].
    unfold tracked.bind. rewrite <- IHw.
    destruct (tracked.while_fuel fuel length _ [] 0 (add_nest 1 self))
      as [[items1|e|] self1]; reflexivity.
  - intros length start items consumed self.
    cbn [tracked.while_fuel while_fuel].
    destruct (consumed <? length); [|reflexivity].
    unfold tracked.bind. rewrite <- forget_read_header.
    destruct (tracked._read_header self) as [[h|e|] self1];
      cbn [tracked.forget bind]; try reflexivity.
    destruct (storage_type h).
    + rewrite <- IHn.
      destruct (tracked._read_nodes_fuel fuel _ self1) as [[childs|e|] self2];
        cbn [tracked.forget bind]; try reflexivity.
      apply IHw.
    + rewrite <- forget_read_value.
      destruct (tracked._read_value _ self1) as [[value|e|] self2];
        cbn [tracked.forget bind]; try reflexivity.
      apply IHw.
Qed.

(** Without the state that an exception leaves, [tracked.parse] is
    [parse]. *)
Lemma forget_parse (ba : list byte) self :
  tracked.forget (tracked.parse ba self) = parse ba self.
Proof. apply (proj1 (forget_read_nodes_fuel _)). Qed.

Lemma tracked_parse_returns (ba : list byte) self items self' :
  tracked.parse ba self = (Return items, self') ->
  parse ba self = Return (items, self').
Proof. intros R. rewrite <- forget_parse, R. reflexivity. Qed.

(** ** [_nest] after a call *)

Lemma keeps_nest_ret {A : Type} (a : A) :
  tracked.keeps_nest (tracked.ret (S := StorageParser) a).
Proof. intros self. reflexivity. Qed.

Lemma keeps_nest_raise {A : Type} (e : exception) :
  tracked.keeps_nest (tracked.raise (S := StorageParser) (A := A) e).
Proof. intros self. reflexivity. Qed.

Lemma keeps_nest_with_stream {A : Type} (f : tracked.T BytesIO A) :
  tracked.keeps_nest (tracked.with_stream f).
Proof.
  intros self. unfold tracked.with_stream.
  destruct (f (_stream self)) as [r s]. reflexivity.
Qed.

Lemma keeps_nest_bind {A B : Type} (m : tracked.T StorageParser A)
                      (k : A -> tracked.T StorageParser B) :
  tracked.keeps_nest m -> (forall a, tracked.keeps_nest (k a)) ->
  tracked.keeps_nest (tracked.bind m k).
Proof.
  intros Hm Hk self. unfold tracked.bind. specialize (Hm self).
  destruct (m self) as [[a|e|] self1]; cbn [snd] in *; try exact Hm.
  now rewrite Hk.
Qed.

(** [_read_header] does not touch [_nest], whether it returns or raises. *)
Lemma keeps_nest_read_header : tracked.keeps_nest tracked._read_header.
Proof.
  unfold tracked._read_header.
  apply keeps_nest_bind; [apply keeps_nest_with_stream|]. intros idn.
  apply keeps_nest_bind; [apply keeps_nest_with_stream|]. intros raw.
  apply keeps_nest_bind.
  - destruct (raw =? 0); [|apply keeps_nest_ret].
    apply keeps_nest_bind; [apply keeps_nest_with_stream|]. intros raw'.
    destruct (raw' =? 0); [apply keeps_nest_raise | apply keeps_nest_ret].
  - intros [[extended size_of_length] chunk_length].
    destruct (chunk_length <? 0); apply keeps_nest_ret.
Qed.

Lemma keeps_nest_read_value (length : Z) :
  tracked.keeps_nest (tracked._read_value length).
Proof.
  intros self. unfold tracked._read_value.
  destruct (read (_stream self) length) as [data s]. reflexivity.
Qed.

(** [_read_nodes] restores [_nest] when it returns and leaves it raised
    when it raises: the decrement at its end is not reached. *)
Lemma tracked_read_nodes_fuel_nest (fuel : nat) :
  (forall length self,
      match tracked._read_nodes_fuel fuel length self with
      | (Return _, self') => _nest self' = _nest self
      | (Raise _, self') => _nest self < _nest self'
      | (OutOfFuel, _) => True
      end)
  /\
  (forall length start items consumed self,
      match tracked.while_fuel fuel length start items consumed self with
      | (Return _, self') => _nest self' = _nest self
      | (Raise _, self') => _nest self <= _nest self'
      | (OutOfFuel, _) => True
      end).
Proof.
  induction fuel as [|fuel [IHn IHw]]; split.
  - intros length self. exact I.
  - intros length start items consumed self. cbn [tracked.while_fuel].
    destruct (consumed <? length); [exact I | reflexivity].
  - intros length self. cbn [tracked._read_nodes_fuel]. unfold tracked.bind.
    specialize (IHw length (tell (_stream (add_nest 1 self))) [] 0
                    (add_nest 1 self)).
    destruct (tracked.while_fuel fuel length _ [] 0 (add_nest 1 self))
      as [[items1|e|] self1]; cbn [_nest add_nest] in *; lia || exact I.
  - intros length start items consumed self. cbn [tracked.while_fuel].
    destruct (consumed <? length); [|reflexivity].
    unfold tracked.bind.
    pose proof (keeps_nest_read_header self) as N1.
    destruct (tracked._read_header self) as [[h|e|] self1];
      cbn [snd] in N1; try lia; try exact I.
    destruct (storage_type h).
    + specialize (IHn (storage_parser.length h) self1).
      destruct (tracked._read_nodes_fuel fuel _ self1) as [[childs|e|] self2];
        try lia; try exact I.
      specialize (IHw length start
                      (items ++ [StorageContainer h (_nest self2) childs])
                      (tell (_stream self2) - start) self2).
      destruct (tracked.while_fuel fuel length start _ _ self2)
        as [[items1|e|] self3]; lia || exact I.
    + pose proof (keeps_nest_read_value (storage_parser.length h) self1) as N2.
      destruct (tracked._read_value _ self1) as [[value|e|] self2];
        cbn [snd] in N2; try lia; try exact I.
      specialize (IHw length start
                      (items ++ [StorageValue h (_nest self2) value])
                      (tell (_stream self2) - start) self2).
      destruct (tracked.while_fuel fuel length start _ _ self2)
        as [[items1|e|] self3]; lia || exact I.
Qed.

Lemma tracked_parse_nest (ba : list byte) self :
  match tracked.parse ba self with
  | (Return _, self') => _nest self' = _nest self
  | (Raise _, self') => _nest self < _nest self'
  | (OutOfFuel, _) => True
  end.
Proof.
  exact (proj1 (tracked_read_nodes_fuel_nest _)
           (Z.of_nat (List.length ba))
           (mkStorageParser (mkBytesIO ba 0) (_nest self))).
Qed.

Lemma read_nodes_nest_ok (length : Z) self items self' :
  _read_nodes length self = Return (items, self') ->
  forallb (nest_ok (_nest self + 1)) items = true.
Proof.
  intros R. apply Forall_forallb. revert R.
  apply (read_nodes_fuel_forall (fun d node => nest_ok d node = true)).
  - intros p h p1 _ _. cbn [nest_ok]. apply Z.eqb_refl.
  - intros p h p1 fuel childs p2 _ _ _ HF. cbn [nest_ok].
    rewrite Z.eqb_refl. cbn [andb]. now apply Forall_forallb.
Qed.

Lemma nest_ok_inj (d1 d2 : Z) (node : Storage) :
  nest_ok d1 node = true -> nest_ok d2 node = true -> d1 = d2.
Proof.
  destruct node as [h n value|h n childs]; cbn [nest_ok]; intros H1 H2.
  - apply Z.eqb_eq in H1, H2. congruence.
  - apply andb_prop in H1, H2. destruct H1 as [H1 _], H2 as [H2 _].
    apply Z.eqb_eq in H1, H2. congruence.
Qed.

(** C8. The code does not keep what the claim says.  [_read_nodes] raises
    [_nest] on entry and lowers it at its end, with no [try]/[finally], so
    a [parse] that raises leaves the parser with [_nest] raised.  When one
    parser decodes a non-empty buffer, then fails on another, then decodes
    the first buffer again, both decodes return and the second forest is not
    equal to the first: its nodes carry a larger [_nest].  So it is for the
    bytes of scenario A, decoded before and after the stream 01 00 08 that
    ends inside its header. *)
Theorem C8_forest_differs_after_a_failed_parse :
  (forall (good bad : list byte) (self self1 self2 self3 : StorageParser)
          (items items' : ListOfStorages) (e : exception),
      good <> [] ->
      tracked.parse good self = (Return items, self1) ->
      tracked.parse bad self1 = (Raise e, self2) ->
      tracked.parse good self2 = (Return items', self3) ->
      _nest self1 = _nest self /\ _nest self < _nest self2 /\ items' <> items)
  /\
  (tracked.parse scenario_A new_parser =
     (Return [StorageValue (mkStorageHeader 1 2 VALUE false) 1 [x41; x42]],
      mkStorageParser (mkBytesIO scenario_A 8) 0) /\
   tracked.parse cut_short_input (mkStorageParser (mkBytesIO scenario_A 8) 0) =
     (Raise StructError, mkStorageParser (mkBytesIO cut_short_input 3) 1) /\
   tracked.parse scenario_A (mkStorageParser (mkBytesIO cut_short_input 3) 1) =
     (Return [StorageValue (mkStorageHeader 1 2 VALUE false) 2 [x41; x42]],
      mkStorageParser (mkBytesIO scenario_A 8) 1)).
Proof.
  split; [|repeat split; reflexivity].
  intros good bad self self1 self2 self3 items items' e Hne R1 R2 R3.
  pose proof (tracked_parse_nest good self) as N1. rewrite R1 in N1.
  pose proof (tracked_parse_nest bad self1) as N2. rewrite R2 in N2.
  split; [exact N1|]. split; [lia|].
  apply tracked_parse_returns in R1, R3.
  pose proof (parse_spans _ _ _ _ R1) as Hspan.
  rewrite parse_eq in R1, R3.
  apply read_nodes_nest_ok in R1, R3. cbn [_nest] in R1, R3.
  intros ->. destruct items as [|node items].
  - destruct good; [now contradiction Hne | discriminate Hspan].
  - cbn [forallb] in R1, R3. apply andb_prop in R1, R3.
    destruct R1 as [R1 _], R3 as [R3 _].
    pose proof (nest_ok_inj _ _ _ R1 R3). lia.
Qed.

Lemma C8_witness :
  _nest (mkStorageParser (mkBytesIO scenario_A 8) 0) = _nest new_parser /\
  _nest new_parser < _nest (mkStorageParser (mkBytesIO cut_short_input 3) 1) /\
  [StorageValue (mkStorageHeader 1 2 VALUE false) 2 [x41; x42]] <>
  [StorageValue (mkStorageHeader 1 2 VALUE false) 1 [x41; x42]].
Proof.
  apply (proj1 C8_forest_differs_after_a_failed_parse
           scenario_A cut_short_input new_parser
           (mkStorageParser (mkBytesIO scenario_A 8) 0)
           (mkStorageParser (mkBytesIO cut_short_input 3) 1)
           (mkStorageParser (mkBytesIO scenario_A 8) 1)
           [StorageValue (mkStorageHeader 1 2 VALUE false) 1 [x41; x42]]
           [StorageValue (mkStorageHeader 1 2 VALUE false) 2 [x41; x42]]
           StructError);
    [discriminate | reflexivity | reflexivity | reflexivity].
Defined.

End AfterAnException.
